(** * Natural merge sort (sequential and fork-join parallel)

    A shallow embedding of [parallel_natural_merge_sort.h]:
    the unchecked run-length queue, the run scanner, the pass-count bit
    helpers, the bottom-up merge scheduler with its two ping-pong buffers,
    the fork-join wrapper and the two entry points; and of
    [get_presorted_int_array] of [main.cpp], which builds an input of the
    benchmark.

    Conventions.
    - [size_t] is a 64-bit unsigned integer: a [Z] in [0, 2^64), every
      arithmetic operation of the source on it is followed by [wrap].
    - A random-access range is a [list]; an iterator into it is its
      distance from the start of the range, a [nat].
    - Behaviour the C++ leaves undefined (an access outside a range, an
      iterator before the start of its range) and a loop that outlives its
      fuel are [None] in the [option] monad. *)

From Stdlib Require Import ZArith Lia List Permutation Sorted String.
From stdpp Require Import base tactics option list numbers sorting.

Local Open Scope Z_scope.

(** ** [size_t] *)

Definition size_t_bits : Z := 64.

Definition wrap (x : Z) : Z := x mod 2 ^ size_t_bits.

Definition is_size_t (x : Z) : Prop := 0 <= x < 2 ^ size_t_bits.

Definition is_power_of_two (x : Z) : Prop := exists k : Z, 0 <= k /\ x = 2 ^ k.

(** ** class UnsafeIntQueue *)

Module Queue.

Record UnsafeIntQueue : Type := mkQueue {
  m_head : Z;
  m_tail : Z;
  m_size : Z;
  m_mask : Z;
  m_buffer : list Z
}.

Definition MINIMUM_CAPACITY : Z := 256.

(** [while (s < capacity) s <<= 1;] *)
Fixpoint fixCapacity_loop (fuel : nat) (s capacity : Z) : option Z :=
  if s <? capacity then
    match fuel with
    | O => None
    | S fuel' => fixCapacity_loop fuel' (wrap (Z.shiftl s 1)) capacity
    end
  else Some s.

(** A [size_t] can be doubled 64 times before it wraps to zero, after which
    the source loop would never end; 65 rounds of fuel cover every run that
    terminates. *)
Definition fixCapacity (capacity : Z) : option Z :=
  let capacity := Z.max capacity MINIMUM_CAPACITY in
  fixCapacity_loop 65 1 capacity.

(** The constructor.  [new size_t[capacity]] holds indeterminate values; the
    model fills it with zeros. *)
Definition create (capacity : Z) : option UnsafeIntQueue :=
  capacity ← fixCapacity capacity;
  Some {| m_head := 0;
          m_tail := 0;
          m_size := 0;
          m_mask := wrap (capacity - 1);
          m_buffer := replicate (Z.to_nat capacity) 0 |}.

(** The number of slots of the backing buffer. *)
Definition capacity (q : UnsafeIntQueue) : Z := Z.of_nat (length (m_buffer q)).

(** [m_buffer[m_tail & m_mask] = element; m_tail = (m_tail + 1) & m_mask;
    m_size++;]  The store is the only access to memory. *)
Definition enqueue (q : UnsafeIntQueue) (element : Z) : option UnsafeIntQueue :=
  let slot := Z.to_nat (Z.land (m_tail q) (m_mask q)) in
  guard (slot < length (m_buffer q))%nat;;
  Some {| m_head := m_head q;
          m_tail := Z.land (wrap (m_tail q + 1)) (m_mask q);
          m_size := wrap (m_size q + 1);
          m_mask := m_mask q;
          m_buffer := <[slot := element]> (m_buffer q) |}.

(** [ret = m_buffer[m_head]; m_head = (m_head + 1) & m_mask; m_size--;
    return ret;] *)
Definition dequeue (q : UnsafeIntQueue) : option (Z * UnsafeIntQueue) :=
  ret ← m_buffer q !! Z.to_nat (m_head q);
  Some (ret,
        {| m_head := Z.land (wrap (m_head q + 1)) (m_mask q);
           m_tail := m_tail q;
           m_size := wrap (m_size q - 1);
           m_mask := m_mask q;
           m_buffer := m_buffer q |}).

Definition size (q : UnsafeIntQueue) : Z := m_size q.

(** The queue does not check for under- or overflow: its callers owe it
    that [enqueue] finds a free slot and [dequeue] a pending element.  The
    callers below go through these two wrappers, which turn a broken
    promise into [None]; on every other call they are [enqueue] and
    [dequeue] themselves. *)
Definition enqueue_in_contract (q : UnsafeIntQueue) (element : Z)
  : option UnsafeIntQueue :=
  guard (m_size q < capacity q);; enqueue q element.

Definition dequeue_in_contract (q : UnsafeIntQueue)
  : option (Z * UnsafeIntQueue) :=
  guard (0 < m_size q);; dequeue q.

End Queue.

Export Queue.

(** ** leading_zeros, get_pass_amount *)

(** [for (t = 1 << 63; t; t >>= 1, ++count) if (t & num) return count;] *)
Fixpoint leading_zeros_loop (fuel : nat) (t num count : Z) : option Z :=
  if t =? 0 then Some count
  else if negb (Z.land t num =? 0) then Some count
  else
    match fuel with
    | O => None
    | S fuel' =>
        leading_zeros_loop fuel' (Z.shiftr t 1) num (wrap (count + 1))
    end.

Definition leading_zeros (num : Z) : option Z :=
  leading_zeros_loop 64 (wrap (Z.shiftl 1 (8 * 8 - 1))) num 0.

(** [return 8 * sizeof(run_amount) - leading_zeros(run_amount - 1);] *)
Definition get_pass_amount (run_amount : Z) : option Z :=
  lz ← leading_zeros (wrap (run_amount - 1));
  Some (wrap (8 * 8 - lz)).

(** ** Ranges and the standard algorithms the sort calls *)

Section Algorithms.

Context {A : Type}.
Variable cmp : A -> A -> bool.

(** The elements of [mem] at the positions [from, to). *)
Definition range (mem : list A) (from to : Z) : option (list A) :=
  guard (0 <= from /\ from <= to /\ to <= Z.of_nat (length mem));;
  Some (take (Z.to_nat (to - from)) (drop (Z.to_nat from) mem)).

(** [mem] after [data] was written to the positions starting at [pos]. *)
Definition store (mem : list A) (pos : Z) (data : list A) : option (list A) :=
  guard (0 <= pos /\ pos + Z.of_nat (length data) <= Z.of_nat (length mem));;
  Some (take (Z.to_nat pos) mem ++ data
          ++ drop (Z.to_nat pos + length data) mem).

(** [std::merge] on two lists: the head of the second list is taken only
    when the comparator puts it before the head of the first. *)
Fixpoint merge_lists (l1 : list A) : list A -> list A :=
  fix merge_into (l2 : list A) : list A :=
    match l1, l2 with
    | [], _ => l2
    | _, [] => l1
    | x1 :: l1', x2 :: l2' =>
        if cmp x2 x1 then x2 :: merge_into l2' else x1 :: merge_lists l1' l2
    end.

(** [std::merge(src + first1, src + last1, src + first2, src + last2,
    dst + d_first, cmp)], the two buffers being different arrays. *)
Definition std_merge (src : list A) (first1 last1 first2 last2 : Z)
    (dst : list A) (d_first : Z) : option (list A) :=
  run1 ← range src first1 last1;
  run2 ← range src first2 last2;
  store dst d_first (merge_lists run1 run2).

(** [std::copy(src + first, src + last, dst + d_first)]. *)
Definition std_copy (src : list A) (first last : Z) (dst : list A)
    (d_first : Z) : option (list A) :=
  data ← range src first last;
  store dst d_first data.

(** [std::reverse(mem + first, mem + last)]. *)
Definition std_reverse (mem : list A) (first last : nat) : option (list A) :=
  guard (first <= last /\ last <= length mem)%nat;;
  Some (take first mem ++ reverse (take (last - first) (drop first mem))
          ++ drop last mem).

(** [std::is_sorted(first, last, cmp)]. *)
Fixpoint std_is_sorted (l : list A) : bool :=
  match l with
  | [] => true
  | x :: l' =>
      match l' with
      | [] => true
      | y :: _ => negb (cmp y x) && std_is_sorted l'
      end
  end.

(** ** build_run_size_queue *)

(** The cursors of the scanner: the array as it stands, the queue, [left]
    and [right]. *)
Record scanner : Type := mkScanner {
  sc_array : list A;
  sc_queue : UnsafeIntQueue;
  sc_left : nat;
  sc_right : nat
}.

(** [while (left < lst && cmp( *right, *left)) { ++left; ++right; }] *)
Fixpoint extend_descending (fuel : nat) (arr : list A) (lst left right : nat)
  : option (nat * nat) :=
  if bool_decide (left < lst)%nat then
    r ← arr !! right;
    l ← arr !! left;
    if cmp r l then
      match fuel with
      | O => None
      | S fuel' => extend_descending fuel' arr lst (S left) (S right)
      end
    else Some (left, right)
  else Some (left, right).

(** [while (left < lst && !cmp( *right, *left)) { ++left; ++right; }] *)
Fixpoint extend_ascending (fuel : nat) (arr : list A) (lst left right : nat)
  : option (nat * nat) :=
  if bool_decide (left < lst)%nat then
    r ← arr !! right;
    l ← arr !! left;
    if negb (cmp r l) then
      match fuel with
      | O => None
      | S fuel' => extend_ascending fuel' arr lst (S left) (S right)
      end
    else Some (left, right)
  else Some (left, right).

(** One round of the outer [while (left < lst)] loop. *)
Definition scan_run (lst : nat) (s : scanner) : option scanner :=
  let arr := sc_array s in
  let head := sc_left s in
  r ← arr !! sc_right s;
  l ← arr !! sc_left s;
  let right := S (sc_right s) in
  let left := S (sc_left s) in
  if cmp r l then
    (* Reading a strictly descending run. *)
    '(left, right) ← extend_descending (length arr) arr lst left right;
    q ← enqueue_in_contract (sc_queue s)
          (wrap (Z.of_nat right - Z.of_nat head));
    arr ← std_reverse arr head right;
    Some (mkScanner arr q (S left) (S right))
  else
    (* Reading an ascending run. *)
    '(left, right) ← extend_ascending (length arr) arr lst left right;
    q ← enqueue_in_contract (sc_queue s)
          (wrap (Z.of_nat left - Z.of_nat head + 1));
    Some (mkScanner arr q (S left) (S right)).

Fixpoint scan_loop (fuel : nat) (lst : nat) (s : scanner) : option scanner :=
  if bool_decide (sc_left s < lst)%nat then
    match fuel with
    | O => None
    | S fuel' => s' ← scan_run lst s; scan_loop fuel' lst s'
    end
  else Some s.

(** The range after the scan (descending runs reversed in place) and the
    queue.  [lst = last - 1] is an iterator of the range only if the range
    is not empty. *)
Definition build_run_size_queue (arr : list A)
  : option (list A * UnsafeIntQueue) :=
  let length_ := wrap (Z.of_nat (length arr)) in
  p_q ← create (wrap (length_ / 2 + 1));
  guard (1 <= length arr)%nat;;
  let lst := (length arr - 1)%nat in
  s ← scan_loop (length arr) lst (mkScanner arr p_q 0%nat 1%nat);
  p_q ← (if bool_decide (sc_left s = lst)
         then enqueue_in_contract (sc_queue s) 1  (* orphan element *)
         else Some (sc_queue s));
  Some (sc_array s, p_q).

(** ** natural_merge_sort_impl *)

(** What a [RandomIt] variable of the scheduler points to: the caller's
    range [first, last) or the auxiliary range starting at [buffer]. *)
Inductive buffer_role : Type := Input | Scratch.

Record scheduler : Type := mkScheduler {
  input_range : list A;
  scratch_range : list A;
  source : buffer_role;
  target : buffer_role;
  p_queue : UnsafeIntQueue;
  runs_left : Z;
  offset : Z
}.

Definition pointee (s : scheduler) (p : buffer_role) : list A :=
  match p with
  | Input => input_range s
  | Scratch => scratch_range s
  end.

Definition write_through (s : scheduler) (p : buffer_role) (mem : list A)
  : scheduler :=
  match p with
  | Input =>
      mkScheduler mem (scratch_range s) (source s) (target s) (p_queue s)
        (runs_left s) (offset s)
  | Scratch =>
      mkScheduler (input_range s) mem (source s) (target s) (p_queue s)
        (runs_left s) (offset s)
  end.

(** [case 0:] of the switch: the pass is complete. *)
Definition finish_pass (s : scheduler) (q : UnsafeIntQueue) : scheduler :=
  mkScheduler (input_range s) (scratch_range s) (target s) (source s) q
    (size q) 0.

(** The body of [while (p_queue->size() > 1)]. *)
Definition merge_round (s : scheduler) : option scheduler :=
  '(left_run_length, q) ← dequeue_in_contract (p_queue s);
  '(right_run_length, q) ← dequeue_in_contract q;
  mem ← std_merge (pointee s (source s))
          (offset s)
          (offset s + left_run_length)
          (offset s + left_run_length)
          (offset s + left_run_length + right_run_length)
          (pointee s (target s))
          (offset s);
  let s := write_through s (target s) mem in
  q ← enqueue_in_contract q (wrap (left_run_length + right_run_length));
  let runs_left_ := wrap (runs_left s - 2) in
  let offset_ := wrap (offset s + wrap (left_run_length + right_run_length)) in
  if runs_left_ =? 1 then
    '(single_length, q) ← dequeue_in_contract q;
    mem ← std_copy (pointee s (source s))
            offset_ (offset_ + single_length)
            (pointee s (target s)) offset_;
    let s := write_through s (target s) mem in
    q ← enqueue_in_contract q single_length;
    (* fall through *)
    Some (finish_pass s q)
  else if runs_left_ =? 0 then
    Some (finish_pass s q)
  else
    Some (mkScheduler (input_range s) (scratch_range s) (source s) (target s)
            q runs_left_ offset_).

Fixpoint merge_loop (fuel : nat) (s : scheduler) : option scheduler :=
  if 1 <? size (p_queue s) then
    match fuel with
    | O => None
    | S fuel' => s' ← merge_round s; merge_loop fuel' s'
    end
  else Some s.

(** [natural_merge_sort_impl] from the scan to the loop: the state in which
    the merge loop is entered. *)
Definition schedule (first_last buffer : list A) : option scheduler :=
  '(first_last, p_queue_) ← build_run_size_queue first_last;
  merge_passes ← get_pass_amount (size p_queue_);
  if Z.land merge_passes 1 =? 1 then
    buffer ← std_copy first_last 0 (Z.of_nat (length first_last)) buffer 0;
    Some (mkScheduler first_last buffer Scratch Input p_queue_
            (size p_queue_) 0)
  else
    Some (mkScheduler first_last buffer Input Scratch p_queue_
            (size p_queue_) 0).

(** [natural_merge_sort_impl(first, last, buffer, cmp)]: the contents of
    [first, last) and of [buffer, buffer + length) when it returns.  A merge
    needs one round of the loop and there are fewer merges than elements. *)
Definition natural_merge_sort_impl (first_last buffer : list A)
  : option (list A * list A) :=
  let length_ := wrap (Z.of_nat (length first_last)) in
  if length_ <? 2 then
    (* Trivially sorted. *)
    Some (first_last, buffer)
  else
    s ← schedule first_last buffer;
    s ← merge_loop (length first_last) s;
    Some (input_range s, scratch_range s).

(** ** natural_merge_sort *)

(** [fresh] is what [new value_type[length]] returns: [length] elements of
    indeterminate value.  The buffer is deleted before the function returns,
    the caller's range is what remains. *)
Definition natural_merge_sort (fresh first_last : list A) : option (list A) :=
  let length_ := wrap (Z.of_nat (length first_last)) in
  if length_ <? 2 then
    Some first_last
  else
    guard (length fresh = length first_last);;
    '(first_last, _) ← natural_merge_sort_impl first_last fresh;
    Some first_last.

(** ** parallel_natural_merge_sort_impl *)

(** A call [f(a + from, a + to, b + pos)] of the sequential scheduler on a
    part of [a] with the part of [b] of the same length for scratch. *)
Definition on_ranges (a : list A) (from to : Z) (b : list A) (pos : Z)
  : option (list A * list A) :=
  first_last ← range a from to;
  buffer ← range b pos (pos + (to - from));
  '(first_last, buffer) ← natural_merge_sort_impl first_last buffer;
  a ← store a from first_last;
  b ← store b pos buffer;
  Some (a, b).

(** [source] and [target] are the contents of the two arrays from the
    pointers of these names on.  A thread and the code that runs until it
    is joined work on ranges that do not overlap, in either array, so the
    model runs the thread first and the joining code after it.  The quota
    strictly decreases along the recursion, which makes it the fuel. *)
Fixpoint parallel_natural_merge_sort_impl (fuel : nat) (source target : list A)
    (length_ thread_quota : Z) : option (list A * list A) :=
  if thread_quota =? 1 then
    '(target, source) ← on_ranges target 0 length_ source 0;
    Some (source, target)
  else
    let left_quota := thread_quota / 2 in
    let right_quota := wrap (thread_quota - left_quota) in
    let left_length := length_ / 2 in
    if thread_quota =? 2 then
      (* thread_ *)
      '(source, target) ← on_ranges source 0 left_length target 0;
      (* the current thread *)
      '(source, target) ←
        on_ranges source left_length length_ target left_length;
      target ← std_merge source 0 left_length left_length length_ target 0;
      Some (source, target)
    else
      match fuel with
      | O => None
      | S fuel' =>
          (* left_thread, on the first [left_length] elements, the roles
             of the arrays exchanged *)
          '(target, source) ←
            parallel_natural_merge_sort_impl fuel' target source
              left_length left_quota;
          (* the current thread, on [target + left_length] and
             [source + left_length] *)
          guard (0 <= left_length <= Z.of_nat (length source)
                 /\ left_length <= Z.of_nat (length target));;
          let skip := Z.to_nat left_length in
          '(target_tail, source_tail) ←
            parallel_natural_merge_sort_impl fuel' (drop skip target)
              (drop skip source) (wrap (length_ - left_length)) right_quota;
          let source := take skip source ++ source_tail in
          let target := take skip target ++ target_tail in
          target ← std_merge source 0 left_length left_length length_ target 0;
          Some (source, target)
      end.

(** ** parallel_natural_merge_sort *)

Definition MINIMUM_THREAD_LOAD : Z := Z.shiftl 1 14.

(** [cores] is the value of [std::thread::hardware_concurrency()], [fresh]
    the new array.  The buffer of the parallel path is not deleted. *)
Definition parallel_natural_merge_sort (cores : Z) (fresh begin_end : list A)
  : option (list A) :=
  let length_ := wrap (Z.of_nat (length begin_end)) in
  let spawn := Z.min cores (length_ / MINIMUM_THREAD_LOAD) in
  if spawn <? 2 then
    natural_merge_sort fresh begin_end
  else
    guard (length fresh = length begin_end);;
    buffer ← std_copy begin_end 0 (Z.of_nat (length begin_end)) fresh 0;
    '(_, begin_end) ←
      parallel_natural_merge_sort_impl (Z.to_nat spawn) buffer begin_end
        length_ spawn;
    Some begin_end.

End Algorithms.

(** * main.cpp *)

(** ** get_presorted_int_array *)

(** [int] has 32 bits; an [int] that leaves its range is undefined
    behaviour. *)
Definition INT_MIN : Z := - 2 ^ 31.

Definition INT_MAX : Z := 2 ^ 31 - 1.

(** [for (; i < stop; ++i) array[i] = num++;] *)
Fixpoint fill_ascending (fuel : nat) (array : list Z) (i stop num : Z)
  : option (list Z * Z) :=
  if i <? stop then
    match fuel with
    | O => None
    | S fuel' =>
        guard (Z.to_nat i < length array)%nat;;
        let array := <[Z.to_nat i := num]> array in
        guard (num + 1 <= INT_MAX);;
        fill_ascending fuel' array (wrap (i + 1)) stop (num + 1)
    end
  else Some (array, num).

(** [for (; i < stop; ++i) array[i] = num--;] *)
Fixpoint fill_descending (fuel : nat) (array : list Z) (i stop num : Z)
  : option (list Z * Z) :=
  if i <? stop then
    match fuel with
    | O => None
    | S fuel' =>
        guard (Z.to_nat i < length array)%nat;;
        let array := <[Z.to_nat i := num]> array in
        guard (INT_MIN <= num - 1);;
        fill_descending fuel' array (wrap (i + 1)) stop (num - 1)
    end
  else Some (array, num).

(** [fresh] is what [new int[length]] returns.  Each loop writes one
    element a round and there are [length] elements. *)
Definition get_presorted_int_array (fresh : list Z) (length_ : Z)
  : option (list Z) :=
  guard (Z.of_nat (length fresh) = length_);;
  let num := 0 in
  '(array, num) ← fill_ascending (length fresh) fresh 0 (length_ / 2) num;
  '(array, _) ←
    fill_descending (length fresh) array (length_ / 2) length_ num;
  Some array.

(** * Specification vocabulary

    What the theorems below say of the code, in definitions of their own:
    the invariant of the queue, orders and sortedness, the runs of a range,
    bottom-up merging of a list of runs, and the inputs of the examples. *)

(** The number of significant bits of a natural number. *)
Definition bit_length (num : Z) : Z :=
  if num =? 0 then 0 else Z.log2 num + 1.

(** The representation invariant: a buffer of [2^k] slots, the mask
    [2^k - 1], and [m_tail] that many slots after [m_head] as there are
    pending elements. *)
Definition queue_ok (q : UnsafeIntQueue) : Prop :=
  exists k : Z,
    0 <= k <= 63 /\
    capacity q = 2 ^ k /\
    m_mask q = 2 ^ k - 1 /\
    0 <= m_head q < 2 ^ k /\
    0 <= m_size q <= 2 ^ k /\
    m_tail q = (m_head q + m_size q) mod 2 ^ k.

(** The pending elements, oldest first: [m_size] slots read circularly from
    [m_head]. *)
Fixpoint read_from (buffer : list Z) (mask : Z) (head : Z) (count : nat)
  : list Z :=
  match count with
  | O => []
  | S count' =>
      nth (Z.to_nat head) buffer 0
        :: read_from buffer mask (Z.land (head + 1) mask) count'
  end.

Definition contents (q : UnsafeIntQueue) : list Z :=
  read_from (m_buffer q) (m_mask q) (m_head q) (Z.to_nat (m_size q)).

(** The lengths that [count] calls of [dequeue] return, in the order of the
    calls. *)
Fixpoint dequeue_all (count : nat) (q : UnsafeIntQueue) : option (list Z) :=
  match count with
  | O => Some []
  | S count' =>
      '(x, q') ← dequeue_in_contract q;
      rest ← dequeue_all count' q';
      Some (x :: rest)
  end.

(** [enqueue] called once for each element of a list, first to last. *)
Fixpoint enqueue_each (elements : list Z) (q : UnsafeIntQueue)
  : option UnsafeIntQueue :=
  match elements with
  | [] => Some q
  | x :: rest => q' ← enqueue q x; enqueue_each rest q'
  end.

(** [dequeue] called [count] times: what the calls returned, in their
    order, and the queue they leave. *)
Fixpoint dequeue_each (count : nat) (q : UnsafeIntQueue)
  : option (list Z * UnsafeIntQueue) :=
  match count with
  | O => Some ([], q)
  | S count' =>
      '(x, q') ← dequeue q;
      '(rest, q'') ← dequeue_each count' q';
      Some (x :: rest, q'')
  end.

(** The queues a caller can hold who has kept the contract so far: made by
    the constructor, never asked for more elements than were pending nor
    given more than there are slots. *)
Inductive in_use : UnsafeIntQueue -> Prop :=
| in_use_new capacity_ q :
    0 <= capacity_ <= 2 ^ 63 -> create capacity_ = Some q -> in_use q
| in_use_enqueue q element q' :
    in_use q -> size q < capacity q -> enqueue q element = Some q' ->
    in_use q'
| in_use_dequeue q element q' :
    in_use q -> 0 < size q -> dequeue q = Some (element, q') -> in_use q'.

Section OrderVocabulary.

Context {A : Type}.
Variable cmp : A -> A -> bool.

(** The comparator returns false both ways. *)
Definition equivalent (x y : A) : bool := negb (cmp x y) && negb (cmp y x).

(** What the standard asks of a comparator. *)
Record strict_weak_order : Prop := {
  swo_irreflexive : forall x, cmp x x = false;
  swo_transitive :
    forall x y z, cmp x y = true -> cmp y z = true -> cmp x z = true;
  swo_equivalent_transitive :
    forall x y z,
      equivalent x y = true -> equivalent y z = true -> equivalent x z = true
}.

(** [y] does not come before [x]. *)
Definition not_after (x y : A) : Prop := cmp y x = false.

(** Non-decreasing under the comparator: no element comes before an
    earlier one. *)
Definition sorted (l : list A) : Prop := StronglySorted not_after l.

(** The elements equivalent to any given one appear in the same order in
    both lists. *)
Definition same_order_of_equivalents (l l' : list A) : Prop :=
  forall z, List.filter (equivalent z) l = List.filter (equivalent z) l'.

(** A run as the scanner reads it: neighbours never descend, or neighbours
    always strictly descend. *)
Definition ascending_run (l : list A) : Prop :=
  Sorted (fun x y => cmp y x = false) l.

Definition descending_run (l : list A) : Prop :=
  Sorted (fun x y => cmp y x = true) l.

End OrderVocabulary.

Section RunVocabulary.

Context {A : Type}.
Variable cmp : A -> A -> bool.

(** How many elements of [l] continue a strictly descending run whose last
    element is [prev]. *)
Fixpoint descending_extent (prev : A) (l : list A) : nat :=
  match l with
  | x :: l' => if cmp x prev then S (descending_extent x l') else O
  | [] => O
  end.

(** The same for a run that never descends. *)
Fixpoint ascending_extent (prev : A) (l : list A) : nat :=
  match l with
  | x :: l' => if negb (cmp x prev) then S (ascending_extent x l') else O
  | [] => O
  end.

(** The runs of a range as section 4.2 of the specification words them:
    the first comparison decides the direction, the run extends while the
    direction holds, a last lone element is a run of its own. *)
Fixpoint runs_with (fuel : nat) (l : list A) : list (list A) :=
  match fuel with
  | O => []
  | S fuel' =>
      match l with
      | [] => []
      | [x] => [[x]]
      | x :: y :: rest =>
          let k := if cmp y x then descending_extent y rest
                   else ascending_extent y rest in
          (x :: y :: take k rest) :: runs_with fuel' (drop k rest)
      end
  end.

Definition runs_of (l : list A) : list (list A) := runs_with (length l) l.

(** A descending run is reversed, an ascending run stays. *)
Definition settle (run : list A) : list A :=
  match run with
  | x :: y :: _ => if cmp y x then reverse run else run
  | _ => run
  end.

Definition run_lengths (runs : list (list A)) : list Z :=
  map (fun run => Z.of_nat (length run)) runs.

(** A run of two elements or more goes the way its first comparison
    says. *)
Definition is_run (run : list A) : Prop :=
  match run with
  | [] => False
  | [_] => True
  | x :: y :: _ => if cmp y x then descending_run cmp run
                   else ascending_run cmp run
  end.

End RunVocabulary.

Section PassVocabulary.

Context {A : Type}.
Variable cmp : A -> A -> bool.

(** One pass: neighbouring runs are merged two by two, a last run without
    a neighbour is carried over. *)
Fixpoint merge_pairs (runs : list (list A)) : list (list A) :=
  match runs with
  | a :: b :: rest => merge_lists cmp a b :: merge_pairs rest
  | _ => runs
  end.

(** The number of passes that leave one run: the least [p] with
    [length runs <= 2^p]. *)
Definition passes_for (runs : list (list A)) : nat :=
  Z.to_nat (Z.log2_up (Z.of_nat (length runs))).

Definition merge_all (runs : list (list A)) : list (list A) :=
  Nat.iter (passes_for runs) merge_pairs runs.

(** What the sort leaves in the caller's range. *)
Definition sorted_output (input : list A) : list A :=
  concat (merge_all (map (settle cmp) (runs_of cmp input))).

(** [mem] with [data] written over it from position [pos] on. *)
Definition stored (mem : list A) (pos : nat) (data : list A) : list A :=
  take pos mem ++ data ++ drop (pos + length data) mem.

(** *** The invariant of the merge loop

    [runs0] are the runs the current pass started from: they lie one after
    the other in the source.  The pass has merged a front part of them into
    [merged], which lies at the front of the target, and has [pending] still
    to read. *)
Record pass_invariant (n : nat) (s : @scheduler A)
    (runs0 merged pending : list (list A)) : Prop := {
  inv_pairs : merge_pairs runs0 = merged ++ merge_pairs pending;
  inv_source : pointee s (source s) = concat runs0;
  inv_pending :
    drop (length (concat merged)) (concat runs0) = concat pending;
  inv_target :
    take (length (concat merged)) (pointee s (target s)) = concat merged;
  inv_length_source : length (concat runs0) = n;
  inv_length_target : length (pointee s (target s)) = n;
  inv_bound : Z.of_nat n < 2 ^ size_t_bits;
  inv_queue_ok : queue_ok (p_queue s);
  inv_contents :
    contents (p_queue s) = run_lengths pending ++ run_lengths merged;
  inv_runs_left : runs_left s = Z.of_nat (length pending);
  inv_offset : offset s = Z.of_nat (length (concat merged));
  inv_roles : source s <> target s;
  inv_phase : (merged = [] /\ pending = runs0) \/ (2 <= length pending)%nat;
  inv_count : length runs0 = (2 * length merged + length pending)%nat;
  inv_parity :
    source s = Input
    <-> Z.even (Z.log2_up (Z.of_nat (length runs0))) = true
}.

End PassVocabulary.

Section EntryVocabulary.

Context {A : Type}.
Variable cmp : A -> A -> bool.

(** [result] is a rearrangement of [data], and the output of the sort when
    the comparator is a strict weak order. *)
Definition sorts_to (data result : list A) : Prop :=
  Permutation result data
  /\ (strict_weak_order cmp -> result = sorted_output cmp data).

(** The state in which the loop condition is tested for the time
    [k + 1]: [None] when the loop has ended before. *)
Fixpoint after_rounds (k : nat) (s : @scheduler A) : option (@scheduler A) :=
  match k with
  | O => Some s
  | S k' =>
      if 1 <? size (p_queue s) then
        s' ← merge_round cmp s; after_rounds k' s'
      else None
  end.

End EntryVocabulary.

(** Records with a numeric key and a label, compared by the key only. *)
Definition key_less (x y : Z * string) : bool := fst x <? fst y.

(** The records of the scenario of C3 and what sorting them by the key
    must give. *)
Definition labelled_input : list (Z * string) :=
  [(3, "a"%string); (1, "b"%string); (3, "c"%string); (2, "d"%string)].

Definition labelled_output : list (Z * string) :=
  [(1, "b"%string); (2, "d"%string); (3, "a"%string); (3, "c"%string)].

(** The input of C7. *)
Definition descending_then_ascending : list Z := [5; 4; 3; 2; 1; 2; 3; 4].

(** [0, 1, 0, 1, ..., 0, 1, 0]: runs of two elements and a last lone
    element. *)
Definition zigzag (pairs : nat) : list Z :=
  concat (replicate pairs [0; 1]) ++ [0].

(** The queue [UnsafeIntQueue(0)] constructs. *)
Definition new_queue : UnsafeIntQueue :=
  {| m_head := 0; m_tail := 0; m_size := 0; m_mask := 255;
     m_buffer := replicate 256 0 |}.

(** A queue that holds as many elements as it has slots: 1 to 256. *)
Definition full_queue : UnsafeIntQueue :=
  {| m_head := 0; m_tail := 0; m_size := 256; m_mask := 255;
     m_buffer := map Z.of_nat (seq 1 256) |}.

(** [count] numbers from [from] on, [step] apart. *)
Fixpoint counting (from step : Z) (count : nat) : list Z :=
  match count with
  | O => []
  | S count' => from :: counting (from + step) step count'
  end.

(** The scheduler in a pass that reads the caller's range and writes the
    auxiliary buffer, which has [m] elements: where the pass stands, the
    run lengths it has still to read and those it has merged. *)
Record first_pass_state {A : Type} (n m : Z) (s : @scheduler A)
    (pending merged : list Z) : Prop := {
  fp_source : source s = Input;
  fp_target : target s = Scratch;
  fp_scratch : Z.of_nat (length (scratch_range s)) = m;
  fp_queue_ok : queue_ok (p_queue s);
  fp_contents : contents (p_queue s) = pending ++ merged;
  fp_runs_left : runs_left s = Z.of_nat (length pending);
  fp_pending : (2 <= length pending)%nat;
  fp_lengths : Forall (fun x => 0 <= x) pending;
  fp_offset_low : 0 <= offset s;
  fp_offset : offset s + fold_right Z.add 0 pending = n
}.

(** * Verification *)

(** ** [size_t] arithmetic *)

Lemma wrap_small x : is_size_t x -> wrap x = x.
Proof. unfold is_size_t, wrap. intros H. apply Z.mod_small. exact H. Qed.

Lemma wrap_is_size_t x : is_size_t (wrap x).
Proof. unfold is_size_t, wrap. apply Z.mod_pos_bound. reflexivity. Qed.

Lemma two_to_the_64 : 2 ^ size_t_bits = 18446744073709551616.
Proof. reflexivity. Qed.

(** Bounds are discharged after the modulus is made a numeral. *)
Ltac size_t_bounds :=
  unfold is_size_t in *; rewrite ?two_to_the_64 in *; lia.

(** ** The pass count *)

Lemma land_single_bit k num :
  0 <= k -> 0 <= num < 2 ^ (k + 1) ->
  (Z.land (2 ^ k) num =? 0) = (num <? 2 ^ k).
Proof.
  intros Hk [H0 Hlt].
  assert (Hq : 0 <= num / 2 ^ k < 2).
  { split; [apply Z.div_pos; lia |].
    apply Z.div_lt_upper_bound; [lia |].
    rewrite Z.pow_add_r, Z.pow_1_r in Hlt by lia. lia. }
  assert (Hbit : Z.land (2 ^ k) num = if Z.testbit num k then 2 ^ k else 0).
  { apply Z.bits_inj'. intros i Hi. rewrite Z.land_spec, Z.pow2_bits_eqb by lia.
    destruct (Z.eqb_spec k i) as [->|Hne].
    - destruct (Z.testbit num i); [now rewrite Z.pow2_bits_true by lia |].
      now rewrite Z.bits_0.
    - simpl. destruct (Z.testbit num k); [| now rewrite Z.bits_0].
      symmetry. apply Z.pow2_bits_false. congruence. }
  rewrite Hbit.
  destruct (Z.testbit num k) eqn:Hb.
  - apply Z.testbit_true in Hb; [| lia].
    assert (num / 2 ^ k = 1) as Hone.
    { destruct (Z.eq_dec (num / 2 ^ k) 0) as [E|E];
        [rewrite E in Hb; discriminate | lia]. }
    assert (2 ^ k <= num).
    { pose proof (Z.mul_div_le num (2 ^ k)) as Hm. rewrite Hone in Hm. lia. }
    assert (0 < 2 ^ k) by lia.
    destruct (Z.eqb_spec (2 ^ k) 0); [lia |].
    destruct (Z.ltb_spec num (2 ^ k)); [lia | reflexivity].
  - apply Z.testbit_false in Hb; [| lia].
    assert (num / 2 ^ k = 0) as Hzero.
    { destruct (Z.eq_dec (num / 2 ^ k) 1) as [E|E];
        [rewrite E in Hb; discriminate | lia]. }
    apply Z.div_small_iff in Hzero; [| lia].
    destruct (Z.ltb_spec num (2 ^ k)); [reflexivity | lia].
Qed.

Lemma bit_length_top k num :
  0 <= k -> 2 ^ k <= num < 2 ^ (k + 1) -> bit_length num = k + 1.
Proof.
  intros Hk H. unfold bit_length.
  assert (0 < 2 ^ k) by lia.
  destruct (Z.eqb_spec num 0); [lia |].
  f_equal. apply Z.log2_unique; lia.
Qed.

(** The loop started on the bit [fuel - 1] with every higher bit of [num]
    clear. *)
Lemma leading_zeros_loop_spec (fuel : nat) (num count : Z) :
  0 <= num < 2 ^ Z.of_nat fuel ->
  0 <= count -> count + Z.of_nat fuel = 64 ->
  leading_zeros_loop fuel (Z.shiftr (2 ^ Z.of_nat fuel) 1) num count
  = Some (64 - bit_length num).
Proof.
  revert count. induction fuel as [|fuel IH]; intros count Hnum Hc Hsum.
  - simpl in *. assert (num = 0) as -> by lia. f_equal. unfold bit_length.
    simpl. lia.
  - assert (Ht : Z.shiftr (2 ^ Z.of_nat (S fuel)) 1 = 2 ^ Z.of_nat fuel).
    { rewrite Z.shiftr_div_pow2, Z.pow_1_r by lia.
      replace (Z.of_nat (S fuel)) with (Z.of_nat fuel + 1) by lia.
      rewrite Z.pow_add_r, Z.pow_1_r by lia. apply Z.div_mul. lia. }
    rewrite Ht. cbn [leading_zeros_loop].
    assert (0 < 2 ^ Z.of_nat fuel) by lia.
    destruct (Z.eqb_spec (2 ^ Z.of_nat fuel) 0); [lia |].
    rewrite land_single_bit
      by (replace (Z.of_nat fuel + 1) with (Z.of_nat (S fuel)); lia).
    destruct (Z.ltb_spec num (2 ^ Z.of_nat fuel)) as [Hlt|Hge]; simpl.
    + rewrite wrap_small by size_t_bounds. apply IH; lia.
    + f_equal. rewrite (bit_length_top (Z.of_nat fuel)); [lia | lia |].
      replace (Z.of_nat fuel + 1) with (Z.of_nat (S fuel)); lia.
Qed.

Lemma leading_zeros_spec num :
  is_size_t num -> leading_zeros num = Some (64 - bit_length num).
Proof.
  intros H. unfold leading_zeros.
  replace (wrap (Z.shiftl 1 (8 * 8 - 1))) with (Z.shiftr (2 ^ Z.of_nat 64) 1)
    by reflexivity.
  apply leading_zeros_loop_spec; [exact H | lia | reflexivity].
Qed.

Lemma bit_length_bounds num : is_size_t num -> 0 <= bit_length num <= 64.
Proof.
  intros [H0 H]. unfold bit_length. destruct (Z.eqb_spec num 0); [lia |].
  assert (Z.log2 num < 64); [| pose proof (Z.log2_nonneg num); lia].
  apply Z.log2_lt_pow2; [lia | exact H].
Qed.

Lemma bit_length_pred run_amount :
  1 <= run_amount -> bit_length (run_amount - 1) = Z.log2_up run_amount.
Proof.
  intros H. unfold bit_length, Z.log2_up.
  destruct (Z.eqb_spec (run_amount - 1) 0) as [E|E].
  - replace run_amount with 1 by lia. reflexivity.
  - destruct (Z.compare_spec 1 run_amount); [lia | | lia].
    rewrite <- Z.sub_1_r. lia.
Qed.

Lemma get_pass_amount_spec run_amount :
  1 <= run_amount < 2 ^ size_t_bits ->
  get_pass_amount run_amount = Some (Z.log2_up run_amount).
Proof.
  intros H. unfold get_pass_amount.
  assert (Hs : is_size_t (run_amount - 1)) by size_t_bounds.
  rewrite (wrap_small _ Hs), (leading_zeros_spec _ Hs). simpl.
  pose proof (bit_length_bounds _ Hs).
  rewrite wrap_small by size_t_bounds.
  f_equal. rewrite <- bit_length_pred by lia. lia.
Qed.

(** ** The queue is a FIFO while its contract is kept *)

Module QueueFacts.

Lemma land_mask x k : 0 <= k -> Z.land x (2 ^ k - 1) = x mod 2 ^ k.
Proof.
  intros Hk. rewrite <- Z.land_ones by exact Hk.
  now rewrite Z.ones_equiv, <- Z.sub_1_r.
Qed.

Lemma pow2_le_63 k : 0 <= k <= 63 -> 0 < 2 ^ k <= 2 ^ 63.
Proof.
  intros Hk. split; [lia |]. apply Z.pow_le_mono_r; lia.
Qed.

Lemma mod_succ_mod a m : 0 < m -> (a mod m + 1) mod m = (a + 1) mod m.
Proof. intros Hm. now rewrite Z.add_mod_idemp_l by lia. Qed.

Lemma mod_shift_ne head j m :
  0 <= head < m -> 0 < j < m -> (head + j) mod m <> head.
Proof.
  intros Hh Hj. destruct (Z_lt_dec (head + j) m) as [Hlt|Hge].
  - rewrite Z.mod_small; lia.
  - replace (head + j) with (head + j - m + 1 * m) by lia.
    rewrite Z.mod_add, Z.mod_small; lia.
Qed.

Lemma fixCapacity_loop_spec (fuel : nat) (i : Z) (c : Z) :
  0 <= i -> 64 <= i + Z.of_nat fuel -> c <= 2 ^ 63 ->
  (i = 0 \/ 2 ^ (i - 1) < c) ->
  exists k, 0 <= k <= 63 /\ c <= 2 ^ k /\ (k = 0 \/ 2 ^ (k - 1) < c) /\
            fixCapacity_loop fuel (2 ^ i) c = Some (2 ^ k).
Proof.
  revert i. induction fuel as [|fuel IH]; intros i Hi Hsum Hc Hlow.
  - exfalso. destruct Hlow as [?|Hlow]; [lia |].
    assert (2 ^ 63 <= 2 ^ (i - 1)) by (apply Z.pow_le_mono_r; lia). lia.
  - assert (Hi63 : i <= 63).
    { destruct (Z_le_dec i 63); [assumption | exfalso].
      destruct Hlow as [?|Hlow]; [lia |].
      assert (2 ^ 63 <= 2 ^ (i - 1)) by (apply Z.pow_le_mono_r; lia). lia. }
    cbn [fixCapacity_loop].
    destruct (Z.ltb_spec (2 ^ i) c) as [Hlt|Hge].
    + assert (Hdouble : wrap (Z.shiftl (2 ^ i) 1) = 2 ^ (i + 1)).
      { rewrite Z.shiftl_mul_pow2, Z.pow_1_r by lia.
        rewrite Z.pow_add_r, Z.pow_1_r by lia.
        apply wrap_small. pose proof (pow2_le_63 i ltac:(lia)). size_t_bounds. }
      rewrite Hdouble. apply IH; try lia.
      right. now replace (i + 1 - 1) with i by lia.
    + exists i. split; [lia |]. split; [lia |].
      split; [exact Hlow | reflexivity].
Qed.

Lemma fixCapacity_spec c :
  c <= 2 ^ 63 ->
  exists k, 0 <= k <= 63 /\ Z.max c MINIMUM_CAPACITY <= 2 ^ k /\
            fixCapacity c = Some (2 ^ k).
Proof.
  intros Hc. unfold fixCapacity.
  destruct (fixCapacity_loop_spec 65 0 (Z.max c MINIMUM_CAPACITY))
    as (k & Hk & Hle & _ & Heq); try lia.
  - unfold MINIMUM_CAPACITY. change (2 ^ 63) with 9223372036854775808 in *. lia.
  - exists k. auto.
Qed.

Lemma length_read_from buffer mask head count :
  length (read_from buffer mask head count) = count.
Proof.
  revert head.
  induction count as [|count IH]; intros head; simpl;
    [| rewrite IH]; reflexivity.
Qed.

Lemma size_contents q :
  0 <= m_size q -> size q = Z.of_nat (length (contents q)).
Proof. intros H. unfold size, contents. rewrite length_read_from. lia. Qed.

Lemma create_spec c :
  0 <= c <= 2 ^ 63 ->
  exists q, create c = Some q /\ queue_ok q /\ contents q = [] /\
            Z.max c MINIMUM_CAPACITY <= capacity q /\
            is_power_of_two (capacity q).
Proof.
  intros Hc. unfold create.
  destruct (fixCapacity_spec c) as (k & Hk & Hle & ->); [lia |]. simpl.
  pose proof (pow2_le_63 k Hk) as Hp.
  eexists. split; [reflexivity |].
  assert (Hcap : capacity
            {| m_head := 0; m_tail := 0; m_size := 0;
               m_mask := wrap (2 ^ k - 1);
               m_buffer := replicate (Z.to_nat (2 ^ k)) 0 |} = 2 ^ k).
  { unfold capacity. simpl. rewrite length_replicate. lia. }
  split; [| split; [reflexivity | split]].
  - exists k. rewrite Hcap. simpl.
    rewrite wrap_small
      by (change (2 ^ 63) with 9223372036854775808 in Hp; size_t_bounds).
    repeat split; try lia; rewrite Z.mod_small; lia.
  - rewrite Hcap. exact Hle.
  - rewrite Hcap. exists k. split; [lia | reflexivity].
Qed.

Lemma read_from_insert k buffer x :
  0 <= k -> Z.of_nat (length buffer) = 2 ^ k ->
  forall (count : nat) (head : Z),
    0 <= head < 2 ^ k -> Z.of_nat count < 2 ^ k ->
    read_from (<[Z.to_nat ((head + Z.of_nat count) mod 2 ^ k) := x]> buffer)
      (2 ^ k - 1) head (S count)
    = read_from buffer (2 ^ k - 1) head count ++ [x].
Proof.
  intros Hk Hlen. induction count as [|count IH]; intros head Hhead Hcount.
  - cbn [read_from app]. rewrite Z.add_0_r, Z.mod_small by lia.
    f_equal. rewrite nth_lookup, list_lookup_insert_eq by lia. reflexivity.
  - change (read_from ?b ?m head (S (S count)))
      with (nth (Z.to_nat head) b 0
              :: read_from b m (Z.land (head + 1) m) (S count)).
    cbn [read_from app]. f_equal.
    + rewrite !nth_lookup, list_lookup_insert_ne; [reflexivity |].
      intros E.
      apply (mod_shift_ne head (Z.of_nat (S count)) (2 ^ k)); [lia | lia |].
      assert (0 <= (head + Z.of_nat (S count)) mod 2 ^ k)
        by (apply Z.mod_pos_bound; lia).
      lia.
    + rewrite land_mask by lia.
      replace ((head + Z.of_nat (S count)) mod 2 ^ k)
        with (((head + 1) mod 2 ^ k + Z.of_nat count) mod 2 ^ k).
      * rewrite <- (land_mask (head + 1) k) at 2 by lia.
        rewrite land_mask by lia.
        apply IH; [apply Z.mod_pos_bound; lia | lia].
      * rewrite Z.add_mod_idemp_l by lia. f_equal. lia.
Qed.

Lemma enqueue_spec q x :
  queue_ok q -> m_size q < capacity q ->
  exists q', enqueue_in_contract q x = Some q' /\ queue_ok q' /\
             contents q' = contents q ++ [x] /\
             capacity q' = capacity q /\ size q' = size q + 1.
Proof.
  intros (k & Hk & Hcap & Hmask & Hhead & Hsize & Htail) Hroom.
  pose proof (pow2_le_63 k Hk) as Hp.
  change (2 ^ 63) with 9223372036854775808 in Hp.
  assert (Ht : 0 <= m_tail q < 2 ^ k)
    by (rewrite Htail; apply Z.mod_pos_bound; lia).
  assert (Hroom' : m_size q < 2 ^ k) by lia.
  unfold enqueue_in_contract, enqueue.
  rewrite option_guard_True by exact Hroom.
  rewrite Hmask, land_mask by lia.
  unfold capacity in Hcap.
  rewrite option_guard_True by (rewrite (Z.mod_small (m_tail q)) by lia; lia).
  eexists. split; [reflexivity |].
  rewrite (wrap_small (m_tail q + 1)) by size_t_bounds.
  rewrite (wrap_small (m_size q + 1)) by size_t_bounds.
  rewrite land_mask by lia.
  split; [| split; [| split]].
  - exists k. unfold capacity. simpl. rewrite length_insert.
    repeat split; try lia.
    rewrite Htail, mod_succ_mod by lia. f_equal. lia.
  - unfold contents. simpl. rewrite Hmask.
    replace (Z.to_nat (m_size q + 1)) with (S (Z.to_nat (m_size q))) by lia.
    rewrite (Z.mod_small (m_tail q)) by lia. rewrite Htail.
    replace (m_size q) with (Z.of_nat (Z.to_nat (m_size q))) at 1 by lia.
    apply read_from_insert; lia.
  - unfold capacity. simpl. now rewrite length_insert.
  - reflexivity.
Qed.

Lemma dequeue_spec q x xs :
  queue_ok q -> contents q = x :: xs ->
  exists q', dequeue_in_contract q = Some (x, q') /\ queue_ok q' /\
             contents q' = xs /\ capacity q' = capacity q /\
             size q' = size q - 1.
Proof.
  intros (k & Hk & Hcap & Hmask & Hhead & Hsize & Htail) Hcont.
  pose proof (pow2_le_63 k Hk) as Hp.
  change (2 ^ 63) with 9223372036854775808 in Hp.
  assert (Hpos : 0 < m_size q).
  { destruct (Z_lt_dec 0 (m_size q)); [assumption | exfalso].
    unfold contents in Hcont.
    replace (Z.to_nat (m_size q)) with 0%nat in Hcont by lia.
    discriminate. }
  unfold contents in Hcont.
  replace (Z.to_nat (m_size q))
    with (S (Z.to_nat (m_size q - 1))) in Hcont by lia.
  cbn [read_from] in Hcont. injection Hcont as Hx Hxs.
  unfold dequeue_in_contract, dequeue.
  rewrite option_guard_True by exact Hpos.
  unfold capacity in Hcap.
  destruct (lookup_lt_is_Some_2 (m_buffer q) (Z.to_nat (m_head q))) as [v Hv];
    [lia |].
  rewrite Hv. simpl.
  assert (v = x) as ->.
  { rewrite nth_lookup, Hv in Hx. exact Hx. }
  eexists. split; [reflexivity |].
  rewrite (wrap_small (m_head q + 1)) by size_t_bounds.
  rewrite (wrap_small (m_size q - 1)) by size_t_bounds.
  split; [| split; [| split]].
  - exists k. unfold capacity. simpl. rewrite Hmask, land_mask by lia.
    repeat split; try lia; try (apply Z.mod_pos_bound; lia).
    rewrite Htail, Z.add_mod_idemp_l by lia. f_equal. lia.
  - unfold contents. simpl. exact Hxs.
  - reflexivity.
  - reflexivity.
Qed.

Lemma queue_ok_size q : queue_ok q -> 0 <= size q <= capacity q.
Proof. intros (k & _ & Hcap & _ & _ & Hsize & _). unfold size. lia. Qed.

Lemma queue_ok_power_of_two q : queue_ok q -> is_power_of_two (capacity q).
Proof. intros (k & Hk & Hcap & _). exists k. split; [lia | exact Hcap]. Qed.

End QueueFacts.

Import QueueFacts.

(** ** Orders, sorted ranges and stable rearrangements *)

Section Order.

Context {A : Type}.
Variable cmp : A -> A -> bool.

Lemma merge_lists_nil_l l : merge_lists cmp [] l = l.
Proof. destruct l; reflexivity. Qed.

Lemma merge_lists_nil_r l : merge_lists cmp l [] = l.
Proof. destruct l; reflexivity. Qed.

Lemma merge_lists_cons x1 l1 x2 l2 :
  merge_lists cmp (x1 :: l1) (x2 :: l2)
  = if cmp x2 x1 then x2 :: merge_lists cmp (x1 :: l1) l2
    else x1 :: merge_lists cmp l1 (x2 :: l2).
Proof. reflexivity. Qed.

Lemma merge_lists_permutation l1 l2 :
  Permutation (merge_lists cmp l1 l2) (l1 ++ l2).
Proof.
  revert l2. induction l1 as [|x1 l1 IH1]; intros l2;
    [now rewrite merge_lists_nil_l |].
  induction l2 as [|x2 l2 IH2].
  - rewrite merge_lists_nil_r, app_nil_r. reflexivity.
  - rewrite merge_lists_cons. destruct (cmp x2 x1).
    + rewrite IH2. apply Permutation_middle.
    + rewrite IH1. reflexivity.
Qed.

Lemma merge_lists_length l1 l2 :
  length (merge_lists cmp l1 l2) = (length l1 + length l2)%nat.
Proof.
  rewrite (Permutation_length (merge_lists_permutation l1 l2)).
  apply length_app.
Qed.

Lemma equivalent_sym x y : equivalent cmp x y = equivalent cmp y x.
Proof. unfold equivalent. apply andb_comm. Qed.

Section StrictWeak.

Hypothesis order : strict_weak_order cmp.

Lemma cmp_asymmetric x y : cmp x y = true -> cmp y x = false.
Proof.
  intros Hxy. destruct (cmp y x) eqn:Hyx; [| reflexivity].
  rewrite <- (swo_irreflexive cmp order x). symmetry.
  exact (swo_transitive cmp order x y x Hxy Hyx).
Qed.

(** Negative transitivity. *)
Lemma not_after_transitive x y z :
  not_after cmp x y -> not_after cmp y z -> not_after cmp x z.
Proof.
  unfold not_after. intros Hyx Hzy.
  destruct (cmp z x) eqn:Hzx; [exfalso | reflexivity].
  destruct (cmp x y) eqn:Hxy.
  - rewrite (swo_transitive cmp order z x y Hzx Hxy) in Hzy. discriminate.
  - destruct (cmp y z) eqn:Hyz.
    + rewrite (swo_transitive cmp order y z x Hyz Hzx) in Hyx. discriminate.
    + assert (E : equivalent cmp z x = true).
      { apply (swo_equivalent_transitive cmp order z y x); unfold equivalent.
        - now rewrite Hzy, Hyz.
        - now rewrite Hyx, Hxy. }
      unfold equivalent in E. rewrite Hzx in E. discriminate.
Qed.

Lemma not_after_total x y : cmp y x = true -> not_after cmp y x.
Proof. apply cmp_asymmetric. Qed.

Lemma before_not_after x y z :
  cmp x y = true -> not_after cmp y z -> cmp x z = true.
Proof.
  intros Hxy Hyz. destruct (cmp x z) eqn:Hxz; [reflexivity | exfalso].
  assert (H : not_after cmp y x)
    by (apply (not_after_transitive y z x); assumption).
  unfold not_after in H. congruence.
Qed.

Lemma sorted_cons_inv x l :
  sorted cmp (x :: l) -> sorted cmp l /\ Forall (not_after cmp x) l.
Proof. apply StronglySorted_inv. Qed.

Lemma Forall_merge_lists (P : A -> Prop) l1 l2 :
  Forall P l1 -> Forall P l2 -> Forall P (merge_lists cmp l1 l2).
Proof.
  intros H1 H2. rewrite (merge_lists_permutation l1 l2).
  apply Forall_app; split; assumption.
Qed.

Lemma merge_lists_sorted l1 l2 :
  sorted cmp l1 -> sorted cmp l2 -> sorted cmp (merge_lists cmp l1 l2).
Proof.
  revert l2. induction l1 as [|x1 l1 IH1]; intros l2 H1 H2;
    [now rewrite merge_lists_nil_l |].
  induction l2 as [|x2 l2 IH2].
  - now rewrite merge_lists_nil_r.
  - destruct (sorted_cons_inv _ _ H1) as [Hs1 Hf1].
    destruct (sorted_cons_inv _ _ H2) as [Hs2 Hf2].
    rewrite merge_lists_cons. destruct (cmp x2 x1) eqn:Hc.
    + constructor; [exact (IH2 Hs2) |].
      apply Forall_merge_lists; [| exact Hf2].
      assert (Hx : not_after cmp x2 x1) by (now apply not_after_total).
      constructor; [exact Hx |].
      eapply List.Forall_impl; [| exact Hf1].
      intros y Hy. now apply (not_after_transitive x2 x1 y).
    + constructor; [exact (IH1 _ Hs1 H2) |].
      apply Forall_merge_lists; [exact Hf1 |].
      constructor; [exact Hc |].
      eapply List.Forall_impl; [| exact Hf2].
      intros y Hy. now apply (not_after_transitive x1 x2 y).
Qed.

Lemma equivalent_trans x y z :
  equivalent cmp x y = true -> equivalent cmp y z = true ->
  equivalent cmp x z = true.
Proof. apply (swo_equivalent_transitive cmp order). Qed.

(** Nothing in a sorted list that starts after [x] is equivalent to an
    equivalent of [x]. *)
Lemma filter_equivalent_after z x l :
  equivalent cmp z x = true -> Forall (fun y => cmp x y = true) l ->
  List.filter (equivalent cmp z) l = [].
Proof.
  intros Hzx Hall. induction Hall as [|y l Hy _ IH]; [reflexivity |].
  simpl. rewrite IH.
  destruct (equivalent cmp z y) eqn:Hzy; [exfalso | reflexivity].
  assert (E : equivalent cmp x y = true).
  { apply (equivalent_trans x z y); [| exact Hzy].
    now rewrite equivalent_sym. }
  unfold equivalent in E. rewrite Hy in E. discriminate.
Qed.

Lemma merge_lists_stable l1 l2 :
  sorted cmp l1 ->
  same_order_of_equivalents cmp (merge_lists cmp l1 l2) (l1 ++ l2).
Proof.
  revert l2. induction l1 as [|x1 l1 IH1]; intros l2 H1 z;
    [now rewrite merge_lists_nil_l |].
  induction l2 as [|x2 l2 IH2].
  - now rewrite merge_lists_nil_r, app_nil_r.
  - destruct (sorted_cons_inv _ _ H1) as [Hs1 Hf1].
    rewrite merge_lists_cons. destruct (cmp x2 x1) eqn:Hc.
    + cbn [List.filter]. rewrite IH2.
      rewrite !List.filter_app. cbn [List.filter].
      destruct (equivalent cmp z x2) eqn:Hz; [| reflexivity].
      assert (Hnil : List.filter (equivalent cmp z) (x1 :: l1) = []).
      { apply (filter_equivalent_after z x2 (x1 :: l1) Hz).
        constructor; [exact Hc |].
        eapply List.Forall_impl; [| exact Hf1].
        intros y Hy. now apply (before_not_after x2 x1 y). }
      cbn [List.filter] in Hnil. rewrite Hnil. reflexivity.
    + cbn [List.filter app]. rewrite (IH1 _ Hs1 z). reflexivity.
Qed.

(** A sorted list is determined by the order of its equivalents. *)
Lemma sorted_stable_unique l1 l2 :
  sorted cmp l1 -> sorted cmp l2 -> same_order_of_equivalents cmp l1 l2 ->
  l1 = l2.
Proof.
  revert l2. induction l1 as [|a l1 IH]; intros l2 H1 H2 Hsame.
  - destruct l2 as [|b l2]; [reflexivity | exfalso].
    specialize (Hsame b). cbn [List.filter] in Hsame.
    assert (E : equivalent cmp b b = true)
      by (unfold equivalent; now rewrite (swo_irreflexive cmp order)).
    rewrite E in Hsame. discriminate.
  - assert (Eaa : equivalent cmp a a = true)
      by (unfold equivalent; now rewrite (swo_irreflexive cmp order)).
    destruct l2 as [|b l2].
    { exfalso. specialize (Hsame a). cbn [List.filter] in Hsame.
      rewrite Eaa in Hsame. discriminate. }
    assert (Ebb : equivalent cmp b b = true)
      by (unfold equivalent; now rewrite (swo_irreflexive cmp order)).
    destruct (sorted_cons_inv _ _ H1) as [Hs1 Hf1].
    destruct (sorted_cons_inv _ _ H2) as [Hs2 Hf2].
    assert (Hba : cmp b a = false).
    { pose proof (Hsame b) as Hb. cbn [List.filter] in Hb. rewrite Ebb in Hb.
      destruct (equivalent cmp b a) eqn:Eba.
      - unfold equivalent in Eba. apply andb_prop in Eba as [Eba _].
        now apply negb_true_iff in Eba.
      - assert (Hin : In b (List.filter (equivalent cmp b) l1))
          by (rewrite Hb; now left).
        apply List.filter_In in Hin as [Hin _].
        rewrite List.Forall_forall in Hf1. apply Hf1. exact Hin. }
    assert (Hab : cmp a b = false).
    { pose proof (Hsame a) as Ha. cbn [List.filter] in Ha. rewrite Eaa in Ha.
      destruct (equivalent cmp a b) eqn:Eab.
      - unfold equivalent in Eab. apply andb_prop in Eab as [Eab _].
        now apply negb_true_iff in Eab.
      - assert (Hin : In a (List.filter (equivalent cmp a) l2))
          by (rewrite <- Ha; now left).
        apply List.filter_In in Hin as [Hin _].
        rewrite List.Forall_forall in Hf2. apply Hf2. exact Hin. }
    assert (Eab : equivalent cmp a b = true)
      by (unfold equivalent; now rewrite Hab, Hba).
    assert (a = b) as <-.
    { pose proof (Hsame a) as Ha. cbn [List.filter] in Ha.
      rewrite Eaa, Eab in Ha. congruence. }
    f_equal. apply IH; [exact Hs1 | exact Hs2 |].
    intros z. pose proof (Hsame z) as Hz. cbn [List.filter] in Hz.
    destruct (equivalent cmp z a); congruence.
Qed.

End StrictWeak.

Lemma same_order_refl l : same_order_of_equivalents cmp l l.
Proof. intros z. reflexivity. Qed.

Lemma same_order_trans l1 l2 l3 :
  same_order_of_equivalents cmp l1 l2 -> same_order_of_equivalents cmp l2 l3 ->
  same_order_of_equivalents cmp l1 l3.
Proof. intros H12 H23 z. now rewrite H12. Qed.

Lemma same_order_app l1 l1' l2 l2' :
  same_order_of_equivalents cmp l1 l1' ->
  same_order_of_equivalents cmp l2 l2' ->
  same_order_of_equivalents cmp (l1 ++ l2) (l1' ++ l2').
Proof. intros H1 H2 z. rewrite !List.filter_app. now rewrite H1, H2. Qed.

End Order.

(** ** The scanner against the runs of its input *)

Section Runs.

Context {A : Type}.
Variable cmp : A -> A -> bool.

Lemma descending_extent_le prev l :
  (descending_extent cmp prev l <= length l)%nat.
Proof.
  revert prev. induction l as [|x l IH]; intros prev; simpl; [lia |].
  destruct (cmp x prev); [specialize (IH x) |]; lia.
Qed.

Lemma ascending_extent_le prev l :
  (ascending_extent cmp prev l <= length l)%nat.
Proof.
  revert prev. induction l as [|x l IH]; intros prev; simpl; [lia |].
  destruct (negb (cmp x prev)); [specialize (IH x) |]; lia.
Qed.

Lemma settle_length run : length (settle cmp run) = length run.
Proof.
  destruct run as [|x [|y run]]; try reflexivity.
  unfold settle. destruct (cmp y x); [apply length_reverse | reflexivity].
Qed.

Lemma lookup_second (pre : list A) p x suf :
  (pre ++ p :: x :: suf) !! S (length pre) = Some x.
Proof.
  replace (pre ++ p :: x :: suf) with ((pre ++ [p]) ++ x :: suf)
    by (now rewrite <- app_assoc).
  replace (S (length pre)) with (length (pre ++ [p]))
    by (rewrite length_app; simpl; lia).
  apply list_lookup_middle. reflexivity.
Qed.

Lemma extend_descending_spec suf :
  forall (fuel : nat) (pre : list A) (p : A) (left : nat),
    (length suf <= fuel)%nat -> left = length pre ->
    extend_descending cmp fuel (pre ++ p :: suf)
      (length (pre ++ p :: suf) - 1) left (S left)
    = Some ((left + descending_extent cmp p suf)%nat,
            (S left + descending_extent cmp p suf)%nat).
Proof.
  induction suf as [|x suf IH]; intros fuel pre p left Hfuel ->.
  - destruct fuel; cbn [extend_descending descending_extent];
      rewrite bool_decide_eq_false_2
        by (rewrite length_app; simpl; lia);
      do 2 f_equal; lia.
  - assert (Hlt : (length pre < length (pre ++ p :: x :: suf) - 1)%nat)
      by (rewrite length_app; simpl; lia).
    assert (Hstep : forall f,
      extend_descending cmp f (pre ++ p :: x :: suf)
        (length (pre ++ p :: x :: suf) - 1) (length pre) (S (length pre))
      = if cmp x p then
          match f with
          | O => None
          | S f' =>
              extend_descending cmp f' (pre ++ p :: x :: suf)
                (length (pre ++ p :: x :: suf) - 1)
                (S (length pre)) (S (S (length pre)))
          end
        else Some (length pre, S (length pre))).
    { intros f. destruct f; cbn [extend_descending];
        rewrite (bool_decide_eq_true_2 _ Hlt), lookup_second,
          (list_lookup_middle pre (x :: suf) p (length pre) eq_refl);
        reflexivity. }
    rewrite Hstep. cbn [descending_extent].
    destruct (cmp x p).
    + destruct fuel as [|fuel]; [simpl in Hfuel; lia |].
      replace (pre ++ p :: x :: suf) with ((pre ++ [p]) ++ x :: suf)
        by (now rewrite <- app_assoc).
      rewrite (IH fuel (pre ++ [p]) x (S (length pre)));
        [do 2 f_equal; lia | simpl in Hfuel; lia |
         rewrite length_app; simpl; lia].
    + do 2 f_equal; lia.
Qed.

Lemma extend_ascending_spec suf :
  forall (fuel : nat) (pre : list A) (p : A) (left : nat),
    (length suf <= fuel)%nat -> left = length pre ->
    extend_ascending cmp fuel (pre ++ p :: suf)
      (length (pre ++ p :: suf) - 1) left (S left)
    = Some ((left + ascending_extent cmp p suf)%nat,
            (S left + ascending_extent cmp p suf)%nat).
Proof.
  induction suf as [|x suf IH]; intros fuel pre p left Hfuel ->.
  - destruct fuel; cbn [extend_ascending ascending_extent];
      rewrite bool_decide_eq_false_2
        by (rewrite length_app; simpl; lia);
      do 2 f_equal; lia.
  - assert (Hlt : (length pre < length (pre ++ p :: x :: suf) - 1)%nat)
      by (rewrite length_app; simpl; lia).
    assert (Hstep : forall f,
      extend_ascending cmp f (pre ++ p :: x :: suf)
        (length (pre ++ p :: x :: suf) - 1) (length pre) (S (length pre))
      = if negb (cmp x p) then
          match f with
          | O => None
          | S f' =>
              extend_ascending cmp f' (pre ++ p :: x :: suf)
                (length (pre ++ p :: x :: suf) - 1)
                (S (length pre)) (S (S (length pre)))
          end
        else Some (length pre, S (length pre))).
    { intros f. destruct f; cbn [extend_ascending];
        rewrite (bool_decide_eq_true_2 _ Hlt), lookup_second,
          (list_lookup_middle pre (x :: suf) p (length pre) eq_refl);
        reflexivity. }
    rewrite Hstep. cbn [ascending_extent].
    destruct (negb (cmp x p)).
    + destruct fuel as [|fuel]; [simpl in Hfuel; lia |].
      replace (pre ++ p :: x :: suf) with ((pre ++ [p]) ++ x :: suf)
        by (now rewrite <- app_assoc).
      rewrite (IH fuel (pre ++ [p]) x (S (length pre)));
        [do 2 f_equal; lia | simpl in Hfuel; lia |
         rewrite length_app; simpl; lia].
    + do 2 f_equal; lia.
Qed.

Lemma take_drop_middle_run (pre : list A) x y rest k :
  (k <= length rest)%nat ->
  take (length pre) (pre ++ x :: y :: rest) = pre /\
  take (S (S (length pre)) + k - length pre)
    (drop (length pre) (pre ++ x :: y :: rest)) = x :: y :: take k rest /\
  drop (S (S (length pre)) + k) (pre ++ x :: y :: rest) = drop k rest.
Proof.
  intros Hk. split; [| split].
  - now rewrite take_app_length.
  - rewrite drop_app_length.
    replace (S (S (length pre)) + k - length pre)%nat with (S (S k)) by lia.
    reflexivity.
  - replace (S (S (length pre)) + k)%nat with (length pre + S (S k))%nat by lia.
    rewrite <- drop_drop, drop_app_length. reflexivity.
Qed.

Lemma scan_run_spec pre x y rest q :
  Z.of_nat (length (pre ++ x :: y :: rest)) < 2 ^ size_t_bits ->
  queue_ok q -> m_size q < capacity q ->
  let k := if cmp y x then descending_extent cmp y rest
           else ascending_extent cmp y rest in
  let run := x :: y :: take k rest in
  exists q',
    scan_run cmp (length (pre ++ x :: y :: rest) - 1)
      (mkScanner (pre ++ x :: y :: rest) q (length pre) (S (length pre)))
    = Some (mkScanner (pre ++ settle cmp run ++ drop k rest) q'
              (length pre + length run) (S (length pre + length run)))
    /\ queue_ok q' /\ contents q' = contents q ++ [Z.of_nat (length run)]
    /\ capacity q' = capacity q /\ size q' = size q + 1.
Proof.
  intros Hlen Hok Hroom k run.
  assert (Hk : (k <= length rest)%nat).
  { subst k. destruct (cmp y x);
      [apply descending_extent_le | apply ascending_extent_le]. }
  assert (Hrun : length run = S (S k)).
  { subst run. simpl. rewrite length_take. lia. }
  assert (Hn : length (pre ++ x :: y :: rest)
               = (length pre + S (S (length rest)))%nat)
    by (rewrite length_app; reflexivity).
  destruct (enqueue_spec q (Z.of_nat (length run)) Hok Hroom)
    as (q' & Henq & Hok' & Hcont & Hcap & Hsz).
  exists q'. split; [| auto].
  unfold scan_run. cbn [sc_array sc_left sc_right sc_queue].
  rewrite lookup_second,
    (list_lookup_middle pre (y :: rest) x (length pre) eq_refl).
  cbn [mbind option_bind].
  destruct (take_drop_middle_run pre x y rest k Hk) as (Htake & Hmid & Hdrop).
  unfold settle. subst run. fold k.
  destruct (cmp y x) eqn:Hc.
  - replace (pre ++ x :: y :: rest) with ((pre ++ [x]) ++ y :: rest)
      by (now rewrite <- app_assoc).
    rewrite (extend_descending_spec rest _ (pre ++ [x]) y (S (length pre)));
      [| rewrite length_app; simpl; lia | rewrite length_app; simpl; lia].
    fold k. cbn [mbind option_bind].
    replace (wrap (Z.of_nat (S (S (length pre)) + k) - Z.of_nat (length pre)))
      with (Z.of_nat (length (x :: y :: take k rest))).
    2:{ rewrite Hrun, wrap_small; [lia |]. rewrite Hn in Hlen. size_t_bounds. }
    rewrite Henq. cbn [mbind option_bind].
    replace ((pre ++ [x]) ++ y :: rest) with (pre ++ x :: y :: rest)
      by (now rewrite <- app_assoc).
    unfold std_reverse.
    rewrite option_guard_True by (rewrite Hn; lia).
    cbn [mbind option_bind].
    rewrite Htake, Hmid, Hdrop, Hrun, ?Hc. f_equal. f_equal; lia.
  - replace (pre ++ x :: y :: rest) with ((pre ++ [x]) ++ y :: rest)
      by (now rewrite <- app_assoc).
    rewrite (extend_ascending_spec rest _ (pre ++ [x]) y (S (length pre)));
      [| rewrite length_app; simpl; lia | rewrite length_app; simpl; lia].
    fold k. cbn [mbind option_bind].
    replace (wrap (Z.of_nat (S (length pre) + k) - Z.of_nat (length pre) + 1))
      with (Z.of_nat (length (x :: y :: take k rest))).
    2:{ rewrite Hrun, wrap_small; [lia |]. rewrite Hn in Hlen. size_t_bounds. }
    rewrite Henq. cbn [mbind option_bind].
    replace ((pre ++ [x]) ++ y :: rest) with (pre ++ x :: y :: rest)
      by (now rewrite <- app_assoc).
    rewrite Hrun, ?Hc. rewrite <- (take_drop k rest) at 1.
    f_equal. f_equal; lia.
Qed.

(** The outer loop and the orphan test after it, started in front of
    [rest] with room in the queue for a length per two elements of [rest]
    and one more. *)
Lemma scan_loop_spec (fuel : nat) :
  forall (pre rest : list A) (q : UnsafeIntQueue),
    (1 <= length (pre ++ rest))%nat ->
    Z.of_nat (length (pre ++ rest)) < 2 ^ size_t_bits ->
    queue_ok q ->
    m_size q + (Z.of_nat (length rest) + 1) / 2 <= capacity q ->
    (length rest <= fuel)%nat ->
    exists s' q',
      scan_loop cmp fuel (length (pre ++ rest) - 1)
        (mkScanner (pre ++ rest) q (length pre) (S (length pre))) = Some s'
      /\ (if bool_decide (sc_left s' = (length (pre ++ rest) - 1)%nat)
          then enqueue_in_contract (sc_queue s') 1
          else Some (sc_queue s')) = Some q'
      /\ sc_array s'
         = pre ++ concat (map (settle cmp) (runs_with cmp fuel rest))
      /\ queue_ok q'
      /\ contents q' = contents q ++ run_lengths (runs_with cmp fuel rest)
      /\ capacity q' = capacity q.
Proof.
  induction fuel as [|fuel IH]; intros pre rest q Hne Hlen Hok Hroom Hfuel.
  - destruct rest as [|? ?]; [| simpl in Hfuel; lia].
    rewrite app_nil_r in *.
    exists (mkScanner pre q (length pre) (S (length pre))), q.
    cbn [scan_loop sc_left sc_queue sc_array runs_with map concat run_lengths].
    rewrite !bool_decide_eq_false_2 by lia.
    rewrite ?app_nil_r. repeat split; auto.
  - destruct rest as [|x [|y rest]].
    + rewrite app_nil_r in *.
      exists (mkScanner pre q (length pre) (S (length pre))), q.
      cbn [scan_loop sc_left sc_queue sc_array runs_with map concat
             run_lengths].
      rewrite !bool_decide_eq_false_2 by lia.
      rewrite ?app_nil_r. repeat split; auto.
    + assert (Hn : length (pre ++ [x]) = S (length pre))
        by (rewrite length_app; simpl; lia).
      destruct (enqueue_spec q 1 Hok) as (q' & Henq & Hok' & Hcont & Hcap & _).
      { change ((Z.of_nat (length [x]) + 1) / 2) with 1 in Hroom. lia. }
      exists (mkScanner (pre ++ [x]) q (length pre) (S (length pre))), q'.
      cbn [scan_loop sc_left sc_queue sc_array runs_with map concat
             run_lengths].
      rewrite bool_decide_eq_false_2 by lia.
      rewrite bool_decide_eq_true_2 by lia.
      cbn [settle app length]. repeat split; auto.
    + set (k := if cmp y x then descending_extent cmp y rest
                else ascending_extent cmp y rest).
      set (run := x :: y :: take k rest).
      assert (Hk : (k <= length rest)%nat).
      { subst k. destruct (cmp y x);
          [apply descending_extent_le | apply ascending_extent_le]. }
      assert (Hrun : length run = S (S k)).
      { subst run. simpl. rewrite length_take. lia. }
      assert (Hn : length (pre ++ x :: y :: rest)
                   = (length pre + S (S (length rest)))%nat)
        by (rewrite length_app; reflexivity).
      assert (Hhalf : 1 + (Z.of_nat (length (drop k rest)) + 1) / 2
                      <= (Z.of_nat (length (x :: y :: rest)) + 1) / 2).
      { rewrite length_drop. cbn [length].
        replace (Z.of_nat (S (S (length rest))) + 1)
          with (Z.of_nat (length rest) + 1 + 1 * 2) by lia.
        rewrite Z.div_add by lia.
        assert ((Z.of_nat (length rest - k) + 1) / 2
                <= (Z.of_nat (length rest) + 1) / 2)
          by (apply Z.div_le_mono; lia).
        lia. }
      assert (Hpos : 0 <= (Z.of_nat (length (drop k rest)) + 1) / 2)
        by (apply Z.div_pos; lia).
      destruct (scan_run_spec pre x y rest q Hlen Hok)
        as (q1 & Hstep & Hok1 & Hcont1 & Hcap1 & Hsz1); [lia |].
      fold k run in Hstep, Hcont1.
      assert (Hsame : length ((pre ++ settle cmp run) ++ drop k rest)
                      = length (pre ++ x :: y :: rest)).
      { rewrite !length_app, settle_length, Hrun, length_drop. simpl. lia. }
      destruct (IH (pre ++ settle cmp run) (drop k rest) q1)
        as (s' & q' & Hloop & Horphan & Harr & Hok' & Hcont' & Hcap').
      * rewrite Hsame. exact Hne.
      * rewrite Hsame. exact Hlen.
      * exact Hok1.
      * unfold size in Hsz1. rewrite Hsz1, Hcap1. lia.
      * rewrite length_drop. simpl in Hfuel. lia.
      * rewrite Hsame in Hloop, Horphan.
        exists s', q'.
        cbn [scan_loop sc_left].
        rewrite bool_decide_eq_true_2 by (rewrite Hn; lia).
        rewrite Hstep. cbn [mbind option_bind].
        replace (pre ++ settle cmp run ++ drop k rest)
          with ((pre ++ settle cmp run) ++ drop k rest)
          by (now rewrite <- app_assoc).
        replace (length pre + length run)%nat
          with (length (pre ++ settle cmp run))
          by (rewrite length_app, settle_length; reflexivity).
        split; [exact Hloop |]. split; [exact Horphan |].
        cbn [runs_with]. fold k run.
        cbn [map concat run_lengths].
        split; [rewrite Harr, <- app_assoc; reflexivity |].
        split; [exact Hok' |].
        split; [| congruence].
        rewrite Hcont', Hcont1, <- app_assoc. reflexivity.
Qed.

Lemma build_run_size_queue_spec (arr : list A) :
  (1 <= length arr)%nat -> Z.of_nat (length arr) < 2 ^ size_t_bits ->
  exists q,
    build_run_size_queue cmp arr
    = Some (concat (map (settle cmp) (runs_of cmp arr)), q)
    /\ queue_ok q
    /\ contents q = run_lengths (runs_of cmp arr)
    /\ Z.of_nat (length arr) / 2 + 1 <= capacity q.
Proof.
  intros Hne Hlen. unfold build_run_size_queue.
  assert (Hhalf : 0 <= Z.of_nat (length arr) / 2 < 2 ^ 63).
  { split; [apply Z.div_pos; lia |].
    apply Z.div_lt_upper_bound; [lia |]. exact Hlen. }
  change (2 ^ 63) with 9223372036854775808 in Hhalf.
  rewrite (wrap_small (Z.of_nat (length arr))) by size_t_bounds.
  rewrite (wrap_small (Z.of_nat (length arr) / 2 + 1)) by size_t_bounds.
  destruct (create_spec (Z.of_nat (length arr) / 2 + 1))
    as (q0 & -> & Hok0 & Hcont0 & Hcap0 & _);
    [change (2 ^ 63) with 9223372036854775808; lia |].
  cbn [mbind option_bind].
  rewrite option_guard_True by exact Hne. cbn [mbind option_bind].
  assert (Hsize0 : m_size q0 = 0).
  { pose proof (queue_ok_size q0 Hok0) as Hs.
    rewrite size_contents, Hcont0 in Hs by (unfold size in Hs; lia).
    pose proof (size_contents q0) as Hs'. rewrite Hcont0 in Hs'.
    unfold size in Hs'. simpl in Hs'. apply Hs'.
    destruct Hok0 as (k & _ & _ & _ & _ & Hsz & _). lia. }
  destruct (scan_loop_spec (length arr) [] arr q0)
    as (s' & q' & Hloop & Horphan & Harr & Hok' & Hcont' & Hcap');
    try assumption; [| lia |].
  - rewrite Hsize0.
    assert ((Z.of_nat (length arr) + 1) / 2 <= Z.of_nat (length arr) / 2 + 1).
    { replace (Z.of_nat (length arr) / 2 + 1)
        with ((Z.of_nat (length arr) + 1 * 2) / 2) by (rewrite Z.div_add; lia).
      apply Z.div_le_mono; lia. }
    lia.
  - cbn [app length] in Hloop, Horphan, Harr.
    rewrite Hloop. cbn [mbind option_bind].
    rewrite Horphan. cbn [mbind option_bind].
    exists q'. rewrite Harr. split; [reflexivity |].
    split; [exact Hok' |]. split; [now rewrite Hcont', Hcont0 | lia].
Qed.

(** *** What the runs are *)

Lemma descending_extent_run p l :
  descending_run cmp (p :: take (descending_extent cmp p l) l).
Proof.
  revert p. induction l as [|x l IH]; intros p; cbn [descending_extent].
  - repeat constructor.
  - destruct (cmp x p) eqn:Hc; cbn [take].
    + constructor; [apply IH | constructor; exact Hc].
    + repeat constructor.
Qed.

Lemma ascending_extent_run p l :
  ascending_run cmp (p :: take (ascending_extent cmp p l) l).
Proof.
  revert p. induction l as [|x l IH]; intros p; cbn [ascending_extent].
  - repeat constructor.
  - destruct (cmp x p) eqn:Hc; cbn [negb take].
    + repeat constructor.
    + constructor; [apply IH | constructor; exact Hc].
Qed.

Lemma runs_with_concat fuel :
  forall l, (length l <= fuel)%nat -> concat (runs_with cmp fuel l) = l.
Proof.
  induction fuel as [|fuel IH]; intros l Hfuel.
  - destruct l; [reflexivity | simpl in Hfuel; lia].
  - destruct l as [|x [|y rest]]; try reflexivity.
    cbn [runs_with concat]. rewrite IH.
    + cbn [app]. now rewrite take_drop.
    + rewrite length_drop. simpl in Hfuel. lia.
Qed.

Lemma runs_with_is_run fuel :
  forall l, Forall (is_run cmp) (runs_with cmp fuel l).
Proof.
  induction fuel as [|fuel IH]; intros l; [constructor |].
  destruct l as [|x [|y rest]]; cbn [runs_with].
  - constructor.
  - repeat constructor.
  - constructor; [| apply IH].
    unfold is_run. destruct (cmp y x) eqn:Hc.
    + constructor; [apply descending_extent_run | constructor; exact Hc].
    + constructor; [apply ascending_extent_run | constructor; exact Hc].
Qed.

Lemma runs_with_count fuel :
  forall l,
    Z.of_nat (length (runs_with cmp fuel l)) <= (Z.of_nat (length l) + 1) / 2.
Proof.
  induction fuel as [|fuel IH]; intros l.
  - simpl. apply Z.div_pos; lia.
  - destruct l as [|x [|y rest]]; cbn [runs_with].
    + simpl. apply Z.div_pos; lia.
    + reflexivity.
    + set (k := if cmp y x then descending_extent cmp y rest
                else ascending_extent cmp y rest).
      specialize (IH (drop k rest)). rewrite length_drop in IH.
      cbn [length].
      replace (Z.of_nat (S (S (length rest))) + 1)
        with (Z.of_nat (length rest) + 1 + 1 * 2) by lia.
      rewrite Z.div_add by lia.
      assert ((Z.of_nat (length rest - k) + 1) / 2
              <= (Z.of_nat (length rest) + 1) / 2)
        by (apply Z.div_le_mono; lia).
      lia.
Qed.

Lemma run_lengths_sum (runs : list (list A)) :
  fold_right Z.add 0 (run_lengths runs) = Z.of_nat (length (concat runs)).
Proof.
  induction runs as [|run runs IH]; [reflexivity |].
  cbn [run_lengths map fold_right concat]. rewrite length_app.
  unfold run_lengths in IH. lia.
Qed.

Lemma settle_permutation run : Permutation (settle cmp run) run.
Proof.
  destruct run as [|x [|y run]]; try reflexivity.
  unfold settle. destruct (cmp y x); [apply reverse_Permutation | reflexivity].
Qed.

Lemma concat_settle_permutation (runs : list (list A)) :
  Permutation (concat (map (settle cmp) runs)) (concat runs).
Proof.
  induction runs as [|run runs IH]; [reflexivity |].
  cbn [map concat]. now rewrite settle_permutation, IH.
Qed.

Lemma concat_settle_length (runs : list (list A)) :
  length (concat (map (settle cmp) runs)) = length (concat runs).
Proof. apply Permutation_length, concat_settle_permutation. Qed.

Lemma StronglySorted_weaken (R S : A -> A -> Prop) l :
  (forall x y, R x y -> S x y) -> StronglySorted R l -> StronglySorted S l.
Proof.
  intros Himp. induction 1 as [|x l Hs IH Hall]; constructor; [exact IH |].
  eapply List.Forall_impl; [| exact Hall]. intros y. apply Himp.
Qed.

Section RunsUnderOrder.

Hypothesis order : strict_weak_order cmp.

Lemma ascending_run_sorted run : ascending_run cmp run -> sorted cmp run.
Proof.
  apply Sorted.Sorted_StronglySorted.
  intros x y z Hxy Hyz. exact (not_after_transitive cmp order x y z Hxy Hyz).
Qed.

Lemma descending_run_settles run :
  descending_run cmp run -> sorted cmp (reverse run).
Proof.
  intros Hrun. apply StronglySorted_weaken with (fun x y => cmp x y = true).
  - intros x y. apply (cmp_asymmetric cmp order).
  - apply Sorted.Sorted_StronglySorted.
    + intros x y z. apply (swo_transitive cmp order).
    + apply (Sorted_reverse _ _ Hrun).
Qed.

(** No two elements of a strictly descending run are equivalent. *)
Lemma descending_run_classes run z :
  descending_run cmp run ->
  (length (List.filter (equivalent cmp z) run) <= 1)%nat.
Proof.
  intros Hrun.
  assert (Hstrong : StronglySorted (fun x y => cmp y x = true) run).
  { apply Sorted.Sorted_StronglySorted; [| exact Hrun].
    intros x y w Hyx Hwy. exact (swo_transitive cmp order w y x Hwy Hyx). }
  clear Hrun. induction Hstrong as [|x l Hs IH Hall]; [simpl; lia |].
  cbn [List.filter]. destruct (equivalent cmp z x) eqn:Hz; [| exact IH].
  assert (Hnil : List.filter (equivalent cmp z) l = []).
  { clear IH Hs. induction Hall as [|y l Hy _ IH]; [reflexivity |].
    cbn [List.filter]. rewrite IH.
    destruct (equivalent cmp z y) eqn:Hzy; [exfalso | reflexivity].
    assert (E : equivalent cmp y x = true).
    { apply (equivalent_trans cmp order y z x); [| exact Hz].
      now rewrite equivalent_sym. }
    unfold equivalent in E. rewrite Hy in E. discriminate. }
  rewrite Hnil. simpl. lia.
Qed.

Lemma descending_run_reverse_stable run :
  descending_run cmp run -> same_order_of_equivalents cmp (reverse run) run.
Proof.
  intros Hrun z. pose proof (descending_run_classes run z Hrun) as Hshort.
  unfold reverse. rewrite <- rev_alt, List.filter_rev.
  destruct (List.filter (equivalent cmp z) run) as [|a [|b l]];
    [reflexivity | reflexivity | simpl in Hshort; lia].
Qed.

Lemma settle_sorted run : is_run cmp run -> sorted cmp (settle cmp run).
Proof.
  destruct run as [|x [|y run]]; [intros [] | repeat constructor |].
  unfold is_run, settle. destruct (cmp y x).
  - apply descending_run_settles.
  - apply ascending_run_sorted.
Qed.

Lemma settle_stable run :
  is_run cmp run -> same_order_of_equivalents cmp (settle cmp run) run.
Proof.
  destruct run as [|x [|y run]]; [intros [] | intros _ z; reflexivity |].
  unfold is_run, settle. destruct (cmp y x).
  - apply descending_run_reverse_stable.
  - intros _ z. reflexivity.
Qed.

Lemma concat_settle_stable (runs : list (list A)) :
  Forall (is_run cmp) runs ->
  same_order_of_equivalents cmp (concat (map (settle cmp) runs)) (concat runs).
Proof.
  induction 1 as [|run runs Hrun _ IH]; [apply same_order_refl |].
  cbn [map concat]. apply same_order_app; [now apply settle_stable | exact IH].
Qed.

Lemma map_settle_sorted (runs : list (list A)) :
  Forall (is_run cmp) runs -> Forall (sorted cmp) (map (settle cmp) runs).
Proof.
  induction 1 as [|run runs Hrun _ IH]; constructor;
    [now apply settle_sorted | exact IH].
Qed.

End RunsUnderOrder.

End Runs.

(** ** The scheduler against bottom-up merging of a list of runs *)

Section Passes.

Context {A : Type}.
Variable cmp : A -> A -> bool.

Lemma merge_pairs_length (runs : list (list A)) :
  Z.of_nat (length (merge_pairs cmp runs)) = (Z.of_nat (length runs) + 1) / 2.
Proof.
  induction runs as [runs IH] using (induction_ltof1 _ (@length _)).
  unfold ltof in IH.
  destruct runs as [|a [|b rest]]; try reflexivity.
  cbn [merge_pairs length]. rewrite Nat2Z.inj_succ, IH by (simpl; lia).
  replace (Z.of_nat (S (S (length rest))) + 1)
    with (Z.of_nat (length rest) + 1 + 1 * 2) by lia.
  rewrite Z.div_add by lia. lia.
Qed.

Lemma merge_pairs_concat_permutation (runs : list (list A)) :
  Permutation (concat (merge_pairs cmp runs)) (concat runs).
Proof.
  induction runs as [runs IH] using (induction_ltof1 _ (@length _)).
  unfold ltof in IH.
  destruct runs as [|a [|b rest]]; try reflexivity.
  cbn [merge_pairs concat].
  rewrite merge_lists_permutation, IH by (simpl; lia).
  now rewrite <- app_assoc.
Qed.

Lemma merge_pairs_concat_length (runs : list (list A)) :
  length (concat (merge_pairs cmp runs)) = length (concat runs).
Proof. apply Permutation_length, merge_pairs_concat_permutation. Qed.

Lemma log2_up_half n :
  2 <= n -> Z.log2_up ((n + 1) / 2) = Z.log2_up n - 1.
Proof.
  intros Hn.
  assert (Hhalf : 1 <= (n + 1) / 2).
  { apply Z.div_le_lower_bound; lia. }
  pose proof (Z.log2_up_nonneg n) as Hnn.
  assert (Hpos : 0 < Z.log2_up n) by (apply Z.log2_up_pos; lia).
  destruct (Z.log2_up_spec n) as [Hlo Hhi]; [lia |].
  destruct (Z.eq_dec ((n + 1) / 2) 1) as [E|E].
  - rewrite E. change (Z.log2_up 1) with 0.
    assert (n <= 2).
    { destruct (Z_le_dec n 2); [assumption | exfalso].
      assert (2 <= (n + 1) / 2) by (apply Z.div_le_lower_bound; lia). lia. }
    replace n with 2 by lia. reflexivity.
  - assert (Hn3 : 3 <= n).
    { destruct (Z_le_dec 3 n); [assumption | exfalso].
      apply E. replace n with 2 by lia. reflexivity. }
    assert (Hne1 : Z.log2_up n <> 1).
    { intros E1. rewrite E1 in Hhi. simpl in Hhi. lia. }
    apply Z.log2_up_unique; [lia |].
    replace (Z.pred (Z.log2_up n - 1))
      with (Z.pred (Z.pred (Z.log2_up n))) by lia.
    set (p := Z.pred (Z.log2_up n)) in *.
    assert (Hp : 0 <= p) by lia.
    replace (Z.log2_up n) with (p + 1) in Hhi by lia.
    rewrite Z.pow_add_r, Z.pow_1_r in Hhi by lia.
    replace (Z.log2_up n - 1) with p by lia.
    split.
    + assert (Hp1 : 1 <= p).
      { destruct (Z.eq_dec p 0) as [Ep|Ep]; [| lia].
        rewrite Ep in Hhi. simpl in Hhi.
        exfalso. apply E. replace n with 2 by lia. reflexivity. }
      replace p with (Z.pred p + 1) in Hlo by lia.
      rewrite Z.pow_add_r, Z.pow_1_r in Hlo by lia.
      assert (2 ^ Z.pred p + 1 <= (n + 1) / 2)
        by (apply Z.div_le_lower_bound; lia).
      lia.
    + assert (Htop : (2 ^ p * 2 + 1) / 2 = 2 ^ p).
      { rewrite Z.add_comm, Z.div_add by lia. change (1 / 2) with 0. lia. }
      rewrite <- Htop. apply Z.div_le_mono; lia.
Qed.

Lemma passes_for_merge_pairs (runs : list (list A)) :
  (2 <= length runs)%nat ->
  passes_for runs = S (passes_for (merge_pairs cmp runs)).
Proof.
  intros H. unfold passes_for.
  rewrite merge_pairs_length, log2_up_half by lia.
  assert (0 < Z.log2_up (Z.of_nat (length runs)))
    by (apply Z.log2_up_pos; lia).
  lia.
Qed.

Lemma merge_all_merge_pairs (runs : list (list A)) :
  (2 <= length runs)%nat ->
  merge_all cmp (merge_pairs cmp runs) = merge_all cmp runs.
Proof.
  intros H. unfold merge_all. rewrite (passes_for_merge_pairs runs H).
  now rewrite Nat.iter_succ_r.
Qed.

Lemma merge_all_short (runs : list (list A)) :
  (length runs <= 1)%nat -> merge_all cmp runs = runs.
Proof.
  intros H. unfold merge_all, passes_for.
  destruct runs as [|a [|b rest]];
    [reflexivity | reflexivity | simpl in H; lia].
Qed.

(** After its passes the list of runs has one run, none if it was empty. *)
Lemma merge_all_length (runs : list (list A)) :
  (length (merge_all cmp runs) <= 1)%nat.
Proof.
  induction runs as [runs IH] using (induction_ltof1 _ (@length _)).
  unfold ltof in IH.
  destruct (le_lt_dec (length runs) 1) as [Hshort|Hlong].
  - now rewrite merge_all_short.
  - rewrite <- merge_all_merge_pairs by lia. apply IH.
    pose proof (merge_pairs_length runs) as Hlen.
    assert ((Z.of_nat (length runs) + 1) / 2 < Z.of_nat (length runs))
      by (apply Z.div_lt_upper_bound; lia).
    lia.
Qed.

(** *** Ranges *)

Lemma range_of_drop (mem : list A) (from to : Z) (data rest : list A) :
  0 <= from <= Z.of_nat (length mem) ->
  drop (Z.to_nat from) mem = data ++ rest ->
  to = from + Z.of_nat (length data) ->
  range mem from to = Some data.
Proof.
  intros Hfrom Hdrop ->. unfold range.
  assert (Hlen : length (drop (Z.to_nat from) mem)
                 = (length data + length rest)%nat)
    by (rewrite Hdrop; apply length_app).
  rewrite length_drop in Hlen.
  rewrite option_guard_True by lia. cbn [mbind option_bind].
  rewrite Hdrop.
  replace (Z.to_nat (from + Z.of_nat (length data) - from))
    with (length data) by lia.
  now rewrite take_app_length.
Qed.

Lemma range_whole (mem : list A) :
  range mem 0 (Z.of_nat (length mem)) = Some mem.
Proof.
  apply (range_of_drop mem 0 _ mem []); [lia | | lia].
  now rewrite app_nil_r.
Qed.

Lemma store_spec (mem : list A) (pos : Z) (data : list A) :
  0 <= pos -> pos + Z.of_nat (length data) <= Z.of_nat (length mem) ->
  store mem pos data = Some (stored mem (Z.to_nat pos) data).
Proof.
  intros H0 H. unfold store. now rewrite option_guard_True by lia.
Qed.

Lemma stored_length (mem : list A) pos data :
  (pos + length data <= length mem)%nat ->
  length (stored mem pos data) = length mem.
Proof.
  intros H. unfold stored.
  rewrite !length_app, length_take, length_drop. lia.
Qed.

Lemma stored_take (mem : list A) pos data :
  (pos + length data <= length mem)%nat ->
  take (pos + length data) (stored mem pos data) = take pos mem ++ data.
Proof.
  intros H. unfold stored. rewrite app_assoc.
  rewrite take_app_length'; [reflexivity |].
  rewrite length_app, length_take. lia.
Qed.

Lemma stored_whole (mem : list A) data :
  length data = length mem -> stored mem 0 data = data.
Proof.
  intros H. unfold stored. cbn [take app Nat.add].
  rewrite drop_ge by lia. apply app_nil_r.
Qed.

(** *** Two pointers, two arrays *)

Lemma pointee_write_same (s : @scheduler A) p mem :
  pointee (write_through s p mem) p = mem.
Proof. destruct p; reflexivity. Qed.

Lemma pointee_write_other (s : @scheduler A) p p' mem :
  p <> p' -> pointee (write_through s p mem) p' = pointee s p'.
Proof. destruct p, p'; intros H; try reflexivity; contradiction. Qed.

Lemma write_through_fields (s : @scheduler A) p mem :
  source (write_through s p mem) = source s /\
  target (write_through s p mem) = target s /\
  p_queue (write_through s p mem) = p_queue s /\
  runs_left (write_through s p mem) = runs_left s /\
  offset (write_through s p mem) = offset s.
Proof. destruct p; repeat split. Qed.

Lemma pointee_finish_pass (s : @scheduler A) q p :
  pointee (finish_pass s q) p = pointee s p.
Proof. destruct p; reflexivity. Qed.

Lemma other_role (p p' : buffer_role) :
  p <> p' -> (p' = Input <-> p <> Input).
Proof. destruct p, p'; intros H; split; intros H'; congruence. Qed.

Lemma run_lengths_app (l1 l2 : list (list A)) :
  run_lengths (l1 ++ l2) = run_lengths l1 ++ run_lengths l2.
Proof. apply map_app. Qed.

Lemma run_lengths_length (l : list (list A)) :
  length (run_lengths l) = length l.
Proof. apply length_map. Qed.

(** The two reads and the write of a merge, [o] elements into the
    arrays. *)
Lemma std_merge_spec (src dst a b rest : list A) (o : nat) :
  (o <= length src)%nat -> length dst = length src ->
  drop o src = a ++ b ++ rest ->
  std_merge cmp src (Z.of_nat o) (Z.of_nat o + Z.of_nat (length a))
    (Z.of_nat o + Z.of_nat (length a))
    (Z.of_nat o + Z.of_nat (length a) + Z.of_nat (length b))
    dst (Z.of_nat o)
  = Some (stored dst o (merge_lists cmp a b))
  /\ (o + length (merge_lists cmp a b) <= length dst)%nat.
Proof.
  intros Ho Hlen Hdrop.
  assert (Hsize : (length src - o = length a + (length b + length rest))%nat).
  { rewrite <- length_drop, Hdrop, !length_app. reflexivity. }
  unfold std_merge.
  rewrite (range_of_drop src (Z.of_nat o) _ a (b ++ rest));
    [| lia | now rewrite Nat2Z.id | reflexivity].
  cbn [mbind option_bind].
  rewrite (range_of_drop src (Z.of_nat o + Z.of_nat (length a)) _ b rest);
    [| lia | | reflexivity].
  2:{ replace (Z.to_nat (Z.of_nat o + Z.of_nat (length a)))
        with (o + length a)%nat by lia.
      rewrite <- drop_drop, Hdrop, drop_app_length. reflexivity. }
  cbn [mbind option_bind].
  rewrite store_spec, Nat2Z.id by (rewrite ?merge_lists_length; lia).
  split; [reflexivity |]. rewrite merge_lists_length. lia.
Qed.

Lemma std_copy_spec (src dst data rest : list A) (o : nat) :
  (o <= length src)%nat -> length dst = length src ->
  drop o src = data ++ rest ->
  std_copy src (Z.of_nat o) (Z.of_nat o + Z.of_nat (length data))
    dst (Z.of_nat o)
  = Some (stored dst o data).
Proof.
  intros Ho Hlen Hdrop.
  assert (Hsize : (length src - o = length data + length rest)%nat).
  { rewrite <- length_drop, Hdrop, !length_app. reflexivity. }
  unfold std_copy.
  rewrite (range_of_drop src (Z.of_nat o) _ data rest);
    [| lia | now rewrite Nat2Z.id | reflexivity].
  cbn [mbind option_bind].
  now rewrite store_spec, Nat2Z.id by lia.
Qed.

Lemma concat_snoc (l : list (list A)) (x : list A) :
  concat (l ++ [x]) = concat l ++ x.
Proof. rewrite concat_app. cbn [concat]. now rewrite app_nil_r. Qed.

Lemma parity_after_pass (runs0 : list (list A)) (src tgt : buffer_role) :
  src <> tgt -> (2 <= length runs0)%nat ->
  (src = Input <-> Z.even (Z.log2_up (Z.of_nat (length runs0))) = true) ->
  (tgt = Input
   <-> Z.even (Z.log2_up (Z.of_nat (length (merge_pairs cmp runs0)))) = true).
Proof.
  intros Hne Hlen Hsrc.
  rewrite merge_pairs_length, log2_up_half by lia.
  rewrite Z.sub_1_r, Z.even_pred, <- Z.negb_even.
  rewrite (other_role src tgt Hne), Hsrc.
  destruct (Z.even (Z.log2_up (Z.of_nat (length runs0)))); simpl;
    split; congruence.
Qed.

Lemma pointee_rebuilt (s : @scheduler A) q r o p :
  pointee
    (mkScheduler (input_range s) (scratch_range s) (source s) (target s)
       q r o) p
  = pointee s p.
Proof. destruct p; reflexivity. Qed.

(** One round of the loop keeps the invariant, takes one length off the
    queue, and leaves the outcome of the sort as it was. *)
Lemma merge_round_spec n (s : @scheduler A) runs0 merged a b pending :
  pass_invariant cmp n s runs0 merged (a :: b :: pending) ->
  exists s' runs0' merged' pending',
    merge_round cmp s = Some s'
    /\ pass_invariant cmp n s' runs0' merged' pending'
    /\ merge_all cmp runs0' = merge_all cmp runs0
    /\ size (p_queue s') = size (p_queue s) - 1
    /\ capacity (p_queue s') = capacity (p_queue s).
Proof.
  intros [Hpairs Hsrc Hpend Htgt Hlsrc Hltgt Hbound Hok Hcont Hleft Hoff
          Hroles Hphase Hcount Hparity].
  set (o := length (concat merged)) in *.
  set (ab := merge_lists cmp a b) in *.
  assert (Hab : length ab = (length a + length b)%nat)
    by apply merge_lists_length.
  cbn [concat] in Hpend.
  assert (Ho : (o <= n)%nat).
  { assert (H := f_equal (@length A) Htgt). rewrite length_take in H.
    fold o in H. lia. }
  assert (Hsum : (n - o
                  = length a + (length b + length (concat pending)))%nat).
  { rewrite <- Hlsrc, <- length_drop, Hpend, !length_app. reflexivity. }
  assert (Hruns : (2 <= length runs0)%nat) by (rewrite Hcount; simpl; lia).
  cbn [run_lengths map app] in Hcont. fold (run_lengths pending) in Hcont.
  fold (run_lengths merged) in Hcont.
  destruct (dequeue_spec _ _ _ Hok Hcont)
    as (q1 & Hd1 & Hok1 & Hcont1 & Hcap1 & Hsz1).
  destruct (dequeue_spec _ _ _ Hok1 Hcont1)
    as (q2 & Hd2 & Hok2 & Hcont2 & Hcap2 & Hsz2).
  pose proof (queue_ok_size _ Hok) as Hqs.
  pose proof (queue_ok_size _ Hok2) as Hqs2.
  assert (Hqsize : size (p_queue s)
                   = Z.of_nat (S (S (length pending + length merged)))).
  { rewrite size_contents by (unfold size in Hqs; lia).
    rewrite Hcont. cbn [length].
    now rewrite length_app, !run_lengths_length. }
  assert (Hcapbound : capacity (p_queue s) <= 2 ^ 63).
  { destruct Hok as (k & Hk & Hc & _). rewrite Hc.
    apply Z.pow_le_mono_r; lia. }
  change (2 ^ 63) with 9223372036854775808 in Hcapbound.
  destruct (enqueue_spec q2 (Z.of_nat (length ab)) Hok2)
    as (q3 & He3 & Hok3 & Hcont3 & Hcap3 & Hsz3);
    [unfold size in *; lia |].
  destruct (std_merge_spec (pointee s (source s)) (pointee s (target s))
              a b (concat pending) o) as [Hmerge Hfit];
    [rewrite Hsrc; lia | rewrite Hsrc; lia | rewrite Hsrc; exact Hpend |].
  fold ab in Hmerge, Hfit.
  set (mem := stored (pointee s (target s)) o ab) in *.
  assert (Hmemlen : length mem = n)
    by (unfold mem; rewrite stored_length; lia).
  assert (Hmemtake : take (o + length ab) mem = concat merged ++ ab)
    by (unfold mem; rewrite stored_take, Htgt by lia; reflexivity).
  set (s1 := write_through s (target s) mem).
  destruct (write_through_fields s (target s) mem)
    as (Hf_src & Hf_tgt & Hf_q & Hf_left & Hf_off).
  fold s1 in Hf_src, Hf_tgt, Hf_q, Hf_left, Hf_off.
  assert (Hs1_tgt : pointee s1 (target s) = mem)
    by apply pointee_write_same.
  assert (Hs1_src : pointee s1 (source s) = concat runs0).
  { unfold s1. rewrite pointee_write_other by congruence. exact Hsrc. }
  assert (Hround : merge_round cmp s
    = let runs_left_ := Z.of_nat (length pending) in
      let offset_ := Z.of_nat (o + length ab) in
      if runs_left_ =? 1 then
        '(single_length, q) ← dequeue_in_contract q3;
        mem ← std_copy (pointee s1 (source s1))
                offset_ (offset_ + single_length)
                (pointee s1 (target s1)) offset_;
        let s2 := write_through s1 (target s1) mem in
        q ← enqueue_in_contract q single_length;
        Some (finish_pass s2 q)
      else if runs_left_ =? 0 then Some (finish_pass s1 q3)
      else Some (mkScheduler (input_range s1) (scratch_range s1) (source s1)
                   (target s1) q3 runs_left_ offset_)).
  { unfold merge_round. rewrite Hd1. cbn [mbind option_bind].
    rewrite Hd2. cbn [mbind option_bind].
    rewrite Hoff. fold o. rewrite Hmerge. cbn [mbind option_bind].
    fold s1. rewrite Hf_left, Hf_off, Hleft, Hoff. fold o.
    replace (wrap (Z.of_nat (length a) + Z.of_nat (length b)))
      with (Z.of_nat (length ab))
      by (rewrite Hab, wrap_small; [lia | size_t_bounds]).
    rewrite He3. cbn [mbind option_bind].
    replace (wrap (Z.of_nat (length (a :: b :: pending)) - 2))
      with (Z.of_nat (length pending)).
    2:{ rewrite wrap_small; [simpl; lia |]. cbn [length]. size_t_bounds. }
    replace (wrap (Z.of_nat o + Z.of_nat (length ab)))
      with (Z.of_nat (o + length ab))
      by (rewrite wrap_small; [lia | size_t_bounds]).
    reflexivity. }
  rewrite Hround. clear Hround. cbn zeta.
  assert (Hsize3 : size q3 = size (p_queue s) - 1) by lia.
  assert (Hcap3' : capacity q3 = capacity (p_queue s)) by congruence.
  assert (Hdrop2 : drop (o + length ab) (concat runs0) = concat pending).
  { rewrite Hab. replace (o + (length a + length b))%nat
      with (o + length a + length b)%nat by lia.
    rewrite <- !drop_drop, Hpend, drop_app_length, drop_app_length.
    reflexivity. }
  destruct pending as [|c [|d pending]].
  - (* the pass ends on this merge *)
    cbn [length Z.of_nat Z.eqb].
    assert (Hwhole : mem = concat merged ++ ab).
    { rewrite <- Hmemtake. symmetry. apply take_ge. simpl in Hsum. lia. }
    assert (Hnext : merge_pairs cmp runs0 = merged ++ [ab]) by exact Hpairs.
    exists (finish_pass s1 q3), (merge_pairs cmp runs0), [],
      (merge_pairs cmp runs0).
    split; [reflexivity |]. split; [| split; [| split]].
    + constructor; cbn [finish_pass source target p_queue runs_left offset
                        concat length take drop app run_lengths map].
      * reflexivity.
      * rewrite pointee_finish_pass, Hf_tgt, Hs1_tgt, Hwhole, Hnext.
        now rewrite concat_snoc.
      * reflexivity.
      * reflexivity.
      * rewrite merge_pairs_concat_length. exact Hlsrc.
      * rewrite pointee_finish_pass, Hf_src, Hs1_src. exact Hlsrc.
      * exact Hbound.
      * exact Hok3.
      * rewrite Hcont3, Hcont2, Hnext, run_lengths_app, app_nil_r.
        reflexivity.
      * pose proof (queue_ok_size _ Hok3) as Hq3.
        rewrite (size_contents q3) by (unfold size in Hq3; lia).
        rewrite Hcont3, Hcont2, Hnext.
        rewrite ?length_app, ?run_lengths_length. simpl. lia.
      * reflexivity.
      * rewrite Hf_src, Hf_tgt. congruence.
      * left. split; reflexivity.
      * simpl. lia.
      * rewrite Hf_tgt.
        apply (parity_after_pass runs0 (source s) (target s));
          assumption.
    + now apply merge_all_merge_pairs.
    + exact Hsize3.
    + exact Hcap3'.
  - (* one run is left over: it is copied and the pass ends *)
    cbn [length Z.of_nat Pos.of_succ_nat Z.eqb Pos.eqb].
    cbn [run_lengths map app] in Hcont3.
    rewrite Hcont2 in Hcont3. cbn [run_lengths map app] in Hcont3.
    fold (run_lengths merged) in Hcont3.
    destruct (dequeue_spec _ _ _ Hok3 Hcont3)
      as (q4 & Hd4 & Hok4 & Hcont4 & Hcap4 & Hsz4).
    rewrite Hd4. cbn [mbind option_bind].
    rewrite Hf_src, Hf_tgt, Hs1_src, Hs1_tgt.
    cbn [concat] in Hdrop2. rewrite app_nil_r in Hdrop2.
    rewrite (std_copy_spec (concat runs0) mem c [] (o + length ab));
      [| simpl in Hsum; lia | lia | now rewrite app_nil_r].
    cbn [mbind option_bind].
    set (mem2 := stored mem (o + length ab) c).
    assert (Hc : (o + length ab + length c = n)%nat).
    { simpl in Hsum. rewrite app_nil_r in Hsum. lia. }
    assert (Hwhole : mem2 = concat merged ++ ab ++ c).
    { unfold mem2, stored. rewrite Hmemtake, drop_ge by lia.
      now rewrite app_nil_r, <- app_assoc. }
    destruct (enqueue_spec q4 (Z.of_nat (length c)) Hok4)
      as (q5 & He5 & Hok5 & Hcont5 & Hcap5 & Hsz5);
      [unfold size in *; lia |].
    rewrite He5. cbn [mbind option_bind].
    assert (Hnext : merge_pairs cmp runs0 = merged ++ [ab; c]) by exact Hpairs.
    set (s2 := write_through s1 (target s) mem2).
    destruct (write_through_fields s1 (target s) mem2)
      as (Hg_src & Hg_tgt & _ & _ & _).
    fold s2 in Hg_src, Hg_tgt.
    exists (finish_pass s2 q5), (merge_pairs cmp runs0), [],
      (merge_pairs cmp runs0).
    split; [reflexivity |]. split; [| split; [| split]].
    + constructor; cbn [finish_pass source target p_queue runs_left offset
                        concat length take drop app run_lengths map].
      * reflexivity.
      * rewrite pointee_finish_pass, Hg_tgt, Hf_tgt.
        unfold s2. rewrite pointee_write_same, Hwhole, Hnext.
        rewrite concat_app. cbn [concat]. now rewrite app_nil_r.
      * reflexivity.
      * reflexivity.
      * rewrite merge_pairs_concat_length. exact Hlsrc.
      * rewrite pointee_finish_pass, Hg_src, Hf_src.
        unfold s2. rewrite pointee_write_other by congruence.
        rewrite Hs1_src. exact Hlsrc.
      * exact Hbound.
      * exact Hok5.
      * rewrite Hcont5, Hcont4, Hnext, run_lengths_app, app_nil_r.
        rewrite <- app_assoc. reflexivity.
      * pose proof (queue_ok_size _ Hok5) as Hq5.
        rewrite (size_contents q5) by (unfold size in Hq5; lia).
        rewrite Hcont5, Hcont4, Hnext.
        rewrite ?length_app, ?run_lengths_length. simpl. lia.
      * reflexivity.
      * rewrite Hg_src, Hg_tgt, Hf_src, Hf_tgt. congruence.
      * left. split; reflexivity.
      * simpl. lia.
      * rewrite Hg_tgt, Hf_tgt.
        apply (parity_after_pass runs0 (source s) (target s));
          assumption.
    + now apply merge_all_merge_pairs.
    + cbn [finish_pass p_queue]. unfold size in *. lia.
    + cbn [finish_pass p_queue]. congruence.
  - (* the pass goes on *)
    assert (Hgt : (2 <= length (c :: d :: pending))%nat) by (simpl; lia).
    set (pending' := c :: d :: pending) in *.
    destruct (Z.eqb_spec (Z.of_nat (length pending')) 1) as [E|_]; [lia |].
    destruct (Z.eqb_spec (Z.of_nat (length pending')) 0) as [E|_]; [lia |].
    exists (mkScheduler (input_range s1) (scratch_range s1) (source s1)
              (target s1) q3 (Z.of_nat (length pending'))
              (Z.of_nat (o + length ab))),
      runs0, (merged ++ [ab]), pending'.
    assert (Hlm : length (concat (merged ++ [ab])) = (o + length ab)%nat)
      by (rewrite concat_snoc, length_app; reflexivity).
    split; [reflexivity |]. split; [| split; [| split]].
    + constructor; cbn [source target p_queue runs_left offset];
        rewrite ?pointee_rebuilt, ?Hlm.
      * rewrite Hpairs. cbn [merge_pairs]. fold ab.
        now rewrite <- app_assoc.
      * rewrite Hf_src. exact Hs1_src.
      * exact Hdrop2.
      * rewrite Hf_tgt, Hs1_tgt, Hmemtake. now rewrite concat_snoc.
      * exact Hlsrc.
      * rewrite Hf_tgt, Hs1_tgt. exact Hmemlen.
      * exact Hbound.
      * exact Hok3.
      * rewrite Hcont3, Hcont2, run_lengths_app, <- app_assoc. reflexivity.
      * reflexivity.
      * reflexivity.
      * rewrite Hf_src, Hf_tgt. exact Hroles.
      * right. exact Hgt.
      * rewrite Hcount, length_app. simpl. lia.
      * rewrite Hf_src. exact Hparity.
    + reflexivity.
    + exact Hsize3.
    + exact Hcap3'.
Qed.

Lemma merge_loop_unfold fuel (s : @scheduler A) :
  merge_loop cmp fuel s
  = if 1 <? size (p_queue s) then
      match fuel with
      | O => None
      | S fuel' => s' ← merge_round cmp s; merge_loop cmp fuel' s'
      end
    else Some s.
Proof. destruct fuel; reflexivity. Qed.

Lemma invariant_size n (s : @scheduler A) runs0 merged pending :
  pass_invariant cmp n s runs0 merged pending ->
  size (p_queue s) = Z.of_nat (length pending + length merged).
Proof.
  intros Hinv.
  pose proof (queue_ok_size _ (inv_queue_ok cmp _ _ _ _ _ Hinv)) as Hq.
  rewrite size_contents by (unfold size in Hq; lia).
  rewrite (inv_contents cmp _ _ _ _ _ Hinv), length_app, !run_lengths_length.
  reflexivity.
Qed.

(** The loop ends, at the start of a pass that has a single run to read,
    and that run lies in the caller's range. *)
Lemma merge_loop_spec (fuel : nat) :
  forall n (s : @scheduler A) runs0 merged pending,
    pass_invariant cmp n s runs0 merged pending ->
    (length pending + length merged <= S fuel)%nat ->
    exists s',
      merge_loop cmp fuel s = Some s'
      /\ pass_invariant cmp n s' (merge_all cmp runs0) [] (merge_all cmp runs0)
      /\ capacity (p_queue s') = capacity (p_queue s)
      /\ size (p_queue s') <= size (p_queue s).
Proof.
  induction fuel as [|fuel IH]; intros n s runs0 merged pending Hinv Hfuel;
    rewrite merge_loop_unfold;
    pose proof (invariant_size _ _ _ _ _ Hinv) as Hsize;
    destruct (Z.ltb_spec 1 (size (p_queue s))) as [Hgo|Hstop].
  - lia.
  - destruct (inv_phase cmp _ _ _ _ _ Hinv) as [[-> ->]|Hlong]; [| lia].
    exists s. rewrite merge_all_short by (simpl in Hsize; lia).
    split; [reflexivity |]. split; [exact Hinv |]. split; [reflexivity | lia].
  - assert (Hpending : (2 <= length pending)%nat).
    { destruct (inv_phase cmp _ _ _ _ _ Hinv) as [[-> _]|Hlong];
        [simpl in Hsize; lia | exact Hlong]. }
    destruct pending as [|a [|b pending]]; [simpl in Hpending; lia.. |].
    destruct (merge_round_spec _ _ _ _ _ _ _ Hinv)
      as (s1 & runs1 & merged1 & pending1 & Hround & Hinv1 & Hall & Hsz & Hcap).
    rewrite Hround. cbn [mbind option_bind].
    pose proof (invariant_size _ _ _ _ _ Hinv1) as Hsize1.
    destruct (IH n s1 runs1 merged1 pending1 Hinv1)
      as (s' & Hloop & Hfin & Hcap' & Hsz');
      [lia |].
    exists s'. rewrite <- Hall.
    split; [exact Hloop |]. split; [exact Hfin |]. split; [congruence | lia].
  - destruct (inv_phase cmp _ _ _ _ _ Hinv) as [[-> ->]|Hlong]; [| lia].
    exists s. rewrite merge_all_short by (simpl in Hsize; lia).
    split; [reflexivity |]. split; [exact Hinv |]. split; [reflexivity | lia].
Qed.

Lemma land_one p : Z.land p 1 = if Z.odd p then 1 else 0.
Proof.
  change 1 with (Z.ones 1) at 1. rewrite Z.land_ones by lia.
  apply Zmod_odd.
Qed.

Lemma runs_of_nonempty (input : list A) :
  input <> [] -> runs_of cmp input <> [].
Proof.
  intros Hne Hruns. apply Hne.
  rewrite <- (runs_with_concat cmp (length input) input) by lia.
  fold (runs_of cmp input). now rewrite Hruns.
Qed.

(** The state in which the loop is entered. *)
Lemma schedule_spec (input scratch : list A) :
  (2 <= length input)%nat -> Z.of_nat (length input) < 2 ^ size_t_bits ->
  length scratch = length input ->
  let runs := map (settle cmp) (runs_of cmp input) in
  exists s q,
    build_run_size_queue cmp input = Some (concat runs, q)
    /\ get_pass_amount (size q)
       = Some (Z.log2_up (Z.of_nat (length runs)))
    /\ schedule cmp input scratch = Some s
    /\ p_queue s = q
    /\ input_range s = concat runs
    /\ (if Z.odd (Z.log2_up (Z.of_nat (length runs)))
        then source s = Scratch /\ target s = Input
             /\ scratch_range s = concat runs
        else source s = Input /\ target s = Scratch
             /\ scratch_range s = scratch)
    /\ pass_invariant cmp (length input) s runs [] runs.
Proof.
  intros Hlen Hbound Hscratch runs.
  destruct (build_run_size_queue_spec cmp input)
    as (q & Hbuild & Hok & Hcont & Hcap); [lia | exact Hbound |].
  fold runs in Hbuild.
  assert (Hconcat : length (concat runs) = length input).
  { unfold runs. rewrite concat_settle_length. unfold runs_of.
    now rewrite runs_with_concat by lia. }
  assert (Hcontents : contents q = run_lengths runs).
  { rewrite Hcont. unfold runs, run_lengths. rewrite map_map.
    apply map_ext. intros run. now rewrite settle_length. }
  assert (Hsize : size q = Z.of_nat (length runs)).
  { pose proof (queue_ok_size _ Hok) as Hq.
    rewrite size_contents by (unfold size in Hq; lia).
    now rewrite Hcontents, run_lengths_length. }
  assert (Hcount : 1 <= Z.of_nat (length runs) <= Z.of_nat (length input)).
  { unfold runs. rewrite length_map. split.
    - assert (runs_of cmp input <> []) as Hne
        by (apply runs_of_nonempty; destruct input;
            [simpl in Hlen; lia | discriminate]).
      destruct (runs_of cmp input); [congruence | simpl; lia].
    - pose proof (runs_with_count cmp (length input) input) as Hc.
      fold (runs_of cmp input) in Hc.
      assert ((Z.of_nat (length input) + 1) / 2 <= Z.of_nat (length input))
        by (apply Z.div_le_upper_bound; lia).
      lia. }
  assert (Hpass : get_pass_amount (size q)
                  = Some (Z.log2_up (Z.of_nat (length runs)))).
  { rewrite Hsize. apply get_pass_amount_spec. lia. }
  unfold schedule. rewrite Hbuild. cbn [mbind option_bind].
  rewrite Hpass. cbn [mbind option_bind].
  rewrite land_one.
  destruct (Z.odd (Z.log2_up (Z.of_nat (length runs)))) eqn:Hodd;
    cbn [Z.eqb Pos.eqb].
  - unfold std_copy. rewrite range_whole. cbn [mbind option_bind].
    rewrite store_spec by lia. cbn [mbind option_bind].
    change (Z.to_nat 0) with 0%nat.
    rewrite stored_whole by lia.
    eexists _, q.
    split; [first [exact Hbuild | reflexivity] |].
    split; [first [exact Hpass | reflexivity] |].
    do 3 (split; [reflexivity |]).
    split; [repeat split |].
    constructor; cbn [pointee source target p_queue runs_left offset
                      input_range scratch_range concat length take drop app
                      run_lengths map];
      try reflexivity; try assumption; try lia.
    + now rewrite app_nil_r.
    + discriminate.
    + left. split; reflexivity.
    + rewrite <- Z.negb_odd, Hodd. split; discriminate.
  - eexists _, q.
    split; [first [exact Hbuild | reflexivity] |].
    split; [first [exact Hpass | reflexivity] |].
    do 3 (split; [reflexivity |]).
    split; [repeat split |].
    constructor; cbn [pointee source target p_queue runs_left offset
                      input_range scratch_range concat length take drop app
                      run_lengths map];
      try reflexivity; try assumption; try lia.
    + now rewrite app_nil_r.
    + discriminate.
    + left. split; reflexivity.
    + rewrite <- Z.negb_odd, Hodd. split; reflexivity.
Qed.

Lemma sorted_output_short (input : list A) :
  (length input <= 1)%nat -> sorted_output cmp input = input.
Proof.
  destruct input as [|x [|y input]]; [reflexivity | reflexivity |].
  simpl. lia.
Qed.

(** The sequential scheduler, whatever the comparator: the caller's range
    holds [sorted_output], the auxiliary range keeps its length. *)
Lemma natural_merge_sort_impl_spec (input scratch : list A) :
  Z.of_nat (length input) < 2 ^ size_t_bits ->
  length scratch = length input ->
  exists scratch',
    natural_merge_sort_impl cmp input scratch
    = Some (sorted_output cmp input, scratch')
    /\ length scratch' = length scratch.
Proof.
  intros Hbound Hscratch. unfold natural_merge_sort_impl.
  rewrite wrap_small by size_t_bounds.
  destruct (Z.ltb_spec (Z.of_nat (length input)) 2) as [Hshort|Hlong].
  - exists scratch. rewrite sorted_output_short by lia. split; reflexivity.
  - destruct (schedule_spec input scratch)
      as (s & q & _ & _ & Hsched & _ & _ & _ & Hinv);
        [lia | exact Hbound | exact Hscratch |].
    rewrite Hsched. cbn [mbind option_bind].
    set (runs := map (settle cmp) (runs_of cmp input)) in *.
    destruct (merge_loop_spec (length input) _ s runs [] runs Hinv)
      as (s' & Hloop & Hfin & _ & _).
    { cbn [length]. unfold runs. rewrite length_map.
      pose proof (runs_with_count cmp (length input) input) as Hc.
      fold (runs_of cmp input) in Hc.
      assert ((Z.of_nat (length input) + 1) / 2 <= Z.of_nat (length input))
        by (apply Z.div_le_upper_bound; lia).
      lia. }
    rewrite Hloop. cbn [mbind option_bind].
    assert (Hsource : source s' = Input).
    { apply (inv_parity cmp _ _ _ _ _ Hfin).
      pose proof (merge_all_length runs) as Hone.
      destruct (merge_all cmp runs) as [|r [|r' rest]];
        [reflexivity | reflexivity | simpl in Hone; lia]. }
    pose proof (inv_source cmp _ _ _ _ _ Hfin) as Hin.
    pose proof (inv_length_target cmp _ _ _ _ _ Hfin) as Hout.
    pose proof (inv_roles cmp _ _ _ _ _ Hfin) as Hroles.
    rewrite Hsource in Hin, Hroles. cbn [pointee] in Hin.
    destruct (target s') eqn:Htarget; [congruence |]. cbn [pointee] in Hout.
    exists (scratch_range s'). rewrite Hin.
    split; [reflexivity | congruence].
Qed.

(** *** What the passes do to the runs *)

Lemma merge_pairs_iter_permutation p (runs : list (list A)) :
  Permutation (concat (Nat.iter p (merge_pairs cmp) runs)) (concat runs).
Proof.
  induction p as [|p IH]; [reflexivity |].
  cbn [Nat.iter nat_rect]. now rewrite merge_pairs_concat_permutation.
Qed.

Lemma sorted_output_permutation (input : list A) :
  Permutation (sorted_output cmp input) input.
Proof.
  unfold sorted_output, merge_all.
  rewrite merge_pairs_iter_permutation, concat_settle_permutation.
  unfold runs_of. now rewrite runs_with_concat by lia.
Qed.

Lemma sorted_output_length (input : list A) :
  length (sorted_output cmp input) = length input.
Proof. apply Permutation_length, sorted_output_permutation. Qed.

Section PassesUnderOrder.

Hypothesis order : strict_weak_order cmp.

Lemma merge_pairs_sorted (runs : list (list A)) :
  Forall (sorted cmp) runs -> Forall (sorted cmp) (merge_pairs cmp runs).
Proof.
  induction runs as [runs IH] using (induction_ltof1 _ (@length _)).
  unfold ltof in IH. intros Hall.
  destruct runs as [|a [|b rest]]; try exact Hall.
  cbn [merge_pairs].
  apply Forall_cons_1 in Hall as [Ha Hall].
  apply Forall_cons_1 in Hall as [Hb Hall].
  constructor;
    [now apply merge_lists_sorted | apply IH; [simpl; lia | exact Hall]].
Qed.

Lemma merge_pairs_stable (runs : list (list A)) :
  Forall (sorted cmp) runs ->
  same_order_of_equivalents cmp (concat (merge_pairs cmp runs)) (concat runs).
Proof.
  induction runs as [runs IH] using (induction_ltof1 _ (@length _)).
  unfold ltof in IH. intros Hall.
  destruct runs as [|a [|b rest]]; try apply same_order_refl.
  cbn [merge_pairs concat].
  apply Forall_cons_1 in Hall as [Ha Hall].
  apply Forall_cons_1 in Hall as [Hb Hall].
  rewrite (app_assoc a b). apply same_order_app.
  - now apply merge_lists_stable.
  - apply IH; [simpl; lia | exact Hall].
Qed.

Lemma merge_pairs_iter_sorted p (runs : list (list A)) :
  Forall (sorted cmp) runs ->
  Forall (sorted cmp) (Nat.iter p (merge_pairs cmp) runs).
Proof.
  intros Hall. induction p as [|p IH]; [exact Hall |].
  cbn [Nat.iter nat_rect]. now apply merge_pairs_sorted.
Qed.

Lemma merge_pairs_iter_stable p (runs : list (list A)) :
  Forall (sorted cmp) runs ->
  same_order_of_equivalents cmp (concat (Nat.iter p (merge_pairs cmp) runs))
    (concat runs).
Proof.
  intros Hall. induction p as [|p IH]; [apply same_order_refl |].
  cbn [Nat.iter nat_rect].
  eapply same_order_trans; [| exact IH].
  apply merge_pairs_stable. now apply merge_pairs_iter_sorted.
Qed.

Lemma runs_of_settled_sorted (input : list A) :
  Forall (sorted cmp) (map (settle cmp) (runs_of cmp input)).
Proof. apply map_settle_sorted; [exact order | apply runs_with_is_run]. Qed.

Lemma sorted_output_sorted (input : list A) :
  sorted cmp (sorted_output cmp input).
Proof.
  unfold sorted_output.
  pose proof (merge_all_length (map (settle cmp) (runs_of cmp input))) as Hone.
  pose proof (merge_pairs_iter_sorted
                (passes_for (map (settle cmp) (runs_of cmp input))) _
                (runs_of_settled_sorted input)) as Hall.
  fold (merge_all cmp (map (settle cmp) (runs_of cmp input))) in Hall.
  destruct (merge_all cmp (map (settle cmp) (runs_of cmp input)))
    as [|run [|run' rest]]; [constructor | | simpl in Hone; lia].
  cbn [concat]. rewrite app_nil_r. now apply Forall_cons_1 in Hall as [Hrun _].
Qed.

Lemma sorted_output_stable (input : list A) :
  same_order_of_equivalents cmp (sorted_output cmp input) input.
Proof.
  unfold sorted_output, merge_all.
  eapply same_order_trans;
    [apply merge_pairs_iter_stable, runs_of_settled_sorted |].
  eapply same_order_trans;
    [apply concat_settle_stable; [exact order | apply runs_with_is_run] |].
  unfold runs_of. rewrite runs_with_concat by lia. apply same_order_refl.
Qed.

(** A sorted rearrangement that keeps equivalents in order is the output
    of the sort. *)
Lemma sorted_output_unique (input output : list A) :
  sorted cmp output -> same_order_of_equivalents cmp output input ->
  output = sorted_output cmp input.
Proof.
  intros Hsorted Hsame. apply (sorted_stable_unique cmp order).
  - exact Hsorted.
  - apply sorted_output_sorted.
  - eapply same_order_trans; [exact Hsame |].
    intros z. symmetry. apply sorted_output_stable.
Qed.

End PassesUnderOrder.

End Passes.

(** ** The entry points and the fork-join wrapper *)

Section EntryPoints.

Context {A : Type}.
Variable cmp : A -> A -> bool.

Lemma natural_merge_sort_spec (fresh input : list A) :
  Z.of_nat (length input) < 2 ^ size_t_bits ->
  length fresh = length input ->
  natural_merge_sort cmp fresh input = Some (sorted_output cmp input).
Proof.
  intros Hbound Hfresh. unfold natural_merge_sort.
  rewrite wrap_small by size_t_bounds.
  destruct (Z.ltb_spec (Z.of_nat (length input)) 2) as [Hshort|Hlong].
  - now rewrite sorted_output_short by lia.
  - rewrite option_guard_True by exact Hfresh. cbn [mbind option_bind].
    destruct (natural_merge_sort_impl_spec cmp input fresh Hbound Hfresh)
      as (scratch' & -> & _).
    reflexivity.
Qed.

Lemma stored_middle (a1 a2 a3 data : list A) :
  length data = length a2 ->
  stored (a1 ++ a2 ++ a3) (length a1) data = a1 ++ data ++ a3.
Proof.
  intros Hlen. unfold stored.
  rewrite take_app_length, Hlen.
  rewrite <- drop_drop, drop_app_length, drop_app_length. reflexivity.
Qed.

(** The sequential scheduler on the middle part of two arrays: the
    outcome is that of the scheduler on the two parts, put back in
    place. *)
Lemma on_ranges_of_impl (a1 a2 a3 b1 b2 b3 out b2' : list A) :
  length b2 = length a2 ->
  natural_merge_sort_impl cmp a2 b2 = Some (out, b2') ->
  length out = length a2 -> length b2' = length b2 ->
  on_ranges cmp (a1 ++ a2 ++ a3) (Z.of_nat (length a1))
    (Z.of_nat (length a1) + Z.of_nat (length a2))
    (b1 ++ b2 ++ b3) (Z.of_nat (length b1))
  = Some (a1 ++ out ++ a3, b1 ++ b2' ++ b3).
Proof.
  intros Hlen Himpl Hout Hlen'. unfold on_ranges.
  rewrite (range_of_drop (a1 ++ a2 ++ a3) _ _ a2 a3);
    [| rewrite length_app; lia
     | now rewrite Nat2Z.id, drop_app_length
     | reflexivity].
  cbn [mbind option_bind].
  rewrite (range_of_drop (b1 ++ b2 ++ b3) _ _ b2 b3);
    [| rewrite length_app; lia
     | now rewrite Nat2Z.id, drop_app_length
     | lia].
  cbn [mbind option_bind]. rewrite Himpl. cbn [mbind option_bind].
  rewrite store_spec by (rewrite ?length_app; lia).
  cbn [mbind option_bind].
  rewrite store_spec by (rewrite ?length_app; lia).
  cbn [mbind option_bind].
  now rewrite !Nat2Z.id, !stored_middle by congruence.
Qed.

Lemma on_ranges_spec (a1 a2 a3 b1 b2 b3 : list A) :
  Z.of_nat (length a2) < 2 ^ size_t_bits -> length b2 = length a2 ->
  exists b2',
    on_ranges cmp (a1 ++ a2 ++ a3) (Z.of_nat (length a1))
      (Z.of_nat (length a1) + Z.of_nat (length a2))
      (b1 ++ b2 ++ b3) (Z.of_nat (length b1))
    = Some (a1 ++ sorted_output cmp a2 ++ a3, b1 ++ b2' ++ b3)
    /\ length b2' = length b2.
Proof.
  intros Hbound Hlen.
  destruct (natural_merge_sort_impl_spec cmp a2 b2 Hbound Hlen)
    as (b2' & Himpl & Hlen').
  exists b2'. split; [| exact Hlen'].
  apply on_ranges_of_impl; try assumption. apply sorted_output_length.
Qed.

(** The leaf of the fork-join tree runs one sort in a new thread and one
    in its own.  The two work on parts of the arrays that do not overlap:
    whichever of them the model runs first, the arrays at the join are the
    same. *)
Lemma leaf_sorts_commute (l r src_rest l0 r0 tgt_rest : list A) :
  Z.of_nat (length l) < 2 ^ size_t_bits ->
  Z.of_nat (length r) < 2 ^ size_t_bits ->
  length l0 = length l -> length r0 = length r ->
  let source := l ++ r ++ src_rest in
  let target := l0 ++ r0 ++ tgt_rest in
  let mid := Z.of_nat (length l) in
  let len := Z.of_nat (length l) + Z.of_nat (length r) in
  ('(source', target') ← on_ranges cmp source 0 mid target 0;
   on_ranges cmp source' mid len target' mid)
  = ('(source', target') ← on_ranges cmp source mid len target mid;
     on_ranges cmp source' 0 mid target' 0).
Proof.
  intros Hl Hr Hl0 Hr0 source target mid len. subst source target mid len.
  destruct (natural_merge_sort_impl_spec cmp l l0 Hl Hl0)
    as (l' & Hleft & Hl').
  destruct (natural_merge_sort_impl_spec cmp r r0 Hr Hr0)
    as (r' & Hright & Hr').
  pose proof (sorted_output_length cmp l) as Hol.
  pose proof (sorted_output_length cmp r) as Hor.
  pose proof (on_ranges_of_impl [] l (r ++ src_rest) [] l0 (r0 ++ tgt_rest)
                _ _ Hl0 Hleft Hol Hl') as Hfirst.
  pose proof (on_ranges_of_impl (sorted_output cmp l) r src_rest l' r0
                tgt_rest _ _ Hr0 Hright Hor Hr') as Hsecond.
  pose proof (on_ranges_of_impl l r src_rest l0 r0 tgt_rest
                _ _ Hr0 Hright Hor Hr') as Hfirst'.
  pose proof (on_ranges_of_impl [] l (sorted_output cmp r ++ src_rest) []
                l0 (r' ++ tgt_rest) _ _ Hl0 Hleft Hol Hl') as Hsecond'.
  change (Z.of_nat (length (@nil A))) with 0 in Hfirst, Hsecond'.
  rewrite Z.add_0_l in Hfirst, Hsecond'. cbn [app] in Hfirst, Hsecond'.
  rewrite Hol in Hsecond. rewrite Hl', Hl0 in Hsecond. rewrite Hl0 in Hfirst'.
  rewrite Hfirst, Hfirst'. cbn [mbind option_bind].
  rewrite Hsecond, Hsecond'. reflexivity.
Qed.

Lemma sorts_to_sorted_output (data : list A) :
  sorts_to cmp data (sorted_output cmp data).
Proof. split; [apply sorted_output_permutation | reflexivity]. Qed.

Lemma sorts_to_merge (l r result_l result_r : list A) :
  sorts_to cmp l result_l -> sorts_to cmp r result_r ->
  sorts_to cmp (l ++ r) (merge_lists cmp result_l result_r).
Proof.
  intros [Hpl Hol] [Hpr Hor]. split.
  - now rewrite merge_lists_permutation, Hpl, Hpr.
  - intros order. rewrite (Hol order), (Hor order).
    apply (sorted_output_unique cmp order).
    + apply (merge_lists_sorted cmp order);
        apply (sorted_output_sorted cmp order).
    + eapply same_order_trans.
      * apply (merge_lists_stable cmp order),
          (sorted_output_sorted cmp order).
      * apply same_order_app; apply (sorted_output_stable cmp order).
Qed.

Lemma parallel_impl_unfold fuel (source target : list A) length_ thread_quota :
  parallel_natural_merge_sort_impl cmp fuel source target length_ thread_quota
  = if thread_quota =? 1 then
      '(target, source) ← on_ranges cmp target 0 length_ source 0;
      Some (source, target)
    else
      let left_quota := thread_quota / 2 in
      let right_quota := wrap (thread_quota - left_quota) in
      let left_length := length_ / 2 in
      if thread_quota =? 2 then
        '(source, target) ← on_ranges cmp source 0 left_length target 0;
        '(source, target) ←
          on_ranges cmp source left_length length_ target left_length;
        target ←
          std_merge cmp source 0 left_length left_length length_ target 0;
        Some (source, target)
      else
        match fuel with
        | O => None
        | S fuel' =>
            '(target, source) ←
              parallel_natural_merge_sort_impl cmp fuel' target source
                left_length left_quota;
            guard (0 <= left_length <= Z.of_nat (length source)
                   /\ left_length <= Z.of_nat (length target));;
            let skip := Z.to_nat left_length in
            '(target_tail, source_tail) ←
              parallel_natural_merge_sort_impl cmp fuel' (drop skip target)
                (drop skip source) (wrap (length_ - left_length)) right_quota;
            let source := take skip source ++ source_tail in
            let target := take skip target ++ target_tail in
            target ←
              std_merge cmp source 0 left_length left_length length_ target 0;
            Some (source, target)
        end.
Proof. destruct fuel; reflexivity. Qed.

(** The merge that joins two sorted halves lying at the front of [src]. *)
Lemma join_merge (l r src_rest junk tgt_rest : list A) :
  length junk = (length l + length r)%nat ->
  length src_rest = length tgt_rest ->
  std_merge cmp (l ++ r ++ src_rest) 0 (Z.of_nat (length l))
    (Z.of_nat (length l)) (Z.of_nat (length l + length r))
    (junk ++ tgt_rest) 0
  = Some (merge_lists cmp l r ++ tgt_rest).
Proof.
  intros Hjunk Hrest.
  destruct (std_merge_spec cmp (l ++ r ++ src_rest) (junk ++ tgt_rest)
              l r src_rest 0) as [Hmerge _];
    [lia | rewrite !length_app; lia | reflexivity |].
  replace (Z.of_nat 0 + Z.of_nat (length l)) with (Z.of_nat (length l))
    in Hmerge by lia.
  replace (Z.of_nat (length l) + Z.of_nat (length r))
    with (Z.of_nat (length l + length r)) in Hmerge by lia.
  change (Z.of_nat 0) with 0 in Hmerge. rewrite Hmerge. f_equal.
  unfold stored. cbn [take app Nat.add].
  rewrite merge_lists_length, <- Hjunk, drop_app_length. reflexivity.
Qed.

Lemma on_ranges_at (a b : list A) (from to pos : Z)
    (a1 a2 a3 b1 b2 b3 : list A) :
  a = a1 ++ a2 ++ a3 -> b = b1 ++ b2 ++ b3 ->
  from = Z.of_nat (length a1) -> to = from + Z.of_nat (length a2) ->
  pos = Z.of_nat (length b1) ->
  Z.of_nat (length a2) < 2 ^ size_t_bits -> length b2 = length a2 ->
  exists b2',
    on_ranges cmp a from to b pos
    = Some (a1 ++ sorted_output cmp a2 ++ a3, b1 ++ b2' ++ b3)
    /\ length b2' = length b2.
Proof. intros -> -> -> -> ->. apply on_ranges_spec. Qed.

Lemma join_merge_at (src dst : list A) (mid len : Z)
    (l r src_rest junk tgt_rest : list A) :
  src = l ++ r ++ src_rest -> dst = junk ++ tgt_rest ->
  mid = Z.of_nat (length l) -> len = Z.of_nat (length l + length r) ->
  length junk = (length l + length r)%nat ->
  length src_rest = length tgt_rest ->
  std_merge cmp src 0 mid mid len dst 0
  = Some (merge_lists cmp l r ++ tgt_rest).
Proof. intros -> -> -> ->. apply join_merge. Qed.

(** The wrapper, called on two arrays that start with the same [data]:
    the target then starts with the sorted data; the rest of either array
    is not touched. *)
Lemma parallel_impl_spec (fuel : nat) :
  forall (quota length_ : Z) (data src_rest tgt_rest : list A),
    1 <= quota <= Z.of_nat fuel -> quota < 2 ^ size_t_bits ->
    length_ = Z.of_nat (length data) -> length_ < 2 ^ size_t_bits ->
    length src_rest = length tgt_rest ->
    exists junk result,
      parallel_natural_merge_sort_impl cmp fuel (data ++ src_rest)
        (data ++ tgt_rest) length_ quota
      = Some (junk ++ src_rest, result ++ tgt_rest)
      /\ length junk = length data
      /\ sorts_to cmp data result.
Proof.
  induction fuel as [|fuel IH];
    intros quota length_ data src_rest tgt_rest Hquota Hqbound Hlen Hbound
      Hrest; [lia |].
  rewrite parallel_impl_unfold.
  destruct (Z.eqb_spec quota 1) as [Hone|Hnot1].
  { (* quota 1 *)
    destruct (on_ranges_at (data ++ tgt_rest) (data ++ src_rest)
                0 length_ 0 [] data tgt_rest [] data src_rest)
      as (junk & -> & Hjunk); try reflexivity; try lia.
    cbn [mbind option_bind app].
    exists junk, (sorted_output cmp data).
    split; [reflexivity |]. split; [exact Hjunk |].
    apply sorts_to_sorted_output. }
  cbn zeta.
  set (kl := Z.to_nat (length_ / 2)).
  assert (Hhalf : 0 <= length_ / 2 <= length_).
  { split; [apply Z.div_pos; lia |]. apply Z.div_le_upper_bound; lia. }
  assert (Hkl : length_ / 2 = Z.of_nat kl) by (unfold kl; lia).
  set (l := take kl data). set (r := drop kl data).
  assert (Hdata : data = l ++ r) by (unfold l, r; now rewrite take_drop).
  assert (Hl : length l = kl) by (unfold l; rewrite length_take; lia).
  assert (Hr : length data = (length l + length r)%nat)
    by (unfold l, r; rewrite length_take, length_drop; lia).
  assert (Hsrc : data ++ src_rest = l ++ r ++ src_rest)
    by (unfold l, r; now rewrite app_assoc, take_drop).
  assert (Htgt : data ++ tgt_rest = l ++ r ++ tgt_rest)
    by (unfold l, r; now rewrite app_assoc, take_drop).
  rewrite Hkl, Hsrc, Htgt.
  destruct (Z.eqb_spec quota 2) as [Htwo|Hnot2].
  { (* quota 2 *)
    destruct (on_ranges_at (l ++ r ++ src_rest) (l ++ r ++ tgt_rest)
                0 (Z.of_nat kl) 0
                [] l (r ++ src_rest) [] l (r ++ tgt_rest))
      as (l' & -> & Hl'); try reflexivity; try lia.
    cbn [mbind option_bind app].
    destruct (on_ranges_at (sorted_output cmp l ++ r ++ src_rest)
                (l' ++ r ++ tgt_rest) (Z.of_nat kl) length_ (Z.of_nat kl)
                (sorted_output cmp l) r src_rest l' r tgt_rest)
      as (r' & -> & Hr'); try reflexivity;
      try (rewrite ?sorted_output_length; lia).
    cbn [mbind option_bind].
    rewrite (join_merge_at _ _ _ _
               (sorted_output cmp l) (sorted_output cmp r) src_rest
               (l' ++ r') tgt_rest);
      try reflexivity;
      try (rewrite ?length_app, ?sorted_output_length; lia);
      [| now rewrite <- app_assoc].
    cbn [mbind option_bind].
    exists (sorted_output cmp l ++ sorted_output cmp r),
      (merge_lists cmp (sorted_output cmp l) (sorted_output cmp r)).
    split; [now rewrite <- app_assoc |].
    split; [rewrite length_app, !sorted_output_length; lia |].
    rewrite Hdata.
    apply sorts_to_merge; apply sorts_to_sorted_output. }
  (* a larger quota *)
  assert (Hq3 : 3 <= quota) by lia.
  assert (Hlq : 1 <= quota / 2 < quota).
  { split; [apply Z.div_le_lower_bound; lia |].
    apply Z.div_lt_upper_bound; lia. }
  rewrite (wrap_small (quota - quota / 2)) by size_t_bounds.
  rewrite (wrap_small (length_ - Z.of_nat kl)) by size_t_bounds.
  destruct (IH (quota / 2) (Z.of_nat kl) l (r ++ tgt_rest) (r ++ src_rest))
    as (l_junk & l_res & Hleft & Hljunk & Hlsorts);
    try lia; [rewrite !length_app; lia |].
  rewrite Hleft. cbn [mbind option_bind].
  assert (Hlres : length l_res = kl)
    by (rewrite (Permutation_length (proj1 Hlsorts)); exact Hl).
  rewrite option_guard_True by (rewrite !length_app; lia).
  cbn [mbind option_bind].
  rewrite ?Nat2Z.id.
  rewrite (drop_app_length' l_junk), (drop_app_length' l_res) by lia.
  destruct (IH (quota - quota / 2) (length_ - Z.of_nat kl) r tgt_rest src_rest)
    as (r_junk & r_res & Hright & Hrjunk & Hrsorts); try lia.
  rewrite Hright. cbn [mbind option_bind].
  rewrite (take_app_length' l_junk), (take_app_length' l_res) by lia.
  assert (Hrres : length r_res = length r)
    by (rewrite (Permutation_length (proj1 Hrsorts)); reflexivity).
  rewrite (join_merge_at _ _ _ _ l_res r_res src_rest
             (l_junk ++ r_junk) tgt_rest);
    try reflexivity; try (rewrite ?length_app; lia);
    [| now rewrite <- app_assoc].
  cbn [mbind option_bind].
  exists (l_res ++ r_res), (merge_lists cmp l_res r_res).
  split; [now rewrite <- app_assoc |].
  split; [rewrite length_app; lia |].
  rewrite Hdata. now apply sorts_to_merge.
Qed.

Lemma parallel_natural_merge_sort_spec (cores : Z) (fresh input : list A) :
  Z.of_nat (length input) < 2 ^ size_t_bits ->
  length fresh = length input ->
  exists result,
    parallel_natural_merge_sort cmp cores fresh input = Some result
    /\ sorts_to cmp input result.
Proof.
  intros Hbound Hfresh. unfold parallel_natural_merge_sort.
  rewrite wrap_small by size_t_bounds.
  set (spawn := Z.min cores (Z.of_nat (length input) / MINIMUM_THREAD_LOAD)).
  destruct (Z.ltb_spec spawn 2) as [Hfew|Hmany].
  - rewrite natural_merge_sort_spec by assumption.
    eexists. split; [reflexivity | apply sorts_to_sorted_output].
  - rewrite option_guard_True by exact Hfresh. cbn [mbind option_bind].
    unfold std_copy. rewrite range_whole. cbn [mbind option_bind].
    rewrite store_spec by lia. cbn [mbind option_bind].
    change (Z.to_nat 0) with 0%nat. rewrite stored_whole by lia.
    assert (Hspawn : spawn <= Z.of_nat (length input)).
    { unfold spawn, MINIMUM_THREAD_LOAD.
      assert (Z.of_nat (length input) / Z.shiftl 1 14
              <= Z.of_nat (length input))
        by (apply Z.div_le_upper_bound; [reflexivity |];
            change (Z.shiftl 1 14) with 16384; lia).
      lia. }
    destruct (parallel_impl_spec (Z.to_nat spawn) spawn
                (Z.of_nat (length input)) input [] [])
      as (junk & result & Himpl & _ & Hsorts);
      try lia; try reflexivity.
    rewrite !app_nil_r in Himpl. rewrite Himpl. cbn [mbind option_bind].
    exists result. split; [reflexivity | exact Hsorts].
Qed.

End EntryPoints.

(** ** Observing the queue and the loop *)

Lemma dequeue_all_contents q :
  queue_ok q -> dequeue_all (length (contents q)) q = Some (contents q).
Proof.
  remember (contents q) as l eqn:Hl. revert q Hl.
  induction l as [|x l IH]; intros q Hl Hok; [reflexivity |].
  destruct (dequeue_spec q x l Hok (eq_sym Hl))
    as (q' & Hdeq & Hok' & Hcont' & _).
  cbn [length dequeue_all]. rewrite Hdeq. cbn [mbind option_bind].
  rewrite (IH q' (eq_sym Hcont') Hok'). reflexivity.
Qed.

Section LoopHeads.

Context {A : Type}.
Variable cmp : A -> A -> bool.

Lemma after_rounds_spec (k : nat) :
  forall n (s s' : @scheduler A) runs0 merged pending,
    pass_invariant cmp n s runs0 merged pending ->
    1 <= size (p_queue s) ->
    after_rounds cmp k s = Some s' ->
    capacity (p_queue s') = capacity (p_queue s)
    /\ size (p_queue s') = size (p_queue s) - Z.of_nat k
    /\ 1 <= size (p_queue s')
    /\ queue_ok (p_queue s').
Proof.
  induction k as [|k IH]; intros n s s' runs0 merged pending Hinv Hone Hafter.
  - injection Hafter as <-.
    repeat split; try lia. exact (inv_queue_ok _ _ _ _ _ _ Hinv).
  - cbn [after_rounds] in Hafter.
    destruct (Z.ltb_spec 1 (size (p_queue s))) as [Hgo|]; [| discriminate].
    pose proof (invariant_size cmp _ _ _ _ _ Hinv) as Hsize.
    assert (Hpending : (2 <= length pending)%nat).
    { destruct (inv_phase _ _ _ _ _ _ Hinv) as [[-> _]|Hlong];
        [simpl in Hsize; lia | exact Hlong]. }
    destruct pending as [|a [|b pending]]; [simpl in Hpending; lia.. |].
    destruct (merge_round_spec cmp _ _ _ _ _ _ _ Hinv)
      as (s1 & runs1 & merged1 & pending1 & Hround & Hinv1 & _ & Hsz & Hcap).
    rewrite Hround in Hafter. cbn [mbind option_bind] in Hafter.
    destruct (IH _ _ _ _ _ _ Hinv1 ltac:(lia) Hafter)
      as (Hc & Hs & Hone' & Hok).
    repeat split; [congruence | lia | exact Hone' | exact Hok].
Qed.

(** The loop is left after as many rounds as there are lengths in the
    queue, less one. *)
Lemma after_rounds_complete (k : nat) :
  forall n (s : @scheduler A) runs0 merged pending (fuel : nat),
    pass_invariant cmp n s runs0 merged pending ->
    size (p_queue s) = Z.of_nat (S k) ->
    (k <= fuel)%nat ->
    exists s',
      after_rounds cmp k s = Some s'
      /\ merge_loop cmp fuel s = Some s'
      /\ size (p_queue s') = 1.
Proof.
  induction k as [|k IH];
    intros n s runs0 merged pending fuel Hinv Hsize Hfuel;
    rewrite merge_loop_unfold, Hsize.
  - exists s. repeat split. exact Hsize.
  - destruct (Z.ltb_spec 1 (Z.of_nat (S (S k)))) as [_|Hstop]; [| lia].
    destruct fuel as [|fuel]; [lia |].
    pose proof (invariant_size cmp _ _ _ _ _ Hinv) as Hcount.
    assert (Hpending : (2 <= length pending)%nat).
    { destruct (inv_phase _ _ _ _ _ _ Hinv) as [[-> _]|Hlong];
        [simpl in Hcount; lia | exact Hlong]. }
    destruct pending as [|a [|b pending]]; [simpl in Hpending; lia.. |].
    destruct (merge_round_spec cmp _ _ _ _ _ _ _ Hinv)
      as (s1 & runs1 & merged1 & pending1 & Hround & Hinv1 & _ & Hsz & _).
    destruct (IH _ s1 _ _ _ fuel Hinv1) as (s' & Hafter & Hloop & Hone);
      [lia | lia |].
    exists s'. cbn [after_rounds]. rewrite Hsize.
    destruct (Z.ltb_spec 1 (Z.of_nat (S (S k)))) as [_|Hstop]; [| lia].
    rewrite Hround. cbn [mbind option_bind].
    split; [exact Hafter |]. split; [exact Hloop | exact Hone].
Qed.

End LoopHeads.

(** ** The comparators of the examples *)

Lemma Z_ltb_strict_weak_order : strict_weak_order Z.ltb.
Proof.
  constructor.
  - intros x. apply Z.ltb_irrefl.
  - intros x y z Hxy Hyz. apply Z.ltb_lt in Hxy, Hyz. apply Z.ltb_lt. lia.
  - intros x y z. unfold equivalent.
    destruct (Z.ltb_spec x y), (Z.ltb_spec y x), (Z.ltb_spec y z),
      (Z.ltb_spec z y), (Z.ltb_spec x z), (Z.ltb_spec z x);
      simpl; intros; try discriminate; try reflexivity; lia.
Qed.

Lemma key_less_strict_weak_order : strict_weak_order key_less.
Proof.
  unfold key_less. constructor.
  - intros x. apply Z.ltb_irrefl.
  - intros x y z Hxy Hyz. apply Z.ltb_lt in Hxy, Hyz. apply Z.ltb_lt. lia.
  - intros x y z. unfold equivalent.
    destruct (Z.ltb_spec (fst x) (fst y)), (Z.ltb_spec (fst y) (fst x)),
      (Z.ltb_spec (fst y) (fst z)), (Z.ltb_spec (fst z) (fst y)),
      (Z.ltb_spec (fst x) (fst z)), (Z.ltb_spec (fst z) (fst x));
      simpl; intros; try discriminate; try reflexivity; lia.
Qed.

Lemma sorted_std_is_sorted {A} (cmp : A -> A -> bool) (l : list A) :
  sorted cmp l -> std_is_sorted cmp l = true.
Proof.
  induction 1 as [|x l Hs IH Hall]; [reflexivity |].
  destruct l as [|y l]; [reflexivity |].
  change (std_is_sorted cmp (x :: y :: l))
    with (negb (cmp y x) && std_is_sorted cmp (y :: l)).
  rewrite IH. apply Forall_cons_1 in Hall as [Hy _].
  unfold not_after in Hy. now rewrite Hy.
Qed.

(** ** Scenarios of the specification *)

(** Sorting a sorted range gives the range. *)
Lemma sorted_output_of_sorted {A} (cmp : A -> A -> bool) (input : list A) :
  strict_weak_order cmp -> sorted cmp input ->
  sorted_output cmp input = input.
Proof.
  intros order Hsorted. symmetry.
  apply (sorted_output_unique cmp order); [exact Hsorted |].
  apply same_order_refl.
Qed.

Example ascending_then_descending :
  natural_merge_sort Z.ltb (replicate 8 0) [0; 1; 2; 3; 4; 3; 2; 1]
  = Some [0; 1; 1; 2; 2; 3; 3; 4].
Proof. reflexivity. Qed.

Example ranges_of_length_0_and_1 :
  natural_merge_sort Z.ltb [] [] = Some []
  /\ natural_merge_sort Z.ltb [] [7] = Some [7]
  /\ parallel_natural_merge_sort Z.ltb 4 [] [] = Some []
  /\ parallel_natural_merge_sort Z.ltb 4 [] [7] = Some [7].
Proof. repeat split. Qed.

Example three_runs_and_an_orphan :
  (q ← snd <$> build_run_size_queue Z.ltb [1; 2; 1; 2; 1; 2; 1];
   dequeue_all 4 q) = Some [2; 2; 2; 1]
  /\ natural_merge_sort Z.ltb (replicate 7 0) [1; 2; 1; 2; 1; 2; 1]
     = Some [1; 1; 1; 1; 2; 2; 2].
Proof. split; vm_compute; reflexivity. Qed.

(** The wrapper itself, on quotas that take each of its three branches. *)
Example wrapper_quotas :
  let data := [3; 1; 2; 0; 5; 4; 7; 7; 1] in
  snd <$> parallel_natural_merge_sort_impl Z.ltb 5 data data 9 1
  = Some [0; 1; 1; 2; 3; 4; 5; 7; 7]
  /\ snd <$> parallel_natural_merge_sort_impl Z.ltb 5 data data 9 2
     = Some [0; 1; 1; 2; 3; 4; 5; 7; 7]
  /\ snd <$> parallel_natural_merge_sort_impl Z.ltb 5 data data 9 5
     = Some [0; 1; 1; 2; 3; 4; 5; 7; 7].
Proof. repeat split. Qed.

(** * The claims *)

(** C1: for every input and every comparator that is a strict weak order,
    the range that either entry point leaves is non-decreasing under the
    comparator: no element comes before an earlier one, and
    [std::is_sorted] holds of it. *)
Theorem C1_output_is_sorted {A : Type} (cmp : A -> A -> bool) (cores : Z)
    (fresh input : list A) :
  strict_weak_order cmp ->
  Z.of_nat (length input) < 2 ^ size_t_bits ->
  length fresh = length input ->
  (exists output,
      natural_merge_sort cmp fresh input = Some output
      /\ sorted cmp output /\ std_is_sorted cmp output = true)
  /\ (exists output,
         parallel_natural_merge_sort cmp cores fresh input = Some output
         /\ sorted cmp output /\ std_is_sorted cmp output = true).
Proof.
  intros order Hbound Hfresh.
  pose proof (sorted_output_sorted cmp order input) as Hsorted.
  split.
  - exists (sorted_output cmp input).
    split; [now apply natural_merge_sort_spec |].
    split; [exact Hsorted | now apply sorted_std_is_sorted].
  - destruct (parallel_natural_merge_sort_spec cmp cores fresh input
                Hbound Hfresh) as (output & Hrun & _ & Hout).
    exists output. rewrite (Hout order).
    split; [now rewrite <- (Hout order) |].
    split; [exact Hsorted | now apply sorted_std_is_sorted].
Qed.

Lemma C1_output_is_sorted_witness :
  strict_weak_order Z.ltb
  /\ Z.of_nat (length [3; 1; 2; 1]) < 2 ^ size_t_bits
  /\ length [0; 0; 0; 0] = length [3; 1; 2; 1]
  /\ (exists output,
         natural_merge_sort Z.ltb [0; 0; 0; 0] [3; 1; 2; 1] = Some output
         /\ sorted Z.ltb output /\ std_is_sorted Z.ltb output = true)
  /\ (exists output,
         parallel_natural_merge_sort Z.ltb 8 [0; 0; 0; 0] [3; 1; 2; 1]
         = Some output
         /\ sorted Z.ltb output /\ std_is_sorted Z.ltb output = true).
Proof.
  split; [exact Z_ltb_strict_weak_order |].
  split; [reflexivity |]. split; [reflexivity |].
  apply (C1_output_is_sorted Z.ltb 8 [0; 0; 0; 0] [3; 1; 2; 1]);
    [exact Z_ltb_strict_weak_order | reflexivity | reflexivity].
Defined.

(** C2: for every input and every comparator, the caller's range after
    either entry point holds the elements it held before, each as often
    as before, and has the length it had. *)
Theorem C2_output_is_permutation {A : Type} (cmp : A -> A -> bool) (cores : Z)
    (fresh input : list A) :
  Z.of_nat (length input) < 2 ^ size_t_bits ->
  length fresh = length input ->
  (exists output,
      natural_merge_sort cmp fresh input = Some output
      /\ Permutation output input /\ length output = length input)
  /\ (exists output,
         parallel_natural_merge_sort cmp cores fresh input = Some output
         /\ Permutation output input /\ length output = length input).
Proof.
  intros Hbound Hfresh. split.
  - exists (sorted_output cmp input).
    split; [now apply natural_merge_sort_spec |].
    split; [apply sorted_output_permutation | apply sorted_output_length].
  - destruct (parallel_natural_merge_sort_spec cmp cores fresh input
                Hbound Hfresh) as (output & Hrun & Hperm & _).
    exists output. split; [exact Hrun |].
    split; [exact Hperm | now apply Permutation_length].
Qed.

Lemma C2_output_is_permutation_witness :
  Z.of_nat (length [3; 1; 2; 1]) < 2 ^ size_t_bits
  /\ length [0; 0; 0; 0] = length [3; 1; 2; 1]
  /\ (exists output,
         natural_merge_sort Z.ltb [0; 0; 0; 0] [3; 1; 2; 1] = Some output
         /\ Permutation output [3; 1; 2; 1]
         /\ length output = length [3; 1; 2; 1])
  /\ (exists output,
         parallel_natural_merge_sort Z.ltb 8 [0; 0; 0; 0] [3; 1; 2; 1]
         = Some output
         /\ Permutation output [3; 1; 2; 1]
         /\ length output = length [3; 1; 2; 1]).
Proof.
  split; [reflexivity |]. split; [reflexivity |].
  apply (C2_output_is_permutation Z.ltb 8 [0; 0; 0; 0] [3; 1; 2; 1]);
    reflexivity.
Defined.

(** C3: both entry points are stable.  For every input and every
    comparator (a strict weak order, as the data model has it), the
    elements equivalent to any given element, those for which the
    comparator is false both ways, come in the output in the order they
    had in the input; and sorting (3,a) (1,b) (3,c) (2,d) by the key gives
    (1,b) (2,d) (3,a) (3,c). *)
Theorem C3_sort_is_stable {A : Type} (cmp : A -> A -> bool) (cores : Z)
    (fresh input : list A) (labels : list (Z * string)) :
  strict_weak_order cmp ->
  Z.of_nat (length input) < 2 ^ size_t_bits ->
  length fresh = length input ->
  length labels = length labelled_input ->
  (exists output,
      natural_merge_sort cmp fresh input = Some output
      /\ same_order_of_equivalents cmp output input)
  /\ (exists output,
         parallel_natural_merge_sort cmp cores fresh input = Some output
         /\ same_order_of_equivalents cmp output input)
  /\ natural_merge_sort key_less labels labelled_input
     = Some labelled_output
  /\ parallel_natural_merge_sort key_less cores labels labelled_input
     = Some labelled_output.
Proof.
  intros order Hbound Hfresh Hlabels.
  pose proof (sorted_output_stable cmp order input) as Hstable.
  assert (Hscenario : sorted_output key_less labelled_input = labelled_output)
    by reflexivity.
  split; [| split; [| split]].
  - exists (sorted_output cmp input).
    split; [now apply natural_merge_sort_spec | exact Hstable].
  - destruct (parallel_natural_merge_sort_spec cmp cores fresh input
                Hbound Hfresh) as (output & Hrun & _ & Hout).
    exists output. split; [exact Hrun |]. now rewrite (Hout order).
  - rewrite natural_merge_sort_spec by (try exact Hlabels; reflexivity).
    now rewrite Hscenario.
  - destruct (parallel_natural_merge_sort_spec key_less cores labels
                labelled_input) as (output & Hrun & _ & Hout);
      [reflexivity | exact Hlabels |].
    rewrite Hrun, (Hout key_less_strict_weak_order). now rewrite Hscenario.
Qed.

Lemma C3_sort_is_stable_witness :
  strict_weak_order key_less
  /\ Z.of_nat (length labelled_input) < 2 ^ size_t_bits
  /\ length labelled_input = length labelled_input
  /\ length labelled_input = length labelled_input
  /\ ((exists output,
          natural_merge_sort key_less labelled_input labelled_input
          = Some output
          /\ same_order_of_equivalents key_less output labelled_input)
      /\ (exists output,
             parallel_natural_merge_sort key_less 4 labelled_input
               labelled_input = Some output
             /\ same_order_of_equivalents key_less output labelled_input)
      /\ natural_merge_sort key_less labelled_input labelled_input
         = Some labelled_output
      /\ parallel_natural_merge_sort key_less 4 labelled_input labelled_input
         = Some labelled_output).
Proof.
  split; [exact key_less_strict_weak_order |].
  split; [reflexivity |]. split; [reflexivity |]. split; [reflexivity |].
  apply (C3_sort_is_stable key_less 4 labelled_input labelled_input
           labelled_input);
    [exact key_less_strict_weak_order | reflexivity | reflexivity
    | reflexivity].
Defined.

(** C4: for every input and every comparator that is a strict weak order,
    the sequential and the parallel entry point leave the same sequence in
    the caller's range, element by element, whatever number of cores the
    parallel one finds and whatever the new buffers hold. *)
Theorem C4_sequential_parallel_agree {A : Type} (cmp : A -> A -> bool)
    (cores : Z) (fresh fresh' input : list A) :
  strict_weak_order cmp ->
  Z.of_nat (length input) < 2 ^ size_t_bits ->
  length fresh = length input ->
  length fresh' = length input ->
  exists output,
    natural_merge_sort cmp fresh input = Some output
    /\ parallel_natural_merge_sort cmp cores fresh' input = Some output.
Proof.
  intros order Hbound Hfresh Hfresh'.
  destruct (parallel_natural_merge_sort_spec cmp cores fresh' input
              Hbound Hfresh') as (output & Hrun & _ & Hout).
  exists output. split; [| exact Hrun].
  rewrite (Hout order). now apply natural_merge_sort_spec.
Qed.

Lemma C4_sequential_parallel_agree_witness :
  strict_weak_order Z.ltb
  /\ Z.of_nat (length [3; 1; 2; 1]) < 2 ^ size_t_bits
  /\ length [0; 0; 0; 0] = length [3; 1; 2; 1]
  /\ length [7; 7; 7; 7] = length [3; 1; 2; 1]
  /\ (exists output,
         natural_merge_sort Z.ltb [0; 0; 0; 0] [3; 1; 2; 1] = Some output
         /\ parallel_natural_merge_sort Z.ltb 8 [7; 7; 7; 7] [3; 1; 2; 1]
            = Some output).
Proof.
  split; [exact Z_ltb_strict_weak_order |].
  split; [reflexivity |]. split; [reflexivity |]. split; [reflexivity |].
  apply (C4_sequential_parallel_agree Z.ltb 8 [0; 0; 0; 0] [7; 7; 7; 7]
           [3; 1; 2; 1]);
    [exact Z_ltb_strict_weak_order | reflexivity | reflexivity | reflexivity].
Defined.

(** C5: on a range of two elements or more the scheduler has the pass
    count, [get_pass_amount] of the number of runs, before the loop is
    entered; the input is copied to the auxiliary buffer, which becomes the
    source, exactly when the count is odd, and otherwise the buffer is left
    as it was; the loop ends with one length in the queue, and then the
    pointer to the merged data is the caller's range, which holds the
    elements of the input, sorted when the comparator is a strict weak
    order. *)
Theorem C5_result_lands_in_input {A : Type} (cmp : A -> A -> bool)
    (input scratch : list A) :
  (2 <= length input)%nat ->
  Z.of_nat (length input) < 2 ^ size_t_bits ->
  length scratch = length input ->
  exists scanned q merge_passes s0 s_end,
    build_run_size_queue cmp input = Some (scanned, q)
    /\ get_pass_amount (size q) = Some merge_passes
    /\ schedule cmp input scratch = Some s0
    /\ p_queue s0 = q /\ input_range s0 = scanned
    /\ (if Z.odd merge_passes
        then source s0 = Scratch /\ target s0 = Input
             /\ scratch_range s0 = scanned
        else source s0 = Input /\ target s0 = Scratch
             /\ scratch_range s0 = scratch)
    /\ merge_loop cmp (length input) s0 = Some s_end
    /\ size (p_queue s_end) = 1
    /\ source s_end = Input
    /\ pointee s_end (source s_end) = input_range s_end
    /\ Permutation (input_range s_end) input
    /\ (strict_weak_order cmp -> sorted cmp (input_range s_end))
    /\ natural_merge_sort_impl cmp input scratch
       = Some (input_range s_end, scratch_range s_end).
Proof.
  intros Hlen Hbound Hscratch.
  destruct (schedule_spec cmp input scratch Hlen Hbound Hscratch)
    as (s0 & q & Hbuild & Hpass & Hsched & Hq & Hin & Hcopy & Hinv).
  set (runs := map (settle cmp) (runs_of cmp input)) in *.
  destruct (merge_loop_spec cmp (length input) _ s0 runs [] runs Hinv)
    as (s_end & Hloop & Hfin & _ & _).
  { cbn [length]. unfold runs. rewrite length_map.
    pose proof (runs_with_count cmp (length input) input) as Hc.
    fold (runs_of cmp input) in Hc.
    assert ((Z.of_nat (length input) + 1) / 2 <= Z.of_nat (length input))
      by (apply Z.div_le_upper_bound; lia).
    lia. }
  pose proof (merge_all_length cmp runs) as Hone.
  pose proof (inv_length_source _ _ _ _ _ _ Hfin) as Hall.
  assert (Hsingle : length (merge_all cmp runs) = 1%nat).
  { destruct (merge_all cmp runs) as [|run [|run' rest]];
      [simpl in Hall; lia | reflexivity | simpl in Hone; lia]. }
  assert (Hsource : source s_end = Input).
  { apply (inv_parity _ _ _ _ _ _ Hfin). now rewrite Hsingle. }
  pose proof (inv_source _ _ _ _ _ _ Hfin) as Hdata.
  rewrite Hsource in Hdata. cbn [pointee] in Hdata.
  exists (concat runs), q, (Z.log2_up (Z.of_nat (length runs))), s0, s_end.
  split; [exact Hbuild |]. split; [exact Hpass |]. split; [exact Hsched |].
  split; [exact Hq |]. split; [exact Hin |]. split; [exact Hcopy |].
  split; [exact Hloop |].
  split; [rewrite (invariant_size cmp _ _ _ _ _ Hfin), Hsingle; reflexivity |].
  split; [exact Hsource |].
  split; [now rewrite Hsource |].
  fold (sorted_output cmp input) in Hdata.
  split; [rewrite Hdata; apply sorted_output_permutation |].
  split; [intros order; rewrite Hdata; now apply sorted_output_sorted |].
  unfold natural_merge_sort_impl.
  rewrite wrap_small by size_t_bounds.
  destruct (Z.ltb_spec (Z.of_nat (length input)) 2) as [Hshort|_]; [lia |].
  rewrite Hsched. cbn [mbind option_bind].
  rewrite Hloop. reflexivity.
Qed.

Lemma C5_result_lands_in_input_witness :
  (2 <= length [3; 1; 2; 1; 0])%nat
  /\ Z.of_nat (length [3; 1; 2; 1; 0]) < 2 ^ size_t_bits
  /\ length [9; 9; 9; 9; 9] = length [3; 1; 2; 1; 0]
  /\ (exists scanned q merge_passes s0 s_end,
         build_run_size_queue Z.ltb [3; 1; 2; 1; 0] = Some (scanned, q)
         /\ get_pass_amount (size q) = Some merge_passes
         /\ schedule Z.ltb [3; 1; 2; 1; 0] [9; 9; 9; 9; 9] = Some s0
         /\ p_queue s0 = q /\ input_range s0 = scanned
         /\ (if Z.odd merge_passes
             then source s0 = Scratch /\ target s0 = Input
                  /\ scratch_range s0 = scanned
             else source s0 = Input /\ target s0 = Scratch
                  /\ scratch_range s0 = [9; 9; 9; 9; 9])
         /\ merge_loop Z.ltb (length [3; 1; 2; 1; 0]) s0 = Some s_end
         /\ size (p_queue s_end) = 1
         /\ source s_end = Input
         /\ pointee s_end (source s_end) = input_range s_end
         /\ Permutation (input_range s_end) [3; 1; 2; 1; 0]
         /\ (strict_weak_order Z.ltb -> sorted Z.ltb (input_range s_end))
         /\ natural_merge_sort_impl Z.ltb [3; 1; 2; 1; 0] [9; 9; 9; 9; 9]
            = Some (input_range s_end, scratch_range s_end)).
Proof.
  split; [simpl; lia |]. split; [reflexivity |]. split; [reflexivity |].
  apply (C5_result_lands_in_input Z.ltb [3; 1; 2; 1; 0] [9; 9; 9; 9; 9]);
    [simpl; lia | reflexivity | reflexivity].
Defined.

(** C6: on a range of two elements or more, whatever the comparator, the
    scanner returns a queue from which the calls of [dequeue] return the
    lengths of the runs of the range in the order the runs lie in it, left
    to right: the runs, put one after the other, are the range; and the
    lengths that were enqueued add up to the length of the range. *)
Theorem C6_queue_lists_runs {A : Type} (cmp : A -> A -> bool)
    (arr : list A) :
  (2 <= length arr)%nat ->
  Z.of_nat (length arr) < 2 ^ size_t_bits ->
  exists scanned q,
    build_run_size_queue cmp arr = Some (scanned, q)
    /\ dequeue_all (Z.to_nat (size q)) q
       = Some (run_lengths (runs_of cmp arr))
    /\ contents q = run_lengths (runs_of cmp arr)
    /\ concat (runs_of cmp arr) = arr
    /\ Forall (is_run cmp) (runs_of cmp arr)
    /\ fold_right Z.add 0 (contents q) = Z.of_nat (length arr).
Proof.
  intros Hlen Hbound.
  destruct (build_run_size_queue_spec cmp arr)
    as (q & Hbuild & Hok & Hcont & _); [lia | exact Hbound |].
  assert (Hconcat : concat (runs_of cmp arr) = arr)
    by (unfold runs_of; now rewrite runs_with_concat by lia).
  exists (concat (map (settle cmp) (runs_of cmp arr))), q.
  split; [exact Hbuild |].
  split.
  { pose proof (queue_ok_size _ Hok) as Hq.
    rewrite size_contents by (unfold size in Hq; lia).
    rewrite Nat2Z.id, <- Hcont. now apply dequeue_all_contents. }
  split; [exact Hcont |]. split; [exact Hconcat |].
  split; [apply runs_with_is_run |].
  now rewrite Hcont, run_lengths_sum, Hconcat.
Qed.

Lemma C6_queue_lists_runs_witness :
  (2 <= length [1; 1; 3; 2; 2; 1; 0; 5; 5; 4; 6])%nat
  /\ Z.of_nat (length [1; 1; 3; 2; 2; 1; 0; 5; 5; 4; 6]) < 2 ^ size_t_bits
  /\ (exists scanned q,
         build_run_size_queue Z.ltb [1; 1; 3; 2; 2; 1; 0; 5; 5; 4; 6]
         = Some (scanned, q)
         /\ dequeue_all (Z.to_nat (size q)) q
            = Some (run_lengths
                      (runs_of Z.ltb [1; 1; 3; 2; 2; 1; 0; 5; 5; 4; 6]))
         /\ contents q
            = run_lengths (runs_of Z.ltb [1; 1; 3; 2; 2; 1; 0; 5; 5; 4; 6])
         /\ concat (runs_of Z.ltb [1; 1; 3; 2; 2; 1; 0; 5; 5; 4; 6])
            = [1; 1; 3; 2; 2; 1; 0; 5; 5; 4; 6]
         /\ Forall (is_run Z.ltb)
              (runs_of Z.ltb [1; 1; 3; 2; 2; 1; 0; 5; 5; 4; 6])
         /\ fold_right Z.add 0 (contents q)
            = Z.of_nat (length [1; 1; 3; 2; 2; 1; 0; 5; 5; 4; 6])).
Proof.
  split; [simpl; lia |]. split; [reflexivity |].
  apply (C6_queue_lists_runs Z.ltb [1; 1; 3; 2; 2; 1; 0; 5; 5; 4; 6]);
    [simpl; lia | reflexivity].
Defined.

(** C7, as stated, fails: the queue of the scanner does not give 5 and
    then 4 for [5,4,3,2,1,2,3,4]. *)
Lemma C7_lengths_five_four_counterexample :
  ~ (exists scanned q,
        build_run_size_queue Z.ltb descending_then_ascending
        = Some (scanned, q)
        /\ dequeue_all 2 q = Some [5; 4]).
Proof.
  intros (scanned & q & Hbuild & Hdequeue).
  vm_compute in Hbuild. injection Hbuild as <- <-.
  vm_compute in Hdequeue. discriminate.
Qed.

(** C7, amended: on [5,4,3,2,1,2,3,4] under the ascending comparator the
    scanner finds one strictly descending run of 5 elements followed by one
    ascending run of 3 elements, the queue gives 5 and then 3, and the
    range after the in-place reversal, [1,2,3,4,5,2,3,4], has the
    equivalent elements of the input in the order of the input. *)
Theorem C7_descending_then_ascending :
  exists q,
    build_run_size_queue Z.ltb descending_then_ascending
    = Some ([1; 2; 3; 4; 5; 2; 3; 4], q)
    /\ runs_of Z.ltb descending_then_ascending
       = [[5; 4; 3; 2; 1]; [2; 3; 4]]
    /\ descending_run Z.ltb [5; 4; 3; 2; 1]
    /\ ascending_run Z.ltb [2; 3; 4]
    /\ size q = 2
    /\ dequeue_all 2 q = Some [5; 3]
    /\ same_order_of_equivalents Z.ltb [1; 2; 3; 4; 5] [5; 4; 3; 2; 1]
    /\ same_order_of_equivalents Z.ltb [1; 2; 3; 4; 5; 2; 3; 4]
         descending_then_ascending.
Proof.
  assert (Hdesc : descending_run Z.ltb [5; 4; 3; 2; 1])
    by (repeat constructor).
  assert (Hrev : same_order_of_equivalents Z.ltb [1; 2; 3; 4; 5]
                   [5; 4; 3; 2; 1])
    by exact (descending_run_reverse_stable Z.ltb Z_ltb_strict_weak_order
                [5; 4; 3; 2; 1] Hdesc).
  eexists. split; [vm_compute; reflexivity |].
  split; [reflexivity |]. split; [exact Hdesc |].
  split; [repeat constructor |].
  split; [reflexivity |]. split; [vm_compute; reflexivity |].
  split; [exact Hrev |].
  exact (same_order_app Z.ltb [1; 2; 3; 4; 5] [5; 4; 3; 2; 1]
           [2; 3; 4] [2; 3; 4] Hrev (same_order_refl Z.ltb [2; 3; 4])).
Qed.

(** C8, as stated, fails: right after the scan of the 511 elements of
    [zigzag 255] the queue holds 256 lengths and has 256 slots, so its
    capacity is not one more than the number of pending lengths. *)
Lemma C8_spare_slot_counterexample :
  exists scanned q,
    length (zigzag 255) = 511%nat
    /\ build_run_size_queue Z.ltb (zigzag 255) = Some (scanned, q)
    /\ size q = 256
    /\ capacity q = 256
    /\ ~ (size q + 1 <= capacity q).
Proof.
  eexists _, _. split; [reflexivity |].
  split; [vm_compute; reflexivity |].
  split; [reflexivity |]. split; [reflexivity |].
  unfold size, capacity. simpl. lia.
Qed.

(** C8, amended: throughout a sequential sort of a range of [n >= 2]
    elements the capacity of the queue is a power of two that is at least
    the number of pending lengths.  The scan leaves at most
    [floor(n/2) + 1] lengths, which is at most the capacity; the state in
    which the loop condition is tested after [k] rounds has the same
    capacity and [k] lengths fewer, and at least one; the loop is left
    after as many rounds as the scan left lengths, less one.  Every
    [enqueue] finds a free slot and every [dequeue] a pending length: the
    sort, whose calls of the queue go through the contract, returns. *)
Theorem C8_queue_within_capacity {A : Type} (cmp : A -> A -> bool)
    (input scratch : list A) :
  (2 <= length input)%nat ->
  Z.of_nat (length input) < 2 ^ size_t_bits ->
  length scratch = length input ->
  exists scanned q s0,
    build_run_size_queue cmp input = Some (scanned, q)
    /\ schedule cmp input scratch = Some s0
    /\ p_queue s0 = q
    /\ is_power_of_two (capacity q)
    /\ 1 <= size q <= Z.of_nat (length input) / 2 + 1
    /\ Z.of_nat (length input) / 2 + 1 <= capacity q
    /\ (forall k s,
           after_rounds cmp k s0 = Some s ->
           capacity (p_queue s) = capacity q
           /\ size (p_queue s) = size q - Z.of_nat k
           /\ 1 <= size (p_queue s) <= capacity (p_queue s))
    /\ (exists s_end,
           after_rounds cmp (Z.to_nat (size q - 1)) s0 = Some s_end
           /\ merge_loop cmp (length input) s0 = Some s_end
           /\ size (p_queue s_end) = 1)
    /\ (exists result,
           natural_merge_sort_impl cmp input scratch = Some result).
Proof.
  intros Hlen Hbound Hscratch.
  destruct (schedule_spec cmp input scratch Hlen Hbound Hscratch)
    as (s0 & q & Hbuild & _ & Hsched & Hq & _ & _ & Hinv).
  destruct (build_run_size_queue_spec cmp input)
    as (q' & Hbuild' & Hok & Hcont & Hcap); [lia | exact Hbound |].
  rewrite Hbuild in Hbuild'. injection Hbuild' as <-.
  assert (Hsize : size q = Z.of_nat (length (runs_of cmp input))).
  { pose proof (queue_ok_size _ Hok) as Hqs.
    rewrite size_contents by (unfold size in Hqs; lia).
    now rewrite Hcont, run_lengths_length. }
  assert (Hruns : 1 <= Z.of_nat (length (runs_of cmp input))
                  <= Z.of_nat (length input) / 2 + 1).
  { split.
    - assert (runs_of cmp input <> []) as Hne
        by (apply runs_of_nonempty; destruct input;
            [simpl in Hlen; lia | discriminate]).
      destruct (runs_of cmp input); [congruence | simpl; lia].
    - pose proof (runs_with_count cmp (length input) input) as Hc.
      fold (runs_of cmp input) in Hc.
      assert ((Z.of_nat (length input) + 1) / 2
              <= Z.of_nat (length input) / 2 + 1).
      { replace (Z.of_nat (length input) / 2 + 1)
          with ((Z.of_nat (length input) + 1 * 2) / 2)
          by (rewrite Z.div_add; lia).
        apply Z.div_le_mono; lia. }
      lia. }
  exists (concat (map (settle cmp) (runs_of cmp input))), q, s0.
  split; [exact Hbuild |]. split; [exact Hsched |]. split; [exact Hq |].
  split; [now apply queue_ok_power_of_two |].
  split; [rewrite Hsize; exact Hruns |].
  split; [exact Hcap |].
  split; [| split].
  - intros k s Hafter.
    destruct (after_rounds_spec cmp k _ s0 s _ _ _ Hinv)
      as (Hc & Hs & Hone & Hoks);
      [rewrite Hq, Hsize; lia | exact Hafter |].
    rewrite Hq in Hc, Hs.
    pose proof (queue_ok_size _ Hoks) as Hqs.
    split; [exact Hc |]. split; [exact Hs |]. split; [exact Hone | lia].
  - assert (Hhalf : Z.of_nat (length input) / 2 + 1
                    <= Z.of_nat (length input)).
    { assert (Z.of_nat (length input) / 2 * 2 <= Z.of_nat (length input))
        by (rewrite Z.mul_comm; apply Z.mul_div_le; lia).
      assert (1 <= Z.of_nat (length input) / 2)
        by (apply Z.div_le_lower_bound; lia).
      lia. }
    apply (after_rounds_complete cmp _ _ s0 _ _ _ _ Hinv);
      [rewrite Hq, Hsize | rewrite Hsize]; lia.
  - destruct (natural_merge_sort_impl_spec cmp input scratch Hbound Hscratch)
      as (scratch' & Hrun & _).
    eexists. exact Hrun.
Qed.

Lemma C8_queue_within_capacity_witness :
  (2 <= length (zigzag 3))%nat
  /\ Z.of_nat (length (zigzag 3)) < 2 ^ size_t_bits
  /\ length (zigzag 3) = length (zigzag 3)
  /\ (exists scanned q s0,
         build_run_size_queue Z.ltb (zigzag 3) = Some (scanned, q)
         /\ schedule Z.ltb (zigzag 3) (zigzag 3) = Some s0
         /\ p_queue s0 = q
         /\ is_power_of_two (capacity q)
         /\ 1 <= size q <= Z.of_nat (length (zigzag 3)) / 2 + 1
         /\ Z.of_nat (length (zigzag 3)) / 2 + 1 <= capacity q
         /\ (forall k s,
                after_rounds Z.ltb k s0 = Some s ->
                capacity (p_queue s) = capacity q
                /\ size (p_queue s) = size q - Z.of_nat k
                /\ 1 <= size (p_queue s) <= capacity (p_queue s))
         /\ (exists s_end,
                after_rounds Z.ltb (Z.to_nat (size q - 1)) s0 = Some s_end
                /\ merge_loop Z.ltb (length (zigzag 3)) s0 = Some s_end
                /\ size (p_queue s_end) = 1)
         /\ (exists result,
                natural_merge_sort_impl Z.ltb (zigzag 3) (zigzag 3)
                = Some result)).
Proof.
  split; [simpl; lia |]. split; [reflexivity |]. split; [reflexivity |].
  apply (C8_queue_within_capacity Z.ltb (zigzag 3) (zigzag 3));
    [simpl; lia | reflexivity | reflexivity].
Defined.

(** C9: for every run count [r] from 1 to the largest [size_t],
    [get_pass_amount r] is the least [p] with [r <= 2^p], the ceiling of
    the binary logarithm of [r]; it is 0 for one run. *)
Theorem C9_pass_amount_is_ceil_log2 (r : Z) :
  1 <= r < 2 ^ size_t_bits ->
  exists p,
    get_pass_amount r = Some p
    /\ p = Z.log2_up r
    /\ 0 <= p
    /\ r <= 2 ^ p
    /\ (0 < p -> 2 ^ (p - 1) < r)
    /\ (r = 1 -> p = 0)
    /\ get_pass_amount 1 = Some 0.
Proof.
  intros Hr. exists (Z.log2_up r).
  split; [now apply get_pass_amount_spec |]. split; [reflexivity |].
  split; [apply Z.log2_up_nonneg |].
  destruct (Z.eq_dec r 1) as [->|Hne].
  - change (Z.log2_up 1) with 0.
    split; [simpl; lia |]. split; [lia |]. split; reflexivity.
  - destruct (Z.log2_up_spec r) as [Hlo Hhi]; [lia |].
    split; [exact Hhi |].
    split; [intros _; now rewrite Z.sub_1_r |].
    split; [intros E; congruence | reflexivity].
Qed.

Lemma C9_pass_amount_is_ceil_log2_witness :
  1 <= 5 < 2 ^ size_t_bits
  /\ (exists p,
         get_pass_amount 5 = Some p
         /\ p = Z.log2_up 5
         /\ 0 <= p
         /\ 5 <= 2 ^ p
         /\ (0 < p -> 2 ^ (p - 1) < 5)
         /\ (5 = 1 -> p = 0)
         /\ get_pass_amount 1 = Some 0).
Proof.
  split; [split; [lia | reflexivity] |].
  apply (C9_pass_amount_is_ceil_log2 5). split; [lia | reflexivity].
Defined.

Lemma runs_with_nil {A} (cmp : A -> A -> bool) fuel :
  runs_with cmp fuel [] = [].
Proof. destruct fuel; reflexivity. Qed.

Lemma descending_extent_full {A} (cmp : A -> A -> bool) (l : list A) :
  forall p, descending_run cmp (p :: l) -> descending_extent cmp p l = length l.
Proof.
  induction l as [|x l IH]; intros p Hrun; [reflexivity |].
  apply Sorted_inv in Hrun as [Hrest Hhead].
  apply HdRel_inv in Hhead. cbn [descending_extent length].
  rewrite Hhead. f_equal. now apply IH.
Qed.

(** A strictly descending range is one run. *)
Lemma runs_of_descending {A} (cmp : A -> A -> bool) (input : list A) :
  (2 <= length input)%nat -> descending_run cmp input ->
  runs_of cmp input = [input]
  /\ settle cmp input = reverse input.
Proof.
  intros Hlen Hrun.
  destruct input as [|x [|y rest]]; [simpl in Hlen; lia.. |].
  pose proof Hrun as Hrun'.
  apply Sorted_inv in Hrun' as [Hrest Hhead]. apply HdRel_inv in Hhead.
  unfold runs_of, settle. cbn [length runs_with]. rewrite Hhead.
  rewrite (descending_extent_full cmp rest y Hrest).
  rewrite firstn_all, drop_all. split; reflexivity.
Qed.

(** C10: a range of two elements or more that is one strictly descending
    run is sorted by the reversal of the scanner alone.  The queue holds
    the one length, the pass count is 0, the input is not copied, the loop
    is left at its first test with whatever fuel, and the auxiliary buffer
    is, at the start of the loop and at the end of the sort, what it was
    when the sort was called, while the caller's range is the reversed
    input, which is sorted when the comparator is a strict weak order. *)
Theorem C10_descending_input_needs_no_merge {A : Type}
    (cmp : A -> A -> bool) (input scratch : list A) :
  descending_run cmp input ->
  (2 <= length input)%nat ->
  Z.of_nat (length input) < 2 ^ size_t_bits ->
  length scratch = length input ->
  exists q s0,
    build_run_size_queue cmp input = Some (reverse input, q)
    /\ contents q = [Z.of_nat (length input)]
    /\ get_pass_amount (size q) = Some 0
    /\ schedule cmp input scratch = Some s0
    /\ source s0 = Input /\ target s0 = Scratch
    /\ input_range s0 = reverse input
    /\ scratch_range s0 = scratch
    /\ (forall fuel, merge_loop cmp fuel s0 = Some s0)
    /\ natural_merge_sort_impl cmp input scratch
       = Some (reverse input, scratch)
    /\ natural_merge_sort cmp scratch input = Some (reverse input)
    /\ (strict_weak_order cmp -> sorted cmp (reverse input)).
Proof.
  intros Hrun Hlen Hbound Hscratch.
  destruct (runs_of_descending cmp input Hlen Hrun) as [Hruns Hsettle].
  destruct (schedule_spec cmp input scratch Hlen Hbound Hscratch)
    as (s0 & q & Hbuild & Hpass & Hsched & Hq & Hin & Hcopy & Hinv).
  rewrite Hruns in Hbuild, Hpass, Hin, Hcopy.
  cbn [map concat length] in Hbuild, Hpass, Hin, Hcopy.
  rewrite Hsettle, app_nil_r in Hbuild, Hin.
  change (Z.log2_up (Z.of_nat 1)) with 0 in Hpass, Hcopy.
  cbn [Z.odd] in Hcopy. destruct Hcopy as (Hsource & Htarget & Hsame).
  pose proof (inv_contents _ _ _ _ _ _ Hinv) as Hcont.
  rewrite Hruns, Hq in Hcont. cbn [map run_lengths app] in Hcont.
  rewrite settle_length in Hcont.
  assert (Hsize : size (p_queue s0) = 1).
  { rewrite (invariant_size cmp _ _ _ _ _ Hinv), Hruns. reflexivity. }
  assert (Hloop : forall fuel, merge_loop cmp fuel s0 = Some s0).
  { intros fuel. rewrite merge_loop_unfold, Hsize. reflexivity. }
  assert (Himpl : natural_merge_sort_impl cmp input scratch
                  = Some (reverse input, scratch)).
  { unfold natural_merge_sort_impl. rewrite wrap_small by size_t_bounds.
    destruct (Z.ltb_spec (Z.of_nat (length input)) 2); [lia |].
    rewrite Hsched. cbn [mbind option_bind].
    rewrite Hloop. cbn [mbind option_bind]. now rewrite Hin, Hsame. }
  exists q, s0.
  split; [exact Hbuild |]. split; [exact Hcont |]. split; [exact Hpass |].
  split; [exact Hsched |]. split; [exact Hsource |].
  split; [exact Htarget |]. split; [exact Hin |]. split; [exact Hsame |].
  split; [exact Hloop |]. split; [exact Himpl |].
  split.
  - unfold natural_merge_sort. rewrite wrap_small by size_t_bounds.
    destruct (Z.ltb_spec (Z.of_nat (length input)) 2); [lia |].
    rewrite option_guard_True by exact Hscratch. cbn [mbind option_bind].
    rewrite Himpl. reflexivity.
  - intros order. now apply descending_run_settles.
Qed.

Lemma C10_descending_input_needs_no_merge_witness :
  descending_run Z.ltb [9; 7; 4; 2]
  /\ (2 <= length [9; 7; 4; 2])%nat
  /\ Z.of_nat (length [9; 7; 4; 2]) < 2 ^ size_t_bits
  /\ length [0; 0; 0; 0] = length [9; 7; 4; 2]
  /\ (exists q s0,
         build_run_size_queue Z.ltb [9; 7; 4; 2]
         = Some (reverse [9; 7; 4; 2], q)
         /\ contents q = [Z.of_nat (length [9; 7; 4; 2])]
         /\ get_pass_amount (size q) = Some 0
         /\ schedule Z.ltb [9; 7; 4; 2] [0; 0; 0; 0] = Some s0
         /\ source s0 = Input /\ target s0 = Scratch
         /\ input_range s0 = reverse [9; 7; 4; 2]
         /\ scratch_range s0 = [0; 0; 0; 0]
         /\ (forall fuel, merge_loop Z.ltb fuel s0 = Some s0)
         /\ natural_merge_sort_impl Z.ltb [9; 7; 4; 2] [0; 0; 0; 0]
            = Some (reverse [9; 7; 4; 2], [0; 0; 0; 0])
         /\ natural_merge_sort Z.ltb [0; 0; 0; 0] [9; 7; 4; 2]
            = Some (reverse [9; 7; 4; 2])
         /\ (strict_weak_order Z.ltb -> sorted Z.ltb (reverse [9; 7; 4; 2]))).
Proof.
  split; [repeat constructor |].
  split; [simpl; lia |]. split; [reflexivity |]. split; [reflexivity |].
  apply (C10_descending_input_needs_no_merge Z.ltb [9; 7; 4; 2]
           [0; 0; 0; 0]);
    [repeat constructor | simpl; lia | reflexivity | reflexivity].
Defined.

(** * Further properties of the code *)

(** ** The queue: capacity, order, and calls outside the contract *)

(** X1: for every requested capacity up to [2^63], [fixCapacity] returns
    the least power of two that is at least the request and at least
    [MINIMUM_CAPACITY]; for a request of 256 or less that is [2^8]. *)
Theorem X1_fixCapacity_least_power_of_two (capacity_ : Z) :
  0 <= capacity_ <= 2 ^ 63 ->
  exists k,
    8 <= k <= 63
    /\ fixCapacity capacity_ = Some (2 ^ k)
    /\ Z.max capacity_ MINIMUM_CAPACITY <= 2 ^ k
    /\ 2 ^ (k - 1) < Z.max capacity_ MINIMUM_CAPACITY
    /\ (capacity_ <= MINIMUM_CAPACITY -> k = 8).
Proof.
  intros Hc. unfold fixCapacity.
  destruct (fixCapacity_loop_spec 65 0 (Z.max capacity_ MINIMUM_CAPACITY))
    as (k & Hk & Hle & Hlow & Heq); try lia.
  { unfold MINIMUM_CAPACITY. change (2 ^ 63) with 9223372036854775808 in *.
    lia. }
  assert (Hk8 : 8 <= k).
  { destruct (Z_le_dec 8 k) as [|Hsmall]; [assumption | exfalso].
    assert (2 ^ k <= 2 ^ 7) by (apply Z.pow_le_mono_r; lia).
    unfold MINIMUM_CAPACITY in Hle. change (2 ^ 7) with 128 in *. lia. }
  destruct Hlow as [Hzero|Hlow]; [lia |].
  exists k. split; [lia |]. split; [exact Heq |]. split; [exact Hle |].
  split; [exact Hlow |].
  intros Hsmall. rewrite Z.max_r in Hlow by exact Hsmall.
  destruct (Z_le_dec k 8) as [|Hbig]; [lia | exfalso].
  assert (2 ^ 8 <= 2 ^ (k - 1)) by (apply Z.pow_le_mono_r; lia).
  unfold MINIMUM_CAPACITY in Hlow. change (2 ^ 8) with 256 in *. lia.
Qed.

Lemma X1_fixCapacity_least_power_of_two_witness :
  0 <= 300 <= 2 ^ 63
  /\ exists k,
       8 <= k <= 63
       /\ fixCapacity 300 = Some (2 ^ k)
       /\ Z.max 300 MINIMUM_CAPACITY <= 2 ^ k
       /\ 2 ^ (k - 1) < Z.max 300 MINIMUM_CAPACITY
       /\ (300 <= MINIMUM_CAPACITY -> k = 8).
Proof.
  split; [lia |].
  apply (X1_fixCapacity_least_power_of_two 300). lia.
Defined.

(** Once [s] has been doubled to zero it stays there, below every
    capacity. *)
Lemma fixCapacity_loop_diverges (fuel : nat) :
  forall s capacity_,
    2 ^ 63 < capacity_ ->
    s = 0 \/ (exists i, 0 <= i <= 63 /\ s = 2 ^ i) ->
    fixCapacity_loop fuel s capacity_ = None.
Proof.
  induction fuel as [|fuel IH]; intros s c Hc Hs; cbn [fixCapacity_loop].
  - destruct Hs as [->|(i & Hi & ->)].
    + destruct (Z.ltb_spec 0 c); [reflexivity | lia].
    + pose proof (pow2_le_63 i Hi).
      destruct (Z.ltb_spec (2 ^ i) c); [reflexivity | lia].
  - destruct Hs as [->|(i & Hi & ->)].
    + destruct (Z.ltb_spec 0 c); [| lia].
      apply IH; [exact Hc | left; reflexivity].
    + pose proof (pow2_le_63 i Hi).
      destruct (Z.ltb_spec (2 ^ i) c); [| lia].
      apply IH; [exact Hc |].
      rewrite Z.shiftl_mul_pow2, Z.pow_1_r by lia.
      destruct (Z.eq_dec i 63) as [->|Hne].
      * left. reflexivity.
      * right. exists (i + 1). split; [lia |].
        rewrite Z.pow_add_r, Z.pow_1_r by lia.
        apply wrap_small.
        assert (2 ^ (i + 1) <= 2 ^ 63) by (apply Z.pow_le_mono_r; lia).
        rewrite Z.pow_add_r, Z.pow_1_r in * by lia.
        change (2 ^ 63) with 9223372036854775808 in *. size_t_bounds.
Qed.

(** X2: for a requested capacity above [2^63] the doubling of
    [fixCapacity] wraps around to zero before it reaches the request, and
    the loop never ends: it outlives every fuel, and the constructor does
    not return. *)
Theorem X2_fixCapacity_never_ends_above_half_range (capacity_ : Z) :
  2 ^ 63 < capacity_ < 2 ^ size_t_bits ->
  fixCapacity capacity_ = None
  /\ create capacity_ = None
  /\ forall fuel,
       fixCapacity_loop fuel 1 (Z.max capacity_ MINIMUM_CAPACITY) = None.
Proof.
  intros Hc.
  assert (Hloop : forall fuel,
             fixCapacity_loop fuel 1 (Z.max capacity_ MINIMUM_CAPACITY)
             = None).
  { intros fuel. apply fixCapacity_loop_diverges; [lia |].
    right. exists 0. split; [lia | reflexivity]. }
  assert (Hfix : fixCapacity capacity_ = None) by apply Hloop.
  split; [exact Hfix |]. split; [| exact Hloop].
  unfold create. rewrite Hfix. reflexivity.
Qed.

Lemma X2_fixCapacity_never_ends_above_half_range_witness :
  2 ^ 63 < 2 ^ 63 + 1 < 2 ^ size_t_bits
  /\ fixCapacity (2 ^ 63 + 1) = None
  /\ create (2 ^ 63 + 1) = None
  /\ forall fuel,
       fixCapacity_loop fuel 1 (Z.max (2 ^ 63 + 1) MINIMUM_CAPACITY) = None.
Proof.
  split; [split; [lia | reflexivity] |].
  apply (X2_fixCapacity_never_ends_above_half_range (2 ^ 63 + 1)).
  split; [lia | reflexivity].
Defined.

(** *** Use within the contract and outside it *)

Lemma in_use_queue_ok q : in_use q -> queue_ok q.
Proof.
  induction 1
    as [c q Hc Hnew | q x q' _ IH Hroom Henq | q x q' _ IH Hsome Hdeq].
  - destruct (create_spec c Hc) as (q0 & Hq0 & Hok & _).
    congruence.
  - destruct (enqueue_spec q x IH Hroom) as (q0 & Hq0 & Hok & _).
    unfold enqueue_in_contract in Hq0.
    rewrite option_guard_True in Hq0 by exact Hroom.
    cbn [mbind option_bind] in Hq0. congruence.
  - pose proof (size_contents q ltac:(unfold size in Hsome; lia)) as Hlen.
    destruct (contents q) as [|y ys] eqn:Hcont;
      [simpl in Hlen; lia |].
    destruct (dequeue_spec q y ys IH Hcont) as (q0 & Hq0 & Hok & _).
    unfold dequeue_in_contract in Hq0.
    rewrite option_guard_True in Hq0 by exact Hsome.
    cbn [mbind option_bind] in Hq0. congruence.
Qed.

Lemma enqueue_kept q x :
  queue_ok q -> size q < capacity q ->
  exists q', enqueue q x = Some q' /\ queue_ok q' /\
             contents q' = contents q ++ [x] /\
             capacity q' = capacity q /\ size q' = size q + 1.
Proof.
  intros Hok Hroom.
  destruct (enqueue_spec q x Hok Hroom) as (q' & Hq' & Hrest).
  unfold enqueue_in_contract in Hq'.
  rewrite option_guard_True in Hq' by exact Hroom.
  exists q'. split; [exact Hq' | exact Hrest].
Qed.

Lemma dequeue_kept q x xs :
  queue_ok q -> contents q = x :: xs ->
  exists q', dequeue q = Some (x, q') /\ queue_ok q' /\
             contents q' = xs /\ capacity q' = capacity q /\
             size q' = size q - 1.
Proof.
  intros Hok Hcont.
  destruct (dequeue_spec q x xs Hok Hcont) as (q' & Hq' & Hrest).
  unfold dequeue_in_contract in Hq'.
  pose proof (queue_ok_size q Hok) as Hsize.
  pose proof (size_contents q ltac:(unfold size in Hsize; lia)) as Hlen.
  rewrite Hcont in Hlen. cbn [length] in Hlen.
  rewrite option_guard_True in Hq' by (unfold size in Hlen; lia).
  exists q'. split; [exact Hq' | exact Hrest].
Qed.

Lemma enqueue_each_kept (elements : list Z) :
  forall q,
    queue_ok q ->
    size q + Z.of_nat (length elements) <= capacity q ->
    exists q',
      enqueue_each elements q = Some q' /\ queue_ok q'
      /\ contents q' = contents q ++ elements
      /\ capacity q' = capacity q
      /\ size q' = size q + Z.of_nat (length elements)
      /\ (in_use q -> in_use q').
Proof.
  induction elements as [|x rest IH]; intros q Hok Hroom.
  - exists q. rewrite app_nil_r. cbn [length enqueue_each].
    split; [reflexivity |]. split; [exact Hok |]. split; [reflexivity |].
    split; [reflexivity |]. split; [lia | tauto].
  - cbn [length] in Hroom.
    destruct (enqueue_kept q x Hok ltac:(lia))
      as (q1 & Henq & Hok1 & Hcont1 & Hcap1 & Hsize1).
    destruct (IH q1 Hok1 ltac:(lia))
      as (q' & Hrest & Hok' & Hcont' & Hcap' & Hsize' & Huse).
    exists q'. cbn [enqueue_each]. rewrite Henq. cbn [mbind option_bind].
    split; [exact Hrest |]. split; [exact Hok' |].
    split; [rewrite Hcont', Hcont1, <- app_assoc; reflexivity |].
    split; [congruence |].
    split; [cbn [length]; lia |].
    intros Hin. apply Huse.
    apply (in_use_enqueue q x q1 Hin); [lia | exact Henq].
Qed.

Lemma dequeue_each_kept (pending : list Z) :
  forall q,
    queue_ok q -> contents q = pending ->
    exists q',
      dequeue_each (length pending) q = Some (pending, q')
      /\ queue_ok q' /\ size q' = 0 /\ capacity q' = capacity q
      /\ (in_use q -> in_use q').
Proof.
  induction pending as [|x rest IH]; intros q Hok Hcont.
  - exists q. pose proof (queue_ok_size q Hok) as Hsize.
    pose proof (size_contents q ltac:(unfold size in Hsize; lia)) as Hlen.
    rewrite Hcont in Hlen.
    split; [reflexivity |]. split; [exact Hok |]. split; [exact Hlen |].
    split; [reflexivity | tauto].
  - destruct (dequeue_kept q x rest Hok Hcont)
      as (q1 & Hdeq & Hok1 & Hcont1 & Hcap1 & Hsize1).
    destruct (IH q1 Hok1 Hcont1) as (q' & Hrest & Hok' & Hzero & Hcap' & Huse).
    exists q'. cbn [length dequeue_each]. rewrite Hdeq.
    cbn [mbind option_bind]. rewrite Hrest. cbn [mbind option_bind].
    split; [reflexivity |]. split; [exact Hok' |]. split; [exact Hzero |].
    split; [congruence |].
    intros Hin. apply Huse.
    pose proof (queue_ok_size q1 Hok1) as Hs1.
    apply (in_use_dequeue q x q1 Hin); [lia | exact Hdeq].
Qed.

(** X3: the queue is first in, first out.  On a queue whose callers kept
    the contract, elements enqueued while there is room for them come out
    of [dequeue] after the elements that were pending and in the order
    they were put in; [size] counts them, the capacity stays, and the
    queue is empty afterwards. *)
Theorem X3_queue_is_first_in_first_out (q : UnsafeIntQueue)
    (elements : list Z) :
  in_use q ->
  size q + Z.of_nat (length elements) <= capacity q ->
  exists pending q_empty q' q'',
    dequeue_each (Z.to_nat (size q)) q = Some (pending, q_empty)
    /\ enqueue_each elements q = Some q'
    /\ size q' = size q + Z.of_nat (length elements)
    /\ capacity q' = capacity q
    /\ dequeue_each (Z.to_nat (size q')) q'
       = Some (pending ++ elements, q'')
    /\ size q'' = 0
    /\ in_use q''.
Proof.
  intros Hin Hroom. pose proof (in_use_queue_ok q Hin) as Hok.
  pose proof (queue_ok_size q Hok) as Hsize.
  pose proof (size_contents q ltac:(unfold size in Hsize; lia)) as Hlen.
  destruct (dequeue_each_kept (contents q) q Hok eq_refl)
    as (q_empty & Hold & _).
  destruct (enqueue_each_kept elements q Hok Hroom)
    as (q' & Henq & Hok' & Hcont' & Hcap' & Hsize' & Huse').
  destruct (dequeue_each_kept (contents q') q' Hok' eq_refl)
    as (q'' & Hnew & _ & Hzero & _ & Huse'').
  exists (contents q), q_empty, q', q''.
  rewrite Hlen, Nat2Z.id. split; [exact Hold |]. split; [exact Henq |].
  split; [lia |]. split; [exact Hcap' |].
  split.
  - rewrite <- Hcont'.
    replace (Z.to_nat (size q')) with (length (contents q')); [exact Hnew |].
    pose proof (queue_ok_size q' Hok') as Hs'.
    rewrite (size_contents q') by (unfold size in Hs'; lia). lia.
  - split; [exact Hzero | auto].
Qed.

Lemma X3_queue_is_first_in_first_out_witness :
  in_use new_queue
  /\ size new_queue + Z.of_nat (length [5; 3; 8]) <= capacity new_queue
  /\ exists pending q_empty q' q'',
       dequeue_each (Z.to_nat (size new_queue)) new_queue
       = Some (pending, q_empty)
       /\ enqueue_each [5; 3; 8] new_queue = Some q'
       /\ size q' = size new_queue + Z.of_nat (length [5; 3; 8])
       /\ capacity q' = capacity new_queue
       /\ dequeue_each (Z.to_nat (size q')) q'
          = Some (pending ++ [5; 3; 8], q'')
       /\ size q'' = 0
       /\ in_use q''.
Proof.
  split; [apply (in_use_new 0); [lia | reflexivity] |].
  split; [vm_compute; discriminate |].
  apply (X3_queue_is_first_in_first_out new_queue [5; 3; 8]);
    [apply (in_use_new 0); [lia | reflexivity] | vm_compute; discriminate].
Defined.

(** X4: [enqueue] does not check for overflow.  On a full queue it
    returns as on any other, [size] is then one more than the capacity,
    and the new element has taken the slot of the oldest pending one: the
    next [dequeue] returns the new element. *)
Theorem X4_enqueue_on_full_queue_overwrites_oldest (q : UnsafeIntQueue)
    (element : Z) :
  in_use q ->
  size q = capacity q ->
  exists oldest q_next q' q'',
    dequeue q = Some (oldest, q_next)
    /\ enqueue q element = Some q'
    /\ size q' = capacity q + 1
    /\ capacity q' = capacity q
    /\ dequeue q' = Some (element, q'').
Proof.
  intros Hin Hfull.
  destruct (in_use_queue_ok q Hin)
    as (k & Hk & Hcap & Hmask & Hhead & Hsize & Htail).
  pose proof (pow2_le_63 k Hk) as Hp.
  change (2 ^ 63) with 9223372036854775808 in Hp.
  unfold size in Hfull.
  assert (Hslot : Z.land (m_tail q) (m_mask q) = m_head q).
  { rewrite Hmask, land_mask, Htail, Z.mod_mod by lia.
    rewrite Hfull, Hcap, Z.add_mod, Z.mod_same, Z.add_0_r, Z.mod_mod by lia.
    apply Z.mod_small. exact Hhead. }
  assert (Hin_range : (Z.to_nat (m_head q) < length (m_buffer q))%nat)
    by (unfold capacity in Hcap; lia).
  destruct (lookup_lt_is_Some_2 _ _ Hin_range) as [oldest Hold].
  exists oldest. unfold dequeue, enqueue. rewrite Hold, Hslot.
  rewrite option_guard_True by exact Hin_range.
  cbn [mbind option_bind].
  do 3 eexists. split; [reflexivity |]. split; [reflexivity |].
  unfold size, capacity. cbn [m_size m_buffer m_head].
  rewrite length_insert, list_lookup_insert_eq by exact Hin_range.
  split; [| split; reflexivity].
  unfold capacity in Hfull, Hcap. rewrite Hfull, Hcap.
  apply wrap_small. size_t_bounds.
Qed.

Lemma in_use_full_queue : in_use full_queue.
Proof.
  destruct (enqueue_each_kept (map Z.of_nat (seq 1 256)) new_queue)
    as (q' & Henq & _ & _ & _ & _ & Huse).
  - apply in_use_queue_ok. apply (in_use_new 0); [lia | reflexivity].
  - vm_compute. discriminate.
  - vm_compute in Henq. injection Henq as <-.
    apply Huse. apply (in_use_new 0); [lia | reflexivity].
Defined.

Lemma X4_enqueue_on_full_queue_overwrites_oldest_witness :
  in_use full_queue
  /\ size full_queue = capacity full_queue
  /\ exists oldest q_next q' q'',
       dequeue full_queue = Some (oldest, q_next)
       /\ enqueue full_queue 7 = Some q'
       /\ size q' = capacity full_queue + 1
       /\ capacity q' = capacity full_queue
       /\ dequeue q' = Some (7, q'').
Proof.
  split; [exact in_use_full_queue |]. split; [reflexivity |].
  apply (X4_enqueue_on_full_queue_overwrites_oldest full_queue 7);
    [exact in_use_full_queue | reflexivity].
Defined.

(** X5: [dequeue] does not check for underflow.  On an empty queue it
    returns whatever the slot at the head holds, and [size] wraps around to
    [2^64 - 1], which is more than the capacity. *)
Theorem X5_dequeue_on_empty_queue_wraps_size (q : UnsafeIntQueue) :
  in_use q ->
  size q = 0 ->
  exists stale q',
    dequeue q = Some (stale, q')
    /\ size q' = 2 ^ size_t_bits - 1
    /\ capacity q' = capacity q
    /\ capacity q' < size q'.
Proof.
  intros Hin Hempty.
  destruct (in_use_queue_ok q Hin)
    as (k & Hk & Hcap & Hmask & Hhead & Hsize & Htail).
  pose proof (pow2_le_63 k Hk) as Hp.
  change (2 ^ 63) with 9223372036854775808 in Hp.
  unfold size in Hempty.
  assert (Hin_range : (Z.to_nat (m_head q) < length (m_buffer q))%nat)
    by (unfold capacity in Hcap; lia).
  destruct (lookup_lt_is_Some_2 _ _ Hin_range) as [stale Hstale].
  exists stale. unfold dequeue. rewrite Hstale. cbn [mbind option_bind].
  eexists. split; [reflexivity |].
  unfold size, capacity in *. cbn [m_size m_buffer]. rewrite Hempty.
  split; [reflexivity |]. split; [reflexivity |].
  rewrite Hcap. change (wrap (0 - 1)) with 18446744073709551615. lia.
Qed.

Lemma X5_dequeue_on_empty_queue_wraps_size_witness :
  in_use new_queue
  /\ size new_queue = 0
  /\ exists stale q',
       dequeue new_queue = Some (stale, q')
       /\ size q' = 2 ^ size_t_bits - 1
       /\ capacity q' = capacity new_queue
       /\ capacity q' < size q'.
Proof.
  split; [apply (in_use_new 0); [lia | reflexivity] |].
  split; [reflexivity |].
  apply (X5_dequeue_on_empty_queue_wraps_size new_queue);
    [apply (in_use_new 0); [lia | reflexivity] | reflexivity].
Defined.

(** ** The bit helpers on every [size_t] *)

(** X6: [leading_zeros] counts the clear bits above the highest set bit
    of a 64-bit number: the count is 64 for zero and for zero only, and
    [2^(63 - count) <= num < 2^(64 - count)] otherwise. *)
Theorem X6_leading_zeros_counts_clear_high_bits (num : Z) :
  0 <= num < 2 ^ size_t_bits ->
  exists count,
    leading_zeros num = Some count
    /\ 0 <= count <= 64
    /\ (num = 0 <-> count = 64)
    /\ (0 < num -> 2 ^ (63 - count) <= num < 2 ^ (64 - count)).
Proof.
  intros Hnum. exists (64 - bit_length num).
  pose proof (bit_length_bounds num Hnum) as Hb.
  split; [now apply leading_zeros_spec |]. split; [lia |].
  unfold bit_length in *.
  destruct (Z.eqb_spec num 0) as [->|Hne].
  - split; [tauto | lia].
  - pose proof (Z.log2_nonneg num).
    split; [split; [tauto | lia] |].
    intros Hpos. destruct (Z.log2_spec num Hpos) as [Hlow Hhigh].
    replace (63 - (64 - (Z.log2 num + 1))) with (Z.log2 num) by lia.
    replace (64 - (64 - (Z.log2 num + 1))) with (Z.succ (Z.log2 num)) by lia.
    split; assumption.
Qed.

Lemma X6_leading_zeros_counts_clear_high_bits_witness :
  0 <= 5 < 2 ^ size_t_bits
  /\ exists count,
       leading_zeros 5 = Some count
       /\ 0 <= count <= 64
       /\ (5 = 0 <-> count = 64)
       /\ (0 < 5 -> 2 ^ (63 - count) <= 5 < 2 ^ (64 - count)).
Proof.
  split; [split; [lia | reflexivity] |].
  apply (X6_leading_zeros_counts_clear_high_bits 5).
  split; [lia | reflexivity].
Defined.

(** X7: [get_pass_amount] returns on every count of runs, never more
    than 64, and more runs never need fewer passes; on zero runs the
    subtraction wraps around and the result is 64. *)
Theorem X7_get_pass_amount_on_every_count (r r' : Z) :
  1 <= r <= r' -> r' < 2 ^ size_t_bits ->
  exists p p',
    get_pass_amount r = Some p
    /\ get_pass_amount r' = Some p'
    /\ 0 <= p <= p' /\ p' <= 64
    /\ get_pass_amount 0 = Some 64.
Proof.
  intros Hr Hr'. exists (Z.log2_up r), (Z.log2_up r').
  split; [apply get_pass_amount_spec; lia |].
  split; [now apply get_pass_amount_spec; lia |].
  split; [split; [apply Z.log2_up_nonneg | apply Z.log2_up_le_mono; lia] |].
  split; [| reflexivity].
  change 64 with (Z.log2_up (2 ^ 64)).
  apply Z.log2_up_le_mono. unfold size_t_bits in Hr'. lia.
Qed.

Lemma X7_get_pass_amount_on_every_count_witness :
  1 <= 3 <= 9 /\ 9 < 2 ^ size_t_bits
  /\ exists p p',
       get_pass_amount 3 = Some p
       /\ get_pass_amount 9 = Some p'
       /\ 0 <= p <= p' /\ p' <= 64
       /\ get_pass_amount 0 = Some 64.
Proof.
  split; [lia |]. split; [reflexivity |].
  apply (X7_get_pass_amount_on_every_count 3 9); [lia | reflexivity].
Defined.

(** ** The scanner: what it leaves in the queue and in the range *)

Lemma runs_with_long {A} (cmp : A -> A -> bool) (fuel : nat) :
  forall (l : list A) (i : nat) (run : list A),
    runs_with cmp fuel l !! i = Some run ->
    (1 <= length run)%nat
    /\ ((S i < length (runs_with cmp fuel l))%nat -> (2 <= length run)%nat).
Proof.
  induction fuel as [|fuel IH]; intros l i run Hrun; [discriminate |].
  destruct l as [|x [|y rest]]; cbn [runs_with] in *; [discriminate | |].
  - destruct i; [| discriminate]. injection Hrun as <-.
    cbn [length]. split; lia.
  - destruct i as [|i].
    + injection Hrun as <-. cbn [length]. split; lia.
    + cbn [lookup list_lookup] in Hrun.
      destruct (IH _ _ _ Hrun) as [Hone Htwo].
      split; [exact Hone |]. cbn [length]. intros Hmore. apply Htwo. lia.
Qed.

Lemma run_lengths_lookup {A} (runs : list (list A)) :
  forall (i : nat) (x : Z),
    run_lengths runs !! i = Some x ->
    exists run, runs !! i = Some run /\ x = Z.of_nat (length run).
Proof.
  induction runs as [|run runs IH]; intros i x Hx; [discriminate |].
  destruct i as [|i].
  - injection Hx as <-. exists run. split; reflexivity.
  - apply IH. exact Hx.
Qed.

Lemma run_lengths_settle {A} (cmp : A -> A -> bool) (runs : list (list A)) :
  run_lengths (map (settle cmp) runs) = run_lengths runs.
Proof.
  unfold run_lengths. induction runs as [|run runs IH]; [reflexivity |].
  cbn [map]. now rewrite settle_length, IH.
Qed.

Lemma dequeue_all_size q :
  queue_ok q -> dequeue_all (Z.to_nat (size q)) q = Some (contents q).
Proof.
  intros Hok. pose proof (queue_ok_size q Hok) as Hsize.
  rewrite (size_contents q) by (unfold size in Hsize; lia).
  rewrite Nat2Z.id. now apply dequeue_all_contents.
Qed.

(** X8: on a range of one element or more, every length the scanner
    enqueues is at least two, except that the last one may be one (the
    lone element at the end of the range); so a range of [n] elements has
    at least one run and at most [(n + 1) / 2]. *)
Theorem X8_only_the_last_run_can_be_single {A : Type}
    (cmp : A -> A -> bool) (arr : list A) :
  (1 <= length arr)%nat ->
  Z.of_nat (length arr) < 2 ^ size_t_bits ->
  exists scanned q lengths,
    build_run_size_queue cmp arr = Some (scanned, q)
    /\ dequeue_all (Z.to_nat (size q)) q = Some lengths
    /\ (forall (i : nat) (x : Z),
           lengths !! i = Some x ->
           1 <= x /\ ((S i < length lengths)%nat -> 2 <= x))
    /\ 1 <= size q
    /\ 2 * size q <= Z.of_nat (length arr) + 1.
Proof.
  intros Hlen Hbound.
  destruct (build_run_size_queue_spec cmp arr Hlen Hbound)
    as (q & Hbuild & Hok & Hcont & _).
  pose proof (queue_ok_size q Hok) as Hsize.
  pose proof (size_contents q ltac:(unfold size in Hsize; lia)) as Hcount.
  rewrite Hcont, run_lengths_length in Hcount.
  exists (concat (map (settle cmp) (runs_of cmp arr))), q,
    (run_lengths (runs_of cmp arr)).
  split; [exact Hbuild |].
  split; [rewrite <- Hcont; now apply dequeue_all_size |].
  split; [| split].
  - intros i x Hx.
    destruct (run_lengths_lookup _ _ _ Hx) as (run & Hrun & ->).
    destruct (runs_with_long cmp _ _ _ _ Hrun) as [Hone Htwo].
    split; [lia |]. rewrite run_lengths_length. intros Hmore.
    specialize (Htwo Hmore). lia.
  - assert (runs_of cmp arr <> []) as Hne
      by (apply runs_of_nonempty; destruct arr; [simpl in Hlen; lia | easy]).
    destruct (runs_of cmp arr); [congruence | cbn [length] in Hcount; lia].
  - pose proof (runs_with_count cmp (length arr) arr) as Hhalf.
    fold (runs_of cmp arr) in Hhalf. rewrite Hcount.
    pose proof (Z.mul_div_le (Z.of_nat (length arr) + 1) 2 ltac:(lia)).
    lia.
Qed.

Lemma X8_only_the_last_run_can_be_single_witness :
  (1 <= length [1; 2; 1; 2; 1]%Z)%nat
  /\ Z.of_nat (length [1; 2; 1; 2; 1]) < 2 ^ size_t_bits
  /\ exists scanned q lengths,
       build_run_size_queue Z.ltb [1; 2; 1; 2; 1] = Some (scanned, q)
       /\ dequeue_all (Z.to_nat (size q)) q = Some lengths
       /\ (forall (i : nat) (x : Z),
              lengths !! i = Some x ->
              1 <= x /\ ((S i < length lengths)%nat -> 2 <= x))
       /\ 1 <= size q
       /\ 2 * size q <= Z.of_nat (length [1; 2; 1; 2; 1]) + 1.
Proof.
  split; [simpl; lia |]. split; [reflexivity |].
  apply (X8_only_the_last_run_can_be_single Z.ltb [1; 2; 1; 2; 1]);
    [simpl; lia | reflexivity].
Defined.

(** X9: under a strict weak order the scanner leaves the range as sorted
    segments, one after the other, whose lengths are the lengths in the
    queue, which is what the merges of the first pass rely on.  The range
    holds the elements it held, and equivalent elements are in the order
    they were in. *)
Theorem X9_scan_leaves_sorted_segments {A : Type} (cmp : A -> A -> bool)
    (arr : list A) :
  strict_weak_order cmp ->
  (1 <= length arr)%nat ->
  Z.of_nat (length arr) < 2 ^ size_t_bits ->
  exists scanned q segments,
    build_run_size_queue cmp arr = Some (scanned, q)
    /\ scanned = concat segments
    /\ dequeue_all (Z.to_nat (size q)) q = Some (run_lengths segments)
    /\ Forall (sorted cmp) segments
    /\ Permutation scanned arr
    /\ same_order_of_equivalents cmp scanned arr.
Proof.
  intros order Hlen Hbound.
  destruct (build_run_size_queue_spec cmp arr Hlen Hbound)
    as (q & Hbuild & Hok & Hcont & _).
  exists (concat (map (settle cmp) (runs_of cmp arr))), q,
    (map (settle cmp) (runs_of cmp arr)).
  split; [exact Hbuild |]. split; [reflexivity |].
  split; [rewrite run_lengths_settle, <- Hcont; now apply dequeue_all_size |].
  split; [apply (map_settle_sorted cmp order), runs_with_is_run |].
  pose proof (runs_with_concat cmp (length arr) arr (le_n _)) as Hconcat.
  fold (runs_of cmp arr) in Hconcat.
  split.
  - rewrite <- Hconcat at 2. apply concat_settle_permutation.
  - rewrite <- Hconcat at 2.
    apply (concat_settle_stable cmp order), runs_with_is_run.
Qed.

Lemma X9_scan_leaves_sorted_segments_witness :
  strict_weak_order Z.ltb
  /\ (1 <= length [4; 2; 1; 3; 3; 0]%Z)%nat
  /\ Z.of_nat (length [4; 2; 1; 3; 3; 0]) < 2 ^ size_t_bits
  /\ exists scanned q segments,
       build_run_size_queue Z.ltb [4; 2; 1; 3; 3; 0] = Some (scanned, q)
       /\ scanned = concat segments
       /\ dequeue_all (Z.to_nat (size q)) q = Some (run_lengths segments)
       /\ Forall (sorted Z.ltb) segments
       /\ Permutation scanned [4; 2; 1; 3; 3; 0]
       /\ same_order_of_equivalents Z.ltb scanned [4; 2; 1; 3; 3; 0].
Proof.
  split; [exact Z_ltb_strict_weak_order |].
  split; [simpl; lia |]. split; [reflexivity |].
  apply (X9_scan_leaves_sorted_segments Z.ltb [4; 2; 1; 3; 3; 0]);
    [exact Z_ltb_strict_weak_order | simpl; lia | reflexivity].
Defined.

(** ** The sequential sort: the buffer, sorted input, sorting again *)

(** X10: whatever the comparator, what the sequential sort leaves in the
    caller's range does not depend on what the auxiliary buffer held when
    the sort was called: the indeterminate values of a new buffer never
    reach the result. *)
Theorem X10_result_ignores_buffer_contents {A : Type} (cmp : A -> A -> bool)
    (input scratch scratch' : list A) :
  Z.of_nat (length input) < 2 ^ size_t_bits ->
  length scratch = length input ->
  length scratch' = length input ->
  exists output rest rest',
    natural_merge_sort_impl cmp input scratch = Some (output, rest)
    /\ natural_merge_sort_impl cmp input scratch' = Some (output, rest')
    /\ natural_merge_sort cmp scratch input = Some output
    /\ natural_merge_sort cmp scratch' input = Some output.
Proof.
  intros Hbound Hscratch Hscratch'.
  destruct (natural_merge_sort_impl_spec cmp input scratch Hbound Hscratch)
    as (rest & Hrun & _).
  destruct (natural_merge_sort_impl_spec cmp input scratch' Hbound Hscratch')
    as (rest' & Hrun' & _).
  exists (sorted_output cmp input), rest, rest'.
  split; [exact Hrun |]. split; [exact Hrun' |].
  split; now apply natural_merge_sort_spec.
Qed.

Lemma X10_result_ignores_buffer_contents_witness :
  Z.of_nat (length [3; 1; 2; 1]) < 2 ^ size_t_bits
  /\ length [0; 0; 0; 0] = length [3; 1; 2; 1]
  /\ length [7; 8; 9; 6] = length [3; 1; 2; 1]
  /\ exists output rest rest',
       natural_merge_sort_impl Z.ltb [3; 1; 2; 1] [0; 0; 0; 0]
       = Some (output, rest)
       /\ natural_merge_sort_impl Z.ltb [3; 1; 2; 1] [7; 8; 9; 6]
          = Some (output, rest')
       /\ natural_merge_sort Z.ltb [0; 0; 0; 0] [3; 1; 2; 1] = Some output
       /\ natural_merge_sort Z.ltb [7; 8; 9; 6] [3; 1; 2; 1] = Some output.
Proof.
  split; [reflexivity |]. split; [reflexivity |]. split; [reflexivity |].
  apply (X10_result_ignores_buffer_contents Z.ltb [3; 1; 2; 1] [0; 0; 0; 0]
           [7; 8; 9; 6]); reflexivity.
Defined.

Lemma ascending_extent_full {A} (cmp : A -> A -> bool) (l : list A) :
  forall p, ascending_run cmp (p :: l) -> ascending_extent cmp p l = length l.
Proof.
  induction l as [|x l IH]; intros p Hrun; [reflexivity |].
  apply Sorted_inv in Hrun as [Hrest Hhead].
  apply HdRel_inv in Hhead. cbn [ascending_extent length].
  rewrite Hhead. cbn [negb]. f_equal. now apply IH.
Qed.

(** A range that never descends is one run, which stays as it is. *)
Lemma runs_of_ascending {A} (cmp : A -> A -> bool) (input : list A) :
  (2 <= length input)%nat -> ascending_run cmp input ->
  runs_of cmp input = [input] /\ settle cmp input = input.
Proof.
  intros Hlen Hrun.
  destruct input as [|x [|y rest]]; [simpl in Hlen; lia.. |].
  pose proof Hrun as Hrun'.
  apply Sorted_inv in Hrun' as [Hrest Hhead]. apply HdRel_inv in Hhead.
  unfold runs_of, settle. cbn [length runs_with]. rewrite Hhead.
  rewrite (ascending_extent_full cmp rest y Hrest).
  rewrite firstn_all, drop_all. split; reflexivity.
Qed.

(** X11: a range that never descends is returned as it is, whatever the
    comparator.  It is a single run, the queue holds its length alone, and
    the auxiliary buffer is not accessed: it is returned unchanged and may
    have any length, even none. *)
Theorem X11_ascending_input_is_left_alone {A : Type} (cmp : A -> A -> bool)
    (input scratch : list A) :
  ascending_run cmp input ->
  Z.of_nat (length input) < 2 ^ size_t_bits ->
  natural_merge_sort_impl cmp input scratch = Some (input, scratch)
  /\ (forall fresh,
         length fresh = length input ->
         natural_merge_sort cmp fresh input = Some input)
  /\ ((2 <= length input)%nat ->
      exists q,
        build_run_size_queue cmp input = Some (input, q)
        /\ size q = 1
        /\ dequeue_all 1 q = Some [Z.of_nat (length input)]).
Proof.
  intros Hrun Hbound.
  assert (Hscan : (2 <= length input)%nat ->
            exists q,
              build_run_size_queue cmp input = Some (input, q)
              /\ size q = 1
              /\ dequeue_all 1 q = Some [Z.of_nat (length input)]).
  { intros Hlen.
    destruct (runs_of_ascending cmp input Hlen Hrun) as [Hruns Hsettle].
    destruct (build_run_size_queue_spec cmp input ltac:(lia) Hbound)
      as (q & Hbuild & Hok & Hcont & _).
    rewrite Hruns in Hbuild, Hcont. cbn [map concat run_lengths] in *.
    rewrite Hsettle, app_nil_r in Hbuild.
    pose proof (queue_ok_size q Hok) as Hsize.
    pose proof (size_contents q ltac:(unfold size in Hsize; lia)) as Hone.
    rewrite Hcont in Hone. cbn [length] in Hone.
    exists q. split; [exact Hbuild |]. split; [exact Hone |].
    pose proof (dequeue_all_contents q Hok) as Hall.
    rewrite Hcont in Hall. exact Hall. }
  assert (Himpl : forall buffer,
            natural_merge_sort_impl cmp input buffer = Some (input, buffer)).
  { intros buffer. unfold natural_merge_sort_impl.
    rewrite wrap_small by size_t_bounds.
    destruct (Z.ltb_spec (Z.of_nat (length input)) 2) as [|Hlen];
      [reflexivity |].
    destruct (Hscan ltac:(lia)) as (q & Hbuild & Hone & _).
    unfold schedule. rewrite Hbuild. cbn [mbind option_bind].
    rewrite Hone. change (get_pass_amount 1) with (Some 0).
    cbn [mbind option_bind]. change (Z.land 0 1 =? 1) with false.
    cbn [mbind option_bind]. rewrite merge_loop_unfold. cbn [p_queue].
    rewrite Hone.
    reflexivity. }
  split; [apply Himpl |]. split; [| exact Hscan].
  intros fresh Hfresh. unfold natural_merge_sort.
  destruct (wrap (Z.of_nat (length input)) <? 2); [reflexivity |].
  rewrite option_guard_True by exact Hfresh. cbn [mbind option_bind].
  rewrite Himpl. reflexivity.
Qed.

Lemma X11_ascending_input_is_left_alone_witness :
  ascending_run Z.ltb [1; 2; 2; 5]
  /\ Z.of_nat (length [1; 2; 2; 5]) < 2 ^ size_t_bits
  /\ natural_merge_sort_impl Z.ltb [1; 2; 2; 5] [] = Some ([1; 2; 2; 5], [])
  /\ (forall fresh,
         length fresh = length [1; 2; 2; 5] ->
         natural_merge_sort Z.ltb fresh [1; 2; 2; 5] = Some [1; 2; 2; 5])
  /\ ((2 <= length [1; 2; 2; 5]%Z)%nat ->
      exists q,
        build_run_size_queue Z.ltb [1; 2; 2; 5] = Some ([1; 2; 2; 5], q)
        /\ size q = 1
        /\ dequeue_all 1 q = Some [Z.of_nat (length [1; 2; 2; 5])]).
Proof.
  split; [repeat constructor |]. split; [reflexivity |].
  apply (X11_ascending_input_is_left_alone Z.ltb [1; 2; 2; 5] []);
    [repeat constructor | reflexivity].
Defined.

(** X12: sorting a sorted range changes nothing.  Under a strict weak
    order, either entry point applied to the output of the sequential sort
    returns that output. *)
Theorem X12_sorting_again_changes_nothing {A : Type} (cmp : A -> A -> bool)
    (cores : Z) (fresh fresh' : list A) (input : list A) :
  strict_weak_order cmp ->
  Z.of_nat (length input) < 2 ^ size_t_bits ->
  length fresh = length input ->
  length fresh' = length input ->
  exists output,
    natural_merge_sort cmp fresh input = Some output
    /\ natural_merge_sort cmp fresh' output = Some output
    /\ parallel_natural_merge_sort cmp cores fresh' output = Some output.
Proof.
  intros order Hbound Hfresh Hfresh'.
  exists (sorted_output cmp input).
  pose proof (sorted_output_length cmp input) as Hlen.
  pose proof (sorted_output_sorted cmp order input) as Hsorted.
  pose proof (sorted_output_of_sorted cmp _ order Hsorted) as Hsame.
  split; [now apply natural_merge_sort_spec |].
  split.
  - rewrite <- Hsame at 2. apply natural_merge_sort_spec; congruence.
  - destruct (parallel_natural_merge_sort_spec cmp cores fresh'
                (sorted_output cmp input))
      as (result & Hrun & _ & Hout); [congruence.. |].
    rewrite Hrun, (Hout order), Hsame. reflexivity.
Qed.

Lemma X12_sorting_again_changes_nothing_witness :
  strict_weak_order Z.ltb
  /\ Z.of_nat (length [3; 1; 2; 1]) < 2 ^ size_t_bits
  /\ length [0; 0; 0; 0] = length [3; 1; 2; 1]
  /\ length [9; 9; 9; 9] = length [3; 1; 2; 1]
  /\ exists output,
       natural_merge_sort Z.ltb [0; 0; 0; 0] [3; 1; 2; 1] = Some output
       /\ natural_merge_sort Z.ltb [9; 9; 9; 9] output = Some output
       /\ parallel_natural_merge_sort Z.ltb 4 [9; 9; 9; 9] output
          = Some output.
Proof.
  split; [exact Z_ltb_strict_weak_order |].
  split; [reflexivity |]. split; [reflexivity |]. split; [reflexivity |].
  apply (X12_sorting_again_changes_nothing Z.ltb 4 [0; 0; 0; 0]
           [9; 9; 9; 9] [3; 1; 2; 1]);
    [exact Z_ltb_strict_weak_order | reflexivity..].
Defined.

(** X21: under a strict weak order both entry points return what every
    stable sort returns.  A sequence that is sorted and has equivalent
    elements in the order of the input, such as the output of
    [std::stable_sort], against which [main.cpp] compares, is the
    output, element by element. *)
Theorem X21_output_is_that_of_any_stable_sort {A : Type}
    (cmp : A -> A -> bool) (cores : Z) (fresh input reference : list A) :
  strict_weak_order cmp ->
  Z.of_nat (length input) < 2 ^ size_t_bits ->
  length fresh = length input ->
  sorted cmp reference ->
  same_order_of_equivalents cmp reference input ->
  natural_merge_sort cmp fresh input = Some reference
  /\ parallel_natural_merge_sort cmp cores fresh input = Some reference.
Proof.
  intros order Hbound Hfresh Hsorted Hsame.
  rewrite (sorted_output_unique cmp order input reference Hsorted Hsame).
  split; [now apply natural_merge_sort_spec |].
  destruct (parallel_natural_merge_sort_spec cmp cores fresh input
              Hbound Hfresh) as (result & Hrun & _ & Hout).
  now rewrite Hrun, (Hout order).
Qed.

Lemma X21_output_is_that_of_any_stable_sort_witness :
  strict_weak_order Z.ltb
  /\ Z.of_nat (length [3; 1; 2; 1]) < 2 ^ size_t_bits
  /\ length [0; 0; 0; 0] = length [3; 1; 2; 1]
  /\ sorted Z.ltb [1; 1; 2; 3]
  /\ same_order_of_equivalents Z.ltb [1; 1; 2; 3] [3; 1; 2; 1]
  /\ natural_merge_sort Z.ltb [0; 0; 0; 0] [3; 1; 2; 1]
     = Some [1; 1; 2; 3]
  /\ parallel_natural_merge_sort Z.ltb 4 [0; 0; 0; 0] [3; 1; 2; 1]
     = Some [1; 1; 2; 3].
Proof.
  assert (Hsorted : sorted Z.ltb [1; 1; 2; 3]) by (repeat constructor).
  assert (Hsame : same_order_of_equivalents Z.ltb [1; 1; 2; 3] [3; 1; 2; 1]).
  { intros z. unfold equivalent. cbn [List.filter].
    destruct (Z.ltb_spec z 1), (Z.ltb_spec 1 z), (Z.ltb_spec z 2),
      (Z.ltb_spec 2 z), (Z.ltb_spec z 3), (Z.ltb_spec 3 z);
      cbn [negb andb]; first [reflexivity | lia]. }
  split; [exact Z_ltb_strict_weak_order |].
  split; [reflexivity |]. split; [reflexivity |].
  split; [exact Hsorted |]. split; [exact Hsame |].
  apply (X21_output_is_that_of_any_stable_sort Z.ltb 4 [0; 0; 0; 0]
           [3; 1; 2; 1] [1; 1; 2; 3]);
    [exact Z_ltb_strict_weak_order | reflexivity | reflexivity
    | exact Hsorted | exact Hsame].
Defined.

(** ** An auxiliary buffer that is too short *)

Section Overrun.

Context {A : Type}.
Variable cmp : A -> A -> bool.

Lemma range_Some (mem data : list A) (from to : Z) :
  range mem from to = Some data ->
  0 <= from <= to /\ Z.of_nat (length data) = to - from.
Proof.
  unfold range. intros H. case_guard; simplify_eq/=.
  rewrite length_take, length_drop. lia.
Qed.

Lemma store_Some (mem mem' data : list A) (pos : Z) :
  store mem pos data = Some mem' ->
  pos + Z.of_nat (length data) <= Z.of_nat (length mem)
  /\ length mem' = length mem.
Proof.
  unfold store. intros H. case_guard; simplify_eq/=.
  split; [lia |].
  rewrite !length_app, length_take, length_drop. lia.
Qed.

Lemma std_merge_Some (src dst mem : list A) (first1 last1 first2 last2 d : Z) :
  std_merge cmp src first1 last1 first2 last2 dst d = Some mem ->
  0 <= first1 <= last1 /\ 0 <= first2 <= last2
  /\ d + (last1 - first1) + (last2 - first2) <= Z.of_nat (length dst)
  /\ length mem = length dst.
Proof.
  unfold std_merge. intros H.
  destruct (range src first1 last1) as [run1|] eqn:H1; [| discriminate].
  destruct (range src first2 last2) as [run2|] eqn:H2; [| discriminate].
  cbn [mbind option_bind] in H.
  apply range_Some in H1 as [? ?]. apply range_Some in H2 as [? ?].
  apply store_Some in H as [Hroom Hlen].
  rewrite merge_lists_length in Hroom. lia.
Qed.

Lemma std_copy_Some (src dst mem : list A) (first last d : Z) :
  std_copy src first last dst d = Some mem ->
  0 <= first <= last /\ d + (last - first) <= Z.of_nat (length dst).
Proof.
  unfold std_copy. intros H.
  destruct (range src first last) as [data|] eqn:H1; [| discriminate].
  cbn [mbind option_bind] in H.
  apply range_Some in H1 as [? ?]. apply store_Some in H as [Hroom _]. lia.
Qed.

Lemma first_pass_round (n m : Z) (s : @scheduler A) (pending merged : list Z) :
  m < n -> n < 2 ^ size_t_bits ->
  first_pass_state n m s pending merged ->
  merge_round cmp s = None
  \/ exists s' pending' merged',
       merge_round cmp s = Some s'
       /\ first_pass_state n m s' pending' merged'.
Proof.
  intros Hshort Hbound [Hsrc Htgt Hscr Hok Hcont Hleft Hpend Hpos Hoff0 Hoff].
  destruct pending as [|a [|b pending]]; [simpl in Hpend; lia.. |].
  clear Hpend.
  apply Forall_cons in Hpos as [Ha Hpos].
  apply Forall_cons in Hpos as [Hb Hpos].
  assert (Hrest : 0 <= fold_right Z.add 0 pending).
  { clear -Hpos. induction Hpos; simpl; lia. }
  cbn [fold_right app length] in *.
  destruct (dequeue_spec _ _ _ Hok Hcont)
    as (q1 & Hd1 & Hok1 & Hcont1 & Hcap1 & Hsize1).
  destruct (dequeue_spec _ _ _ Hok1 Hcont1)
    as (q2 & Hd2 & Hok2 & Hcont2 & Hcap2 & Hsize2).
  pose proof (queue_ok_size _ Hok) as Hsz.
  destruct (enqueue_spec q2 (wrap (a + b)) Hok2)
    as (q3 & He3 & Hok3 & Hcont3 & Hcap3 & Hsize3);
    [unfold size in *; lia |].
  unfold merge_round. rewrite Hd1. cbn [mbind option_bind].
  rewrite Hd2. cbn [mbind option_bind]. rewrite Hsrc, Htgt. cbn [pointee].
  destruct (std_merge cmp (input_range s) (offset s) (offset s + a)
              (offset s + a) (offset s + a + b) (scratch_range s) (offset s))
    as [mem|] eqn:Hmerge; [| left; reflexivity].
  cbn [mbind option_bind write_through source target offset runs_left
         input_range scratch_range pointee].
  apply std_merge_Some in Hmerge as (_ & _ & Hroom & Hmem).
  rewrite Hsrc, He3. cbn [mbind option_bind pointee].
  rewrite ?Htgt. cbn [pointee input_range scratch_range].
  assert (Hsum : wrap (a + b) = a + b) by (apply wrap_small; size_t_bounds).
  assert (Hoffset : wrap (offset s + wrap (a + b)) = offset s + a + b)
    by (rewrite Hsum, Z.add_assoc; apply wrap_small; size_t_bounds).
  assert (Hruns : wrap (runs_left s - 2) = Z.of_nat (length pending)).
  { rewrite Hleft.
    replace (Z.of_nat (S (S (length pending))) - 2)
      with (Z.of_nat (length pending)) by lia.
    apply wrap_small.
    pose proof (size_contents (p_queue s) ltac:(unfold size in Hsz; lia))
      as Hcount.
    rewrite Hcont in Hcount. cbn [length] in Hcount.
    rewrite length_app in Hcount.
    destruct Hok as (k & Hk & Hcap & _).
    pose proof (pow2_le_63 k Hk) as Hp.
    change (2 ^ 63) with 9223372036854775808 in Hp. size_t_bounds. }
  rewrite Hoffset, Hruns.
  destruct pending as [|c [|d pending]].
  - (* the pass would be complete *)
    exfalso. cbn [fold_right] in Hoff. lia.
  - (* a last run without a neighbour *)
    left. change (Z.of_nat (length [c]) =? 1) with true. cbv iota.
    rewrite Hcont2 in Hcont3. cbn [app] in Hcont3.
    destruct (dequeue_spec _ _ _ Hok3 Hcont3) as (q4 & Hd4 & _).
    rewrite Hd4. cbn [mbind option_bind].
    destruct (std_copy (input_range s) (offset s + a + b)
                (offset s + a + b + c) mem (offset s + a + b))
      as [mem'|] eqn:Hcopy; [exfalso | reflexivity].
    apply std_copy_Some in Hcopy as [_ Hcopy].
    cbn [fold_right] in Hoff. lia.
  - right.
    assert (Hmore : (Z.of_nat (length (c :: d :: pending)) =? 1) = false)
      by (apply Z.eqb_neq; cbn [length]; lia).
    assert (Hmore' : (Z.of_nat (length (c :: d :: pending)) =? 0) = false)
      by (apply Z.eqb_neq; cbn [length]; lia).
    rewrite Hmore, Hmore'.
    eexists _, (c :: d :: pending), (merged ++ [a + b]).
    split; [reflexivity |].
    constructor; cbn [source target scratch_range p_queue runs_left offset].
    + reflexivity.
    + reflexivity.
    + lia.
    + exact Hok3.
    + rewrite Hcont3, Hcont2, Hsum. now rewrite <- app_assoc.
    + reflexivity.
    + cbn [length]. lia.
    + exact Hpos.
    + lia.
    + cbn [fold_right] in *. lia.
Qed.

Lemma first_pass_overruns (fuel : nat) :
  forall (n m : Z) (s : @scheduler A) (pending merged : list Z),
    m < n -> n < 2 ^ size_t_bits ->
    first_pass_state n m s pending merged ->
    merge_loop cmp fuel s = None.
Proof.
  induction fuel as [|fuel IH]; intros n m s pending merged Hshort Hbound Hfp;
    rewrite merge_loop_unfold.
  all: pose proof (queue_ok_size _ (fp_queue_ok _ _ _ _ _ Hfp)) as Hsz.
  all: pose proof (size_contents (p_queue s) ltac:(unfold size in Hsz; lia))
         as Hcount.
  all: rewrite (fp_contents _ _ _ _ _ Hfp), length_app in Hcount.
  all: pose proof (fp_pending _ _ _ _ _ Hfp) as Hpend.
  all: destruct (Z.ltb_spec 1 (size (p_queue s))); [| lia].
  - reflexivity.
  - destruct (first_pass_round n m s pending merged Hshort Hbound Hfp)
      as [->|(s' & pending' & merged' & -> & Hfp')]; [reflexivity |].
    cbn [mbind option_bind]. now apply (IH n m s' pending' merged').
Qed.

End Overrun.

(** X13: the auxiliary buffer has to be as long as the range, unless the
    range is a single run.  With two runs or more and a shorter buffer,
    [natural_merge_sort_impl] writes outside the buffer: in the copy of
    the range when the number of passes is odd, in the first pass when it
    is even. *)
Theorem X13_short_buffer_is_overrun {A : Type} (cmp : A -> A -> bool)
    (input scratch : list A) :
  (2 <= length (runs_of cmp input))%nat ->
  Z.of_nat (length input) < 2 ^ size_t_bits ->
  (length scratch < length input)%nat ->
  natural_merge_sort_impl cmp input scratch = None.
Proof.
  intros Hruns Hbound Hshort.
  assert (Hlen : (2 <= length input)%nat).
  { destruct input as [|x [|y input]]; [simpl in Hruns; lia.. |].
    cbn [length]. lia. }
  destruct (build_run_size_queue_spec cmp input ltac:(lia) Hbound)
    as (q & Hbuild & Hok & Hcont & _).
  pose proof (queue_ok_size q Hok) as Hsize.
  pose proof (size_contents q ltac:(unfold size in Hsize; lia)) as Hcount.
  rewrite Hcont, run_lengths_length in Hcount.
  pose proof (runs_with_count cmp (length input) input) as Hhalf.
  fold (runs_of cmp input) in Hhalf.
  assert (Hfew : Z.of_nat (length (runs_of cmp input))
                 <= Z.of_nat (length input)).
  { assert ((Z.of_nat (length input) + 1) / 2 <= Z.of_nat (length input));
      [| lia].
    apply Z.div_le_upper_bound; lia. }
  pose proof (runs_with_concat cmp (length input) input (le_n _)) as Hconcat.
  fold (runs_of cmp input) in Hconcat.
  unfold natural_merge_sort_impl, schedule.
  rewrite wrap_small by size_t_bounds.
  destruct (Z.ltb_spec (Z.of_nat (length input)) 2); [lia |].
  rewrite Hbuild. cbn [mbind option_bind].
  rewrite get_pass_amount_spec by (rewrite Hcount; lia).
  cbn [mbind option_bind]. rewrite land_one.
  destruct (Z.odd (Z.log2_up (size q))).
  - (* the copy of the range does not fit *)
    change (1 =? 1) with true. cbv iota.
    destruct (std_copy _ 0 _ scratch 0) as [buffer|] eqn:Hcopy;
      [exfalso | reflexivity].
    apply std_copy_Some in Hcopy as [_ Hcopy].
    rewrite concat_settle_length, Hconcat in Hcopy. lia.
  - (* the first pass does not fit *)
    change (0 =? 1) with false. cbv iota. cbn [mbind option_bind].
    rewrite (first_pass_overruns cmp _ (Z.of_nat (length input))
               (Z.of_nat (length scratch)) _
               (run_lengths (runs_of cmp input)) []);
      [reflexivity | lia | exact Hbound |].
    constructor; cbn [source target scratch_range p_queue runs_left offset].
    + reflexivity.
    + reflexivity.
    + reflexivity.
    + exact Hok.
    + now rewrite app_nil_r.
    + now rewrite run_lengths_length.
    + now rewrite run_lengths_length.
    + unfold run_lengths. apply Forall_forall. intros x Hx.
      apply list_elem_of_fmap in Hx as (run & -> & _). lia.
    + lia.
    + rewrite run_lengths_sum, Hconcat. lia.
Qed.

Lemma X13_short_buffer_is_overrun_witness :
  (2 <= length (runs_of Z.ltb [1; 2; 1; 2; 1]%Z))%nat
  /\ Z.of_nat (length [1; 2; 1; 2; 1]) < 2 ^ size_t_bits
  /\ (length [0; 0; 0; 0]%Z < length [1; 2; 1; 2; 1]%Z)%nat
  /\ natural_merge_sort_impl Z.ltb [1; 2; 1; 2; 1] [0; 0; 0; 0] = None.
Proof.
  split; [simpl; lia |]. split; [reflexivity |]. split; [simpl; lia |].
  apply (X13_short_buffer_is_overrun Z.ltb [1; 2; 1; 2; 1] [0; 0; 0; 0]);
    [simpl; lia | reflexivity | simpl; lia].
Defined.

(** ** The fork-join recursion and its wrapper *)

(** X14: [parallel_natural_merge_sort_impl] sorts for every thread quota
    from one on, whatever the length, provided the two arrays hold the
    same [length] elements at the start.  The first [length] elements of
    the target are then the elements of the data, sorted when the
    comparator is a strict weak order, and what follows them in either
    array is left as it was. *)
Theorem X14_parallel_impl_sorts_for_every_quota {A : Type}
    (cmp : A -> A -> bool) (fuel : nat) (thread_quota : Z)
    (data src_rest tgt_rest : list A) :
  1 <= thread_quota <= Z.of_nat fuel ->
  thread_quota < 2 ^ size_t_bits ->
  Z.of_nat (length data) < 2 ^ size_t_bits ->
  length src_rest = length tgt_rest ->
  exists junk result,
    parallel_natural_merge_sort_impl cmp fuel (data ++ src_rest)
      (data ++ tgt_rest) (Z.of_nat (length data)) thread_quota
    = Some (junk ++ src_rest, result ++ tgt_rest)
    /\ length junk = length data
    /\ Permutation result data
    /\ (strict_weak_order cmp ->
        result = sorted_output cmp data /\ sorted cmp result).
Proof.
  intros Hquota Hq64 Hbound Hrest.
  destruct (parallel_impl_spec cmp fuel thread_quota (Z.of_nat (length data))
              data src_rest tgt_rest Hquota Hq64 eq_refl Hbound Hrest)
    as (junk & result & Hrun & Hjunk & Hperm & Hout).
  exists junk, result. split; [exact Hrun |]. split; [exact Hjunk |].
  split; [exact Hperm |]. intros order. split; [exact (Hout order) |].
  rewrite (Hout order). now apply sorted_output_sorted.
Qed.

Lemma X14_parallel_impl_sorts_for_every_quota_witness :
  1 <= 5 <= Z.of_nat 5
  /\ 5 < 2 ^ size_t_bits
  /\ Z.of_nat (length [3; 1; 2; 0; 5; 4; 7]) < 2 ^ size_t_bits
  /\ length [8; 8] = length [9; 9]
  /\ exists junk result,
       parallel_natural_merge_sort_impl Z.ltb 5
         ([3; 1; 2; 0; 5; 4; 7] ++ [8; 8]) ([3; 1; 2; 0; 5; 4; 7] ++ [9; 9])
         (Z.of_nat (length [3; 1; 2; 0; 5; 4; 7])) 5
       = Some (junk ++ [8; 8], result ++ [9; 9])
       /\ length junk = length [3; 1; 2; 0; 5; 4; 7]
       /\ Permutation result [3; 1; 2; 0; 5; 4; 7]
       /\ (strict_weak_order Z.ltb ->
           result = sorted_output Z.ltb [3; 1; 2; 0; 5; 4; 7]
           /\ sorted Z.ltb result).
Proof.
  split; [simpl; lia |]. split; [reflexivity |]. split; [reflexivity |].
  split; [reflexivity |].
  apply (X14_parallel_impl_sorts_for_every_quota Z.ltb 5 5
           [3; 1; 2; 0; 5; 4; 7] [8; 8] [9; 9]);
    [simpl; lia | reflexivity | reflexivity | reflexivity].
Defined.

(** X15: with a thread quota of zero the recursion never reaches a
    leaf: both halves get the quota zero again, and no fuel suffices. *)
Theorem X15_quota_zero_never_returns {A : Type} (cmp : A -> A -> bool)
    (fuel : nat) (source target : list A) (length_ : Z) :
  parallel_natural_merge_sort_impl cmp fuel source target length_ 0 = None.
Proof.
  revert source target length_.
  induction fuel as [|fuel IH]; intros source target length_;
    rewrite parallel_impl_unfold; [reflexivity |].
  change (0 =? 1) with false. change (0 =? 2) with false.
  change (0 / 2) with 0. cbv zeta. cbv iota.
  rewrite IH. reflexivity.
Qed.

(** X16: the leaves of the recursion read one array each.  With quota 1
    the range of the target is sorted in place and the source is the
    auxiliary buffer; with quota 2 the two halves of the source are
    sorted in place and merged into the target, whose former contents
    play no part.  Both hold for every comparator. *)
Theorem X16_leaves_read_one_array {A : Type} (cmp : A -> A -> bool)
    (fuel : nat) (l r src_rest junk tgt_rest : list A) :
  Z.of_nat (length l + length r) < 2 ^ size_t_bits ->
  Z.of_nat (length l) = Z.of_nat (length l + length r) / 2 ->
  length junk = (length l + length r)%nat ->
  length src_rest = length tgt_rest ->
  (exists junk',
      parallel_natural_merge_sort_impl cmp fuel (junk ++ src_rest)
        ((l ++ r) ++ tgt_rest) (Z.of_nat (length l + length r)) 1
      = Some (junk' ++ src_rest, sorted_output cmp (l ++ r) ++ tgt_rest)
      /\ length junk' = length junk)
  /\ parallel_natural_merge_sort_impl cmp fuel (l ++ r ++ src_rest)
       (junk ++ tgt_rest) (Z.of_nat (length l + length r)) 2
     = Some (sorted_output cmp l ++ sorted_output cmp r ++ src_rest,
             merge_lists cmp (sorted_output cmp l) (sorted_output cmp r)
               ++ tgt_rest).
Proof.
  intros Hbound Hhalf Hjunk Hrest. split.
  - rewrite parallel_impl_unfold. change (1 =? 1) with true. cbv iota.
    destruct (on_ranges_at cmp ((l ++ r) ++ tgt_rest) (junk ++ src_rest)
                0 (Z.of_nat (length l + length r)) 0
                [] (l ++ r) tgt_rest [] junk src_rest)
      as (junk' & Hrun & Hlen);
      try reflexivity.
    + rewrite length_app. lia.
    + rewrite length_app. exact Hbound.
    + rewrite length_app. exact Hjunk.
    + rewrite Hrun. cbn [mbind option_bind app].
      exists junk'. split; [reflexivity | exact Hlen].
  - rewrite parallel_impl_unfold.
    change (2 =? 1) with false. change (2 =? 2) with true. cbv iota zeta.
    rewrite <- Hhalf.
    destruct (on_ranges_at cmp (l ++ r ++ src_rest) (junk ++ tgt_rest)
                0 (Z.of_nat (length l)) 0
                [] l (r ++ src_rest)
                [] (take (length l) junk) (drop (length l) junk ++ tgt_rest))
      as (half & Hleft & Hlen_half);
      [reflexivity
      | cbn [app]; now rewrite app_assoc, take_drop
      | reflexivity | reflexivity | reflexivity
      | lia
      | rewrite length_take; lia |].
    rewrite Hleft. cbn [mbind option_bind app].
    rewrite length_take in Hlen_half.
    destruct (on_ranges_at cmp (sorted_output cmp l ++ r ++ src_rest)
                (half ++ drop (length l) junk ++ tgt_rest)
                (Z.of_nat (length l)) (Z.of_nat (length l + length r))
                (Z.of_nat (length l))
                (sorted_output cmp l) r src_rest
                half (drop (length l) junk) tgt_rest)
      as (half' & Hright & Hlen_half');
      [reflexivity | reflexivity
      | now rewrite sorted_output_length
      | lia
      | f_equal; lia
      | lia
      | rewrite length_drop; lia |].
    rewrite Hright. cbn [mbind option_bind].
    rewrite length_drop in Hlen_half'.
    rewrite (join_merge_at cmp _ _ _ _
               (sorted_output cmp l) (sorted_output cmp r) src_rest
               (half ++ half') tgt_rest);
      [reflexivity
      | reflexivity
      | now rewrite <- app_assoc
      | now rewrite sorted_output_length
      | now rewrite !sorted_output_length
      | rewrite length_app, !sorted_output_length; lia
      | exact Hrest].
Qed.

Lemma X16_leaves_read_one_array_witness :
  Z.of_nat (length [4; 2] + length [3; 1; 0]) < 2 ^ size_t_bits
  /\ Z.of_nat (length [4; 2])
     = Z.of_nat (length [4; 2] + length [3; 1; 0]) / 2
  /\ length [7; 7; 7; 7; 7] = (length [4; 2]%Z + length [3; 1; 0]%Z)%nat
  /\ length [8] = length [9]
  /\ (exists junk',
         parallel_natural_merge_sort_impl Z.ltb 0 ([7; 7; 7; 7; 7] ++ [8])
           (([4; 2] ++ [3; 1; 0]) ++ [9])
           (Z.of_nat (length [4; 2] + length [3; 1; 0])) 1
         = Some (junk' ++ [8],
                 sorted_output Z.ltb ([4; 2] ++ [3; 1; 0]) ++ [9])
         /\ length junk' = length [7; 7; 7; 7; 7])
  /\ parallel_natural_merge_sort_impl Z.ltb 0 ([4; 2] ++ [3; 1; 0] ++ [8])
       ([7; 7; 7; 7; 7] ++ [9])
       (Z.of_nat (length [4; 2] + length [3; 1; 0])) 2
     = Some (sorted_output Z.ltb [4; 2] ++ sorted_output Z.ltb [3; 1; 0]
               ++ [8],
             merge_lists Z.ltb (sorted_output Z.ltb [4; 2])
               (sorted_output Z.ltb [3; 1; 0]) ++ [9]).
Proof.
  split; [reflexivity |]. split; [reflexivity |]. split; [reflexivity |].
  split; [reflexivity |].
  apply (X16_leaves_read_one_array Z.ltb 0 [4; 2] [3; 1; 0] [8]
           [7; 7; 7; 7; 7] [9]); reflexivity.
Defined.

(** X22: the two sorts of a leaf with quota 2, the one the thread runs
    and the one that runs until the thread is joined, work on the two
    halves: whichever of them is run first, both return and the arrays
    are the same afterwards, the halves of the source sorted. *)
Theorem X22_sorts_of_a_leaf_commute {A : Type} (cmp : A -> A -> bool)
    (l r src_rest l0 r0 tgt_rest : list A) :
  Z.of_nat (length l) < 2 ^ size_t_bits ->
  Z.of_nat (length r) < 2 ^ size_t_bits ->
  length l0 = length l -> length r0 = length r ->
  let source := l ++ r ++ src_rest in
  let target := l0 ++ r0 ++ tgt_rest in
  let mid := Z.of_nat (length l) in
  let len := Z.of_nat (length l) + Z.of_nat (length r) in
  exists target',
    ('(source', target') ← on_ranges cmp source 0 mid target 0;
     on_ranges cmp source' mid len target' mid)
    = Some (sorted_output cmp l ++ sorted_output cmp r ++ src_rest, target')
    /\ ('(source', target') ← on_ranges cmp source mid len target mid;
        on_ranges cmp source' 0 mid target' 0)
       = Some (sorted_output cmp l ++ sorted_output cmp r ++ src_rest,
               target')
    /\ length target' = length target.
Proof.
  intros Hl Hr Hl0 Hr0 source target mid len.
  pose proof (leaf_sorts_commute cmp l r src_rest l0 r0 tgt_rest
                Hl Hr Hl0 Hr0) as Hcommute.
  subst source target mid len. cbv zeta in Hcommute. rewrite <- Hcommute.
  destruct (on_ranges_at cmp (l ++ r ++ src_rest) (l0 ++ r0 ++ tgt_rest)
              0 (Z.of_nat (length l)) 0
              [] l (r ++ src_rest) [] l0 (r0 ++ tgt_rest))
    as (l0' & Hleft & Hlen_left);
    [reflexivity | reflexivity | reflexivity | reflexivity | reflexivity
    | exact Hl | exact Hl0 |].
  rewrite Hleft. cbn [mbind option_bind app].
  destruct (on_ranges_at cmp (sorted_output cmp l ++ r ++ src_rest)
              (l0' ++ r0 ++ tgt_rest)
              (Z.of_nat (length l))
              (Z.of_nat (length l) + Z.of_nat (length r))
              (Z.of_nat (length l))
              (sorted_output cmp l) r src_rest l0' r0 tgt_rest)
    as (r0' & Hright & Hlen_right);
    [reflexivity | reflexivity
    | now rewrite sorted_output_length
    | reflexivity
    | f_equal; lia
    | exact Hr | exact Hr0 |].
  exists (l0' ++ r0' ++ tgt_rest).
  split; [exact Hright |]. split; [exact Hright |].
  rewrite !length_app. lia.
Qed.

Lemma X22_sorts_of_a_leaf_commute_witness :
  Z.of_nat (length [4; 2]) < 2 ^ size_t_bits
  /\ Z.of_nat (length [3; 1; 0]) < 2 ^ size_t_bits
  /\ length [7; 7] = length [4; 2]
  /\ length [6; 6; 6] = length [3; 1; 0]
  /\ exists target',
       ('(source', target') ←
          on_ranges Z.ltb ([4; 2] ++ [3; 1; 0] ++ [8]) 0
            (Z.of_nat (length [4; 2])) ([7; 7] ++ [6; 6; 6] ++ [9]) 0;
        on_ranges Z.ltb source' (Z.of_nat (length [4; 2]))
          (Z.of_nat (length [4; 2]) + Z.of_nat (length [3; 1; 0]))
          target' (Z.of_nat (length [4; 2])))
       = Some (sorted_output Z.ltb [4; 2] ++ sorted_output Z.ltb [3; 1; 0]
                 ++ [8], target')
       /\ ('(source', target') ←
             on_ranges Z.ltb ([4; 2] ++ [3; 1; 0] ++ [8])
               (Z.of_nat (length [4; 2]))
               (Z.of_nat (length [4; 2]) + Z.of_nat (length [3; 1; 0]))
               ([7; 7] ++ [6; 6; 6] ++ [9]) (Z.of_nat (length [4; 2]));
           on_ranges Z.ltb source' 0 (Z.of_nat (length [4; 2])) target' 0)
          = Some (sorted_output Z.ltb [4; 2]
                    ++ sorted_output Z.ltb [3; 1; 0] ++ [8], target')
       /\ length target' = length ([7; 7] ++ [6; 6; 6] ++ [9]).
Proof.
  split; [reflexivity |]. split; [reflexivity |].
  split; [reflexivity |]. split; [reflexivity |].
  apply (X22_sorts_of_a_leaf_commute Z.ltb [4; 2] [3; 1; 0] [8] [7; 7]
           [6; 6; 6] [9]); reflexivity.
Defined.

(** X17: with fewer than two cores, or fewer than [2 * 16384] elements,
    the parallel entry point is the sequential one: no buffer is copied and
    no thread is started. *)
Theorem X17_short_ranges_are_sorted_sequentially {A : Type}
    (cmp : A -> A -> bool) (cores : Z) (fresh input : list A) :
  Z.of_nat (length input) < 2 ^ size_t_bits ->
  cores < 2 \/ Z.of_nat (length input) < 2 * MINIMUM_THREAD_LOAD ->
  parallel_natural_merge_sort cmp cores fresh input
  = natural_merge_sort cmp fresh input.
Proof.
  intros Hbound Hsmall. unfold parallel_natural_merge_sort.
  rewrite wrap_small by size_t_bounds.
  assert (Hspawn : Z.min cores (Z.of_nat (length input) / MINIMUM_THREAD_LOAD)
                   < 2).
  { destruct Hsmall as [Hcores|Hshort]; [lia |].
    assert (Z.of_nat (length input) / MINIMUM_THREAD_LOAD < 2); [| lia].
    apply Z.div_lt_upper_bound; [reflexivity |].
    rewrite Z.mul_comm. exact Hshort. }
  destruct (Z.ltb_spec
              (Z.min cores (Z.of_nat (length input) / MINIMUM_THREAD_LOAD)) 2);
    [reflexivity | lia].
Qed.

Lemma X17_short_ranges_are_sorted_sequentially_witness :
  Z.of_nat (length [3; 1; 2]) < 2 ^ size_t_bits
  /\ (64 < 2 \/ Z.of_nat (length [3; 1; 2]) < 2 * MINIMUM_THREAD_LOAD)
  /\ parallel_natural_merge_sort Z.ltb 64 [0; 0; 0] [3; 1; 2]
     = natural_merge_sort Z.ltb [0; 0; 0] [3; 1; 2].
Proof.
  split; [reflexivity |]. split; [right; reflexivity |].
  apply (X17_short_ranges_are_sorted_sequentially Z.ltb 64 [0; 0; 0]
           [3; 1; 2]); [reflexivity | right; reflexivity].
Defined.

(** ** The presorted array of the benchmark *)

Lemma counting_length from step count :
  length (counting from step count) = count.
Proof.
  revert from. induction count as [|count IH]; intros from; [reflexivity |].
  cbn [counting length]. now rewrite IH.
Qed.

Lemma counting_snoc from step count :
  counting from step (S count)
  = counting from step count ++ [from + step * Z.of_nat count].
Proof.
  revert from. induction count as [|count IH]; intros from.
  - cbn [counting app]. f_equal. lia.
  - change (counting from step (S (S count)))
      with (from :: counting (from + step) step (S count)).
    rewrite IH. cbn [counting app]. do 3 f_equal. lia.
Qed.

Lemma counting_lookup from step count (j : nat) :
  (j < count)%nat ->
  counting from step count !! j = Some (from + step * Z.of_nat j).
Proof.
  revert from j. induction count as [|count IH]; intros from j Hj; [lia |].
  destruct j as [|j]; cbn [counting].
  - rewrite Z.mul_0_r, Z.add_0_r. reflexivity.
  - change ((from :: counting (from + step) step count) !! S j)
      with (counting (from + step) step count !! j).
    rewrite (IH (from + step) j) by lia. f_equal. lia.
Qed.

Lemma fill_ascending_spec (todo : nat) :
  forall (fuel : nat) (pre rest : list Z) (num : Z),
    (todo <= fuel)%nat -> (todo <= length rest)%nat ->
    Z.of_nat (length pre + todo) < 2 ^ size_t_bits ->
    num + Z.of_nat todo <= INT_MAX ->
    fill_ascending fuel (pre ++ rest) (Z.of_nat (length pre))
      (Z.of_nat (length pre + todo)) num
    = Some (pre ++ counting num 1 todo ++ drop todo rest,
            num + Z.of_nat todo).
Proof.
  induction todo as [|todo IH]; intros fuel pre rest num Hfuel Hrest Hb Hmax.
  - rewrite Nat.add_0_r, Z.add_0_r.
    destruct fuel; cbn [fill_ascending counting drop app];
      rewrite Z.ltb_irrefl; reflexivity.
  - destruct fuel as [|fuel]; [lia |].
    destruct rest as [|r rest]; [simpl in Hrest; lia |].
    cbn [fill_ascending length] in *.
    destruct (Z.ltb_spec (Z.of_nat (length pre))
                (Z.of_nat (length pre + S todo))); [| lia].
    rewrite Nat2Z.id.
    rewrite option_guard_True by (rewrite length_app; cbn [length]; lia).
    cbn [mbind option_bind].
    rewrite option_guard_True by lia. cbn [mbind option_bind].
    rewrite insert_app_r_alt, Nat.sub_diag by lia. cbn [insert list_insert].
    rewrite wrap_small by size_t_bounds.
    replace (pre ++ num :: rest) with ((pre ++ [num]) ++ rest)
      by (now rewrite <- app_assoc).
    replace (Z.of_nat (length pre) + 1) with (Z.of_nat (length (pre ++ [num])))
      by (rewrite length_app; cbn [length]; lia).
    replace (length pre + S todo)%nat with (length (pre ++ [num]) + todo)%nat
      by (rewrite length_app; cbn [length]; lia).
    rewrite IH.
    + cbn [counting drop]. rewrite <- app_assoc. cbn [app].
      do 2 f_equal. lia.
    + lia.
    + lia.
    + rewrite length_app. cbn [length]. lia.
    + lia.
Qed.

Lemma fill_descending_spec (todo : nat) :
  forall (fuel : nat) (pre rest : list Z) (num : Z),
    (todo <= fuel)%nat -> (todo <= length rest)%nat ->
    Z.of_nat (length pre + todo) < 2 ^ size_t_bits ->
    INT_MIN <= num - Z.of_nat todo ->
    fill_descending fuel (pre ++ rest) (Z.of_nat (length pre))
      (Z.of_nat (length pre + todo)) num
    = Some (pre ++ counting num (-1) todo ++ drop todo rest,
            num - Z.of_nat todo).
Proof.
  induction todo as [|todo IH]; intros fuel pre rest num Hfuel Hrest Hb Hmin.
  - rewrite Nat.add_0_r, Z.sub_0_r.
    destruct fuel; cbn [fill_descending counting drop app];
      rewrite Z.ltb_irrefl; reflexivity.
  - destruct fuel as [|fuel]; [lia |].
    destruct rest as [|r rest]; [simpl in Hrest; lia |].
    cbn [fill_descending length] in *.
    destruct (Z.ltb_spec (Z.of_nat (length pre))
                (Z.of_nat (length pre + S todo))); [| lia].
    rewrite Nat2Z.id.
    rewrite option_guard_True by (rewrite length_app; cbn [length]; lia).
    cbn [mbind option_bind].
    rewrite option_guard_True by lia. cbn [mbind option_bind].
    rewrite insert_app_r_alt, Nat.sub_diag by lia. cbn [insert list_insert].
    rewrite wrap_small by size_t_bounds.
    replace (pre ++ num :: rest) with ((pre ++ [num]) ++ rest)
      by (now rewrite <- app_assoc).
    replace (Z.of_nat (length pre) + 1) with (Z.of_nat (length (pre ++ [num])))
      by (rewrite length_app; cbn [length]; lia).
    replace (length pre + S todo)%nat with (length (pre ++ [num]) + todo)%nat
      by (rewrite length_app; cbn [length]; lia).
    rewrite IH.
    + cbn [counting drop]. rewrite <- app_assoc. cbn [app].
      replace (num + -1) with (num - 1) by lia.
      do 2 f_equal. lia.
    + lia.
    + lia.
    + rewrite length_app. cbn [length]. lia.
    + lia.
Qed.

Lemma get_presorted_int_array_spec (fresh : list Z) (length_ : Z) :
  Z.of_nat (length fresh) = length_ ->
  length_ < 2 ^ size_t_bits ->
  length_ / 2 <= INT_MAX ->
  get_presorted_int_array fresh length_
  = Some (counting 0 1 (Z.to_nat (length_ / 2))
            ++ counting (length_ / 2) (-1)
                 (Z.to_nat (length_ - length_ / 2))).
Proof.
  intros Hfresh Hbound Hmax. unfold get_presorted_int_array.
  rewrite option_guard_True by exact Hfresh. cbn [mbind option_bind].
  assert (Hhalf : 0 <= length_ / 2 <= length_).
  { split; [apply Z.div_pos; lia |].
    apply Z.div_le_upper_bound; lia. }
  assert (Hhalf' : length_ - length_ / 2 <= length_ / 2 + 1).
  { pose proof (Z.div_mod length_ 2 ltac:(lia)).
    pose proof (Z.mod_pos_bound length_ 2 ltac:(lia)). lia. }
  pose proof (fill_ascending_spec (Z.to_nat (length_ / 2)) (length fresh)
                [] fresh 0) as Hup.
  cbn [app length Nat.add] in Hup. change (Z.of_nat 0) with 0 in Hup.
  rewrite Z2Nat.id in Hup by lia. cbv zeta.
  rewrite Hup by (try lia; unfold INT_MAX in *; lia).
  cbn [mbind option_bind]. clear Hup.
  pose proof (fill_descending_spec (Z.to_nat (length_ - length_ / 2))
                (length fresh) (counting 0 1 (Z.to_nat (length_ / 2)))
                (drop (Z.to_nat (length_ / 2)) fresh) (length_ / 2)) as Hdown.
  rewrite counting_length in Hdown.
  rewrite !Z2Nat.id in Hdown by lia.
  replace (Z.of_nat (Z.to_nat (length_ / 2)
                     + Z.to_nat (length_ - length_ / 2)))
    with length_ in Hdown by lia.
  rewrite Z.add_0_l, Hdown.
  - cbn [mbind option_bind]. rewrite drop_drop, drop_ge by lia.
    now rewrite app_nil_r.
  - lia.
  - rewrite length_drop. lia.
  - lia.
  - unfold INT_MIN. lia.
Qed.

(** X18: [get_presorted_int_array] of [main.cpp], for a length whose half
    fits an [int]: the element at index [i] is [i] in the first half and
    [2 * (length / 2) - i] from the middle on; the array rises from 0 and
    then falls. *)
Theorem X18_presorted_array_rises_then_falls (fresh : list Z) (length_ : Z) :
  Z.of_nat (length fresh) = length_ ->
  length_ < 2 ^ size_t_bits ->
  length_ / 2 <= INT_MAX ->
  exists array,
    get_presorted_int_array fresh length_ = Some array
    /\ Z.of_nat (length array) = length_
    /\ forall i,
         0 <= i < length_ ->
         array !! Z.to_nat i
         = Some (if i <? length_ / 2 then i else 2 * (length_ / 2) - i).
Proof.
  intros Hfresh Hbound Hmax. eexists.
  split; [now apply get_presorted_int_array_spec |].
  assert (Hhalf : 0 <= length_ / 2 <= length_).
  { split; [apply Z.div_pos; lia |].
    apply Z.div_le_upper_bound; lia. }
  split; [rewrite length_app, !counting_length; lia |].
  intros i Hi. destruct (Z.ltb_spec i (length_ / 2)) as [Hlow|Hhigh].
  - rewrite lookup_app_l by (rewrite counting_length; lia).
    rewrite counting_lookup by lia. f_equal. lia.
  - rewrite lookup_app_r by (rewrite counting_length; lia).
    rewrite counting_length, counting_lookup by lia. f_equal. lia.
Qed.

Lemma X18_presorted_array_rises_then_falls_witness :
  Z.of_nat (length [9; 9; 9; 9; 9; 9; 9]) = 7
  /\ 7 < 2 ^ size_t_bits
  /\ 7 / 2 <= INT_MAX
  /\ exists array,
       get_presorted_int_array [9; 9; 9; 9; 9; 9; 9] 7 = Some array
       /\ Z.of_nat (length array) = 7
       /\ forall i,
            0 <= i < 7 ->
            array !! Z.to_nat i
            = Some (if i <? 7 / 2 then i else 2 * (7 / 2) - i).
Proof.
  split; [reflexivity |]. split; [reflexivity |].
  split; [vm_compute; discriminate |].
  apply (X18_presorted_array_rises_then_falls [9; 9; 9; 9; 9; 9; 9] 7);
    [reflexivity | reflexivity | vm_compute; discriminate].
Defined.

Lemma counting_ascending (count : nat) :
  forall from, ascending_run Z.ltb (counting from 1 count).
Proof.
  induction count as [|count IH]; intros from; [constructor |].
  cbn [counting]. constructor; [apply IH |].
  destruct count; cbn [counting]; constructor.
  apply Z.ltb_ge. lia.
Qed.

Lemma counting_descending (count : nat) :
  forall from, descending_run Z.ltb (counting from (-1) count).
Proof.
  induction count as [|count IH]; intros from; [constructor |].
  cbn [counting]. constructor; [apply IH |].
  destruct count; cbn [counting]; constructor.
  apply Z.ltb_lt. lia.
Qed.

(** A run that never descends ends before the first element that comes
    before its neighbour. *)
Lemma ascending_extent_border {A} (cmp : A -> A -> bool) (run : list A) :
  forall (p m z : A) (rest : list A),
    ascending_run cmp (p :: run ++ [m]) -> cmp z m = true ->
    ascending_extent cmp p (run ++ m :: z :: rest) = S (length run).
Proof.
  induction run as [|x run IH]; intros p m z rest Hrun Hz;
    apply Sorted_inv in Hrun as [Hrun Hhead]; apply HdRel_inv in Hhead;
    cbn [app ascending_extent length]; rewrite Hhead; cbn [negb].
  - now rewrite Hz.
  - f_equal. now apply IH.
Qed.

Lemma runs_with_ascending_first {A} (cmp : A -> A -> bool) (fuel : nat)
    (x m z : A) (run rest : list A) :
  ascending_run cmp (x :: run ++ [m]) -> cmp z m = true ->
  runs_with cmp (S fuel) (x :: run ++ m :: z :: rest)
  = (x :: run ++ [m]) :: runs_with cmp fuel (z :: rest).
Proof.
  intros Hrun Hz. destruct run as [|y run]; cbn [app runs_with].
  - apply Sorted_inv in Hrun as [_ Hhead]. apply HdRel_inv in Hhead.
    rewrite Hhead. cbn [ascending_extent]. rewrite Hz. reflexivity.
  - pose proof Hrun as Hrun'.
    apply Sorted_inv in Hrun' as [Hrest Hhead]. apply HdRel_inv in Hhead.
    rewrite Hhead, (ascending_extent_border cmp run y m z rest Hrest Hz).
    replace (run ++ m :: z :: rest) with ((run ++ [m]) ++ z :: rest)
      by (now rewrite <- app_assoc).
    rewrite take_app_length', drop_app_length'
      by (rewrite length_app; cbn [length]; lia).
    reflexivity.
Qed.

Lemma runs_with_descending_last {A} (cmp : A -> A -> bool) (fuel : nat)
    (z : A) (rest : list A) :
  descending_run cmp (z :: rest) ->
  runs_with cmp (S fuel) (z :: rest) = [z :: rest].
Proof.
  intros Hrun. destruct rest as [|w rest]; [reflexivity |].
  pose proof Hrun as Hrun'.
  apply Sorted_inv in Hrun' as [Hrest Hhead]. apply HdRel_inv in Hhead.
  cbn [runs_with]. rewrite Hhead.
  rewrite (descending_extent_full cmp rest w Hrest).
  rewrite firstn_all, drop_all, runs_with_nil. reflexivity.
Qed.

Lemma presorted_runs (up down : nat) :
  runs_of Z.ltb (counting 0 1 (S up)
                   ++ counting (Z.of_nat (S up)) (-1) (S (S down)))
  = [counting 0 1 (S (S up));
     counting (Z.of_nat (S up) - 1) (-1) (S down)].
Proof.
  unfold runs_of. rewrite length_app, !counting_length.
  replace (S up + S (S down))%nat with (S (S (S (up + down)))) by lia.
  assert (Hsplit : counting 0 1 (S up)
                     ++ counting (Z.of_nat (S up)) (-1) (S (S down))
                   = 0 :: counting 1 1 up
                       ++ Z.of_nat (S up) :: (Z.of_nat (S up) - 1)
                       :: counting (Z.of_nat (S up) - 1 + -1) (-1) down).
  { reflexivity. }
  rewrite Hsplit.
  assert (Hrun : counting 0 1 (S (S up))
                 = 0 :: counting 1 1 up ++ [Z.of_nat (S up)]).
  { rewrite counting_snoc. reflexivity. }
  rewrite runs_with_ascending_first.
  - rewrite <- Hrun.
    rewrite (runs_with_descending_last Z.ltb _ (Z.of_nat (S up) - 1)).
    + reflexivity.
    + apply (counting_descending (S down)).
  - rewrite <- Hrun. apply counting_ascending.
  - apply Z.ltb_lt. lia.
Qed.

(** X19: the presorted array of the benchmark, of three elements or
    more, consists of two runs for [std::less<int>]: the scanner enqueues
    the lengths [length / 2 + 1] and [length - length / 2 - 1], and the
    sort needs one merge pass. *)
Theorem X19_presorted_array_has_two_runs (fresh : list Z) (length_ : Z) :
  Z.of_nat (length fresh) = length_ ->
  3 <= length_ < 2 ^ size_t_bits ->
  length_ / 2 <= INT_MAX ->
  exists array scanned q,
    get_presorted_int_array fresh length_ = Some array
    /\ build_run_size_queue Z.ltb array = Some (scanned, q)
    /\ size q = 2
    /\ dequeue_all 2 q
       = Some [length_ / 2 + 1; length_ - length_ / 2 - 1]
    /\ get_pass_amount (size q) = Some 1.
Proof.
  intros Hfresh Hbound Hmax.
  assert (Hhalf : 1 <= length_ / 2 /\ 2 <= length_ - length_ / 2).
  { pose proof (Z.div_mod length_ 2 ltac:(lia)).
    pose proof (Z.mod_pos_bound length_ 2 ltac:(lia)). lia. }
  pose proof (get_presorted_int_array_spec fresh length_ Hfresh
                ltac:(lia) Hmax) as Harray.
  destruct (Z.to_nat (length_ / 2)) as [|up] eqn:Hup; [lia |].
  destruct (Z.to_nat (length_ - length_ / 2)) as [|[|down]] eqn:Hdown;
    [lia.. |].
  replace (length_ / 2) with (Z.of_nat (S up)) in Harray at 1 by lia.
  pose proof (presorted_runs up down) as Hruns.
  set (array := counting 0 1 (S up)
                  ++ counting (Z.of_nat (S up)) (-1) (S (S down))) in *.
  assert (Hlen : Z.of_nat (length array) = length_).
  { unfold array. rewrite length_app, !counting_length. lia. }
  destruct (build_run_size_queue_spec Z.ltb array ltac:(lia) ltac:(lia))
    as (q & Hbuild & Hok & Hcont & _).
  rewrite Hruns in Hcont. cbn [run_lengths map] in Hcont.
  rewrite !counting_length in Hcont.
  pose proof (queue_ok_size q Hok) as Hsize.
  pose proof (size_contents q ltac:(unfold size in Hsize; lia)) as Htwo.
  rewrite Hcont in Htwo. cbn [length] in Htwo.
  pose proof (dequeue_all_contents q Hok) as Hall.
  rewrite Hcont in Hall. cbn [length] in Hall.
  exists array, (concat (map (settle Z.ltb) (runs_of Z.ltb array))), q.
  split; [exact Harray |]. split; [exact Hbuild |].
  split; [exact Htwo |].
  split; [rewrite Hall; do 3 f_equal; lia |].
  rewrite Htwo. reflexivity.
Qed.

Lemma X19_presorted_array_has_two_runs_witness :
  Z.of_nat (length [9; 9; 9; 9; 9; 9; 9]) = 7
  /\ 3 <= 7 < 2 ^ size_t_bits
  /\ 7 / 2 <= INT_MAX
  /\ exists array scanned q,
       get_presorted_int_array [9; 9; 9; 9; 9; 9; 9] 7 = Some array
       /\ build_run_size_queue Z.ltb array = Some (scanned, q)
       /\ size q = 2
       /\ dequeue_all 2 q = Some [7 / 2 + 1; 7 - 7 / 2 - 1]
       /\ get_pass_amount (size q) = Some 1.
Proof.
  split; [reflexivity |]. split; [split; [lia | reflexivity] |].
  split; [vm_compute; discriminate |].
  apply (X19_presorted_array_has_two_runs [9; 9; 9; 9; 9; 9; 9] 7);
    [reflexivity | split; [lia | reflexivity] | vm_compute; discriminate].
Defined.

(** The counter is at [INT_MAX] when the round of that index starts. *)
Lemma fill_ascending_overflows (fuel : nat) :
  forall (array : list Z) (i stop : Z),
    0 <= i <= INT_MAX -> INT_MAX < stop ->
    fill_ascending fuel array i stop i = None.
Proof.
  induction fuel as [|fuel IH]; intros array i stop Hi Hstop;
    cbn [fill_ascending];
    (destruct (Z.ltb_spec i stop); [| lia]); [reflexivity |].
  destruct (decide (Z.to_nat i < length array)%nat) as [Hin|Hout];
    [rewrite (option_guard_True (Z.to_nat i < length array)%nat)
       by exact Hin
    | rewrite (option_guard_False (Z.to_nat i < length array)%nat)
        by exact Hout; reflexivity].
  cbn [mbind option_bind].
  destruct (decide (i + 1 <= INT_MAX)) as [Hfits|Hover];
    [rewrite option_guard_True by exact Hfits
    | rewrite option_guard_False by exact Hover; reflexivity].
  cbn [mbind option_bind].
  rewrite wrap_small by (unfold INT_MAX in *; size_t_bounds).
  apply IH; lia.
Qed.

(** X20: for a length of [2^32] or more, the counter of
    [get_presorted_int_array] leaves the range of [int] in the first loop:
    the function has no defined result. *)
Theorem X20_presorted_array_overflows_int (fresh : list Z) (length_ : Z) :
  Z.of_nat (length fresh) = length_ ->
  INT_MAX < length_ / 2 ->
  get_presorted_int_array fresh length_ = None.
Proof.
  intros Hfresh Hlong. unfold get_presorted_int_array.
  rewrite option_guard_True by exact Hfresh.
  cbn [mbind option_bind]. cbv zeta.
  rewrite fill_ascending_overflows; [reflexivity | | exact Hlong].
  unfold INT_MAX. lia.
Qed.

Lemma X20_presorted_array_overflows_int_witness :
  Z.of_nat (length (replicate (Z.to_nat (2 ^ 32)) 0)) = 2 ^ 32
  /\ INT_MAX < 2 ^ 32 / 2
  /\ get_presorted_int_array (replicate (Z.to_nat (2 ^ 32)) 0) (2 ^ 32)
     = None.
Proof.
  assert (Hlength : Z.of_nat (length (replicate (Z.to_nat (2 ^ 32)) 0))
                    = 2 ^ 32).
  { rewrite length_replicate. apply Z2Nat.id. discriminate. }
  split; [exact Hlength |]. split; [reflexivity |].
  apply (X20_presorted_array_overflows_int
           (replicate (Z.to_nat (2 ^ 32)) 0) (2 ^ 32));
    [exact Hlength | reflexivity].
Defined.
